(** * Twin64: a shallow embedding of the utility routines, the CPU core,
      the one line assembler and the disassembler.

    Sources embedded here:
    - [Twin64-Libraries/Twin64-Common/T64-Util.h]         (module [Util])
    - [Twin64-Libraries/Twin64-Processor/T64-Cpu.cpp]     (module [Cpu])
    - [Twin64-Libraries/Twin64-InlineAsm/T64-InlineAsm.cpp]    (module [Asm])
    - [Twin64-Libraries/Twin64-InlineAsm/T64-InlineDisAsm.cpp] (module [DisAsm])

    Machine integers are kept as [Z] and every conversion between the C++
    integer types is written out ([to_i64], [to_u64], [to_i32], [to_u32]). *)

From Stdlib Require Import ZArith NArith List String Ascii Bool Lia DecimalString.
From Stdlib Require Decimal DecimalFacts DecimalPos.
Import ListNotations.
Local Open Scope Z_scope.

(* ------------------------------------------------------------------------- *)
(** ** Machine integers *)
(* ------------------------------------------------------------------------- *)

Module Int.

Definition INT64_MAX : Z := 9223372036854775807.
Definition INT64_MIN : Z := -9223372036854775808.

(** Conversion to [uint64_t], [int64_t] ([T64Word]), [uint32_t]
    ([T64Instr]) and [int]: reduction modulo the width. *)
Definition to_u64 (z : Z) : Z := z mod 2 ^ 64.
Definition to_i64 (z : Z) : Z := (z + 2 ^ 63) mod 2 ^ 64 - 2 ^ 63.
Definition to_u32 (z : Z) : Z := z mod 2 ^ 32.
Definition to_i32 (z : Z) : Z := (z + 2 ^ 31) mod 2 ^ 32 - 2 ^ 31.
Definition to_u8  (z : Z) : Z := z mod 2 ^ 8.

Definition in_i64 (z : Z) : Prop := INT64_MIN <= z <= INT64_MAX.
Definition in_u32 (z : Z) : Prop := 0 <= z < 2 ^ 32.

(** A C++ [bool] used as an integer. *)
Definition b2z (b : bool) : Z := if b then 1 else 0.
(** An integer used as a C++ condition. *)
Definition z2b (z : Z) : bool := negb (z =? 0).

End Int.
Import Int.

(* ------------------------------------------------------------------------- *)
(** ** T64-Util.h *)
(* ------------------------------------------------------------------------- *)

Module Util.

Definition isInRange (adr low high : Z) : bool :=
  (adr >=? low) && (adr <=? high).

Definition isAlignedDataAdr (adr align : Z) : bool :=
  if (align =? 1) || (align =? 2) || (align =? 4) || (align =? 8)
  then Z.land adr (align - 1) =? 0
  else false.

Definition isAlignedOfs (ofs align : Z) : bool :=
  Z.land ofs (align - 1) =? 0.

(** [val] is an [int] parameter: the caller's value is converted. *)
Definition isInRangeForInstrBitFieldS (val bitLen : Z) : bool :=
  let val := to_i32 val in
  let min := - Z.shiftl 1 (Z.rem (bitLen - 1) 64) in
  let max := Z.shiftl 1 (Z.rem (bitLen - 1) 64) - 1 in
  (val <=? max) && (val >=? min).

Definition isInRangeForInstrBitFieldU (val bitLen : Z) : bool :=
  let val := to_u32 val in
  let max := to_u32 (Z.shiftl 1 (Z.rem bitLen 64) - 1) in
  val <=? max.

(** *** Instruction field routines *)

Definition extractInstrBit (arg bitpos : Z) : Z :=
  if bitpos >? 31 then 0 else Z.land (Z.shiftr arg bitpos) 1.

Definition extractInstrFieldU (arg bitpos len : Z) : Z :=
  if bitpos >? 31 then 0
  else if bitpos + len >? 32 then 0
  else to_i32 (Z.land (Z.shiftr arg bitpos) (Z.shiftl 1 len - 1)).

Definition extractInstrFieldS (arg bitpos len : Z) : Z :=
  if len =? 0 then 0
  else
    let field := Z.land (Z.shiftr arg bitpos) (Z.shiftl 1 len - 1) in
    Z.shiftr (to_i32 (Z.shiftl field (32 - len))) (32 - len).

Definition extractInstrOpGroup (instr : Z) := extractInstrFieldU instr 30 2.
Definition extractInstrOpCode  (instr : Z) := extractInstrFieldU instr 26 4.
Definition extractInstrOptField (instr : Z) := extractInstrFieldU instr 19 3.
Definition extractInstrRegR (instr : Z) := extractInstrFieldU instr 22 4.
Definition extractInstrRegB (instr : Z) := extractInstrFieldU instr 15 4.
Definition extractInstrRegA (instr : Z) := extractInstrFieldU instr 9 4.
Definition extractInstrDwField (instr : Z) := extractInstrFieldU instr 13 2.
Definition extractInstrSignedImm13 (instr : Z) := extractInstrFieldS instr 0 13.
Definition extractInstrSignedScaledImm13 (instr : Z) :=
  to_i32 (Z.shiftl (extractInstrSignedImm13 instr) (extractInstrDwField instr)).
Definition extractInstrSignedImm15 (instr : Z) := extractInstrFieldS instr 0 15.
Definition extractInstrSignedImm19 (instr : Z) := extractInstrFieldS instr 0 19.
Definition extractInstrImm20 (instr : Z) := extractInstrFieldU instr 0 20.

(** *** Deposit routines for the instruction word (used by the assembler).
    [instr] is the content of the cell the C++ routine updates in place;
    the new content is returned. *)

Definition depositInstrField (instr bitpos len value : Z) : Z :=
  let mask := to_u32 (Z.shiftl (Z.shiftl 1 len - 1) bitpos) in
  to_u32 (Z.lor (Z.land instr (to_u32 (Z.lnot mask)))
                (Z.land (Z.shiftl value bitpos) mask)).

Definition depositInstrBit (instr bitpos : Z) (value : bool) : Z :=
  let mask := to_u32 (Z.shiftl 1 bitpos) in
  to_u32 (Z.lor (Z.land instr (to_u32 (Z.lnot mask)))
                (Z.land (Z.shiftl (b2z value) bitpos) mask)).

Definition depositInstrRegR (instr regId : Z) := depositInstrField instr 22 4 regId.
Definition depositInstrRegB (instr regId : Z) := depositInstrField instr 15 4 regId.
Definition depositInstrRegA (instr regId : Z) := depositInstrField instr 9 4 regId.

(** *** General extract, deposit and shift functions on 64-bit words *)

Definition extractBit64 (arg bitpos : Z) : Z :=
  if bitpos >? 63 then 0 else Z.land (Z.shiftr arg bitpos) 1.

Definition extractField64 (arg bitpos len : Z) : Z :=
  if bitpos >? 63 then 0
  else if bitpos + len >? 64 then 0
  else Z.land (Z.shiftr arg bitpos) (to_i64 (to_i64 (Z.shiftl 1 len) - 1)).

(** The C++ shift [arg >> bitpos] has no guard here: it is defined for
    [bitpos] from 0 to 63 only, and that is the range the facts about this
    function are stated for. *)
Definition extractSignedField64 (arg bitpos len : Z) : Z :=
  let field := to_i64 (Z.land (to_u64 (Z.shiftr arg bitpos))
                              (to_u64 (Z.shiftl 1 len - 1))) in
  if len <? 64
  then Z.shiftr (to_i64 (Z.shiftl field (64 - len))) (64 - len)
  else field.

Definition depositField (word bitpos len value : Z) : Z :=
  let mask := to_i64 (Z.shiftl (to_u64 (Z.shiftl 1 len - 1)) bitpos) in
  Z.lor (Z.land word (Z.lnot mask))
        (Z.land (to_i64 (Z.shiftl value bitpos)) mask).

Definition shiftRight128 (hi lo shift : Z) : Z :=
  if shift =? 0 then lo
  else if (shift >? 0) && (shift <? 64)
  then to_i64 (Z.lor (to_u64 (Z.shiftl (to_u64 hi) (64 - shift)))
                     (Z.shiftr (to_u64 lo) shift))
  else lo.

(** *** Signed 64-bit overflow checks.  The subtractions are [int64_t]
    subtractions, so their wrap-around is part of the model. *)

Definition willAddOverflow (a b : Z) : bool :=
  if (b >? 0) && (a >? to_i64 (INT64_MAX - b)) then true
  else if (b <? 0) && (a <? to_i64 (INT64_MIN - b)) then true
  else false.

Definition willSubOverflow (a b : Z) : bool :=
  if (b <? 0) && (a >? to_i64 (INT64_MAX + b)) then true
  else if (b >? 0) && (a <? to_i64 (INT64_MIN + b)) then true
  else false.

Definition willMultOverflow (a b : Z) : bool :=
  if (a =? 0) || (b =? 0) then false
  else if (a =? INT64_MIN) && (b =? -1) then true
  else if (b =? INT64_MIN) && (a =? -1) then true
  else if a >? 0 then
    if b >? 0 then a >? Z.quot INT64_MAX b else b <? Z.quot INT64_MIN a
  else
    if b >? 0 then a <? Z.quot INT64_MIN b else a <? Z.quot INT64_MAX b.

Definition willDivOverflow (a b : Z) : bool :=
  if b =? 0 then true
  else if (a =? INT64_MIN) && (b =? -1) then true
  else false.

Definition willShiftLeftOverflow (val shift : Z) : bool :=
  if (shift <? 0) || (shift >=? 63) then true
  else if shift =? 0 then false
  else
    let shifted := to_i64 (Z.shiftl val shift) in
    let recovered := Z.shiftr shifted shift in
    negb (recovered =? val).

Definition vAdrRegionId (vAdr : Z) := extractField64 vAdr 32 20.

Definition extractPsrXbit (psr : Z) : bool := z2b (extractBit64 psr 61).

(** *** Further helper functions of the header *)

(** [roundup] and [rounddown] compute in [T64Word]; [/] truncates
    towards zero. *)
Definition roundup (arg round : Z) : Z :=
  if round =? 0 then arg
  else to_i64 (Z.quot (to_i64 (to_i64 (arg + round) - 1)) round * round).

Definition rounddown (arg round : Z) : Z :=
  if round =? 0 then arg
  else to_i64 (Z.quot arg round * round).

Definition isAlignedInstrAdr (adr : Z) : bool := Z.land adr 3 =? 0.

Definition signExtend (data pos : Z) : Z :=
  let mask := to_i64 (Z.shiftl 1 pos) in
  let extend := Z.lnot (to_i64 (mask - 1)) in
  if negb (Z.land data mask =? 0)
  then Z.lor data extend
  else Z.land data (Z.lnot extend).

Definition vAdrRegionOfs (vAdr : Z) := extractField64 vAdr 0 32.
Definition vAdrPageNum (vAdr : Z) := extractField64 vAdr 12 40.
Definition vAdrPageOfs (vAdr : Z) := extractField64 vAdr 0 12.

Definition extractPsrMbit (psr : Z) : bool := z2b (extractBit64 psr 63).

(** *** Address arithmetic: unsigned 32-bit arithmetic on the offset part. *)
Definition addAdrOfs32 (adr ofs : Z) : Z :=
  let uadr := to_u64 adr in
  let lo := to_u32 uadr in
  let newLo := to_u32 (lo + to_u32 ofs) in
  to_i64 (Z.lor (Z.land uadr 18446744069414584320) newLo).

End Util.
Import Util.

(* ------------------------------------------------------------------------- *)
(** ** T64-Common.h: what the sources use from the header that declares the
       architecture constants *)
(* ------------------------------------------------------------------------- *)

(** Modelled from the spec: the four opcode group numbers of T64-Common.h
    (instruction layout: "OpGroup - bits [31:30] - 4 groups: ALU=0, MEM=1,
    BR=2, SYS=3") and the sizes of the two register files ("16 general
    registers R0..R15", "16 control registers C0..C15"). *)
Definition OPC_GRP_ALU : Z := 0.
Definition OPC_GRP_MEM : Z := 1.
Definition OPC_GRP_BR  : Z := 2.
Definition OPC_GRP_SYS : Z := 3.
Definition T64_MAX_GREGS : Z := 16.
Definition T64_MAX_CREGS : Z := 16.

(** The trap codes the CPU raises. *)
Inductive T64TrapCode : Type :=
| DATA_TLB_MISS_TRAP | INSTR_TLB_MISS_TRAP | INSTR_ALIGNMENT_TRAP
| INSTR_PROTECTION_TRAP | DATA_ALIGNMENT_TRAP | PRIV_OPERATION_TRAP
| OVERFLOW_TRAP | ILLEGAL_INSTR_TRAP.

(** The trap packet: the members the CPU reads when it catches one. *)
Record T64Trap : Type := mkT64Trap {
  trapCode : T64TrapCode;
  instrAdr : Z;
  arg0     : Z;
  arg1     : Z
}.

(** The opcode family numbers, the control register numbers and the
    constructor of the trap packet are declared in the header and are
    parameters of the development.  [newT64Trap code a b c] stands for the
    C++ expression [T64Trap( code, a, b, c )]. *)
Class T64Common : Type := {
  OPC_NOP : Z;  OPC_ADD : Z;  OPC_SUB : Z;  OPC_AND : Z;  OPC_OR : Z;
  OPC_XOR : Z;  OPC_CMP_A : Z;  OPC_CMP_B : Z;  OPC_BITOP : Z;
  OPC_SHAOP : Z;  OPC_IMMOP : Z;  OPC_LDO : Z;
  OPC_LD : Z;  OPC_ST : Z;  OPC_LDR : Z;  OPC_STC : Z;
  OPC_B : Z;  OPC_BE : Z;  OPC_BR : Z;  OPC_BV : Z;
  OPC_BB : Z;  OPC_CBR : Z;  OPC_MBR : Z;  OPC_ABR : Z;
  OPC_MR : Z;  OPC_LPA : Z;  OPC_PRB : Z;  OPC_TLB : Z;  OPC_CA : Z;
  OPC_MST : Z;  OPC_RFI : Z;  OPC_TRAP : Z;  OPC_DIAG : Z;
  CTL_REG_SHAMT : Z;  CTL_REG_IPSR : Z;  CTL_REG_IINSTR : Z;
  CTL_REG_IARG_0 : Z;  CTL_REG_IARG_1 : Z;  CTL_REG_IVA : Z;
  T64_MAX_PHYS_MEM_LIMIT : Z;  T64_DEF_PHYS_MEM_LIMIT : Z;
  newT64Trap : T64TrapCode -> Z -> Z -> Z -> T64Trap
}.

Fixpoint distinctZ (l : list Z) : bool :=
  match l with
  | [] => true
  | x :: r => negb (existsb (Z.eqb x) r) && distinctZ r
  end.

Definition is4bit (z : Z) : bool := (0 <=? z) && (z <? 16).

(** What the sources need from the constants: an opcode family fits the
    4-bit field, the case labels of each [switch] over
    [group * 16 + family] are pairwise different (the C++ compiler rejects a
    duplicate label), and the named control registers are different
    registers of the file. *)
Definition wfConsts (c : T64Common) : bool :=
  forallb is4bit
    [ OPC_NOP; OPC_ADD; OPC_SUB; OPC_AND; OPC_OR; OPC_XOR; OPC_CMP_A;
      OPC_CMP_B; OPC_BITOP; OPC_SHAOP; OPC_IMMOP; OPC_LDO; OPC_LD; OPC_ST;
      OPC_LDR; OPC_STC; OPC_B; OPC_BE; OPC_BR; OPC_BV; OPC_BB; OPC_CBR;
      OPC_MBR; OPC_ABR; OPC_MR; OPC_LPA; OPC_PRB; OPC_TLB; OPC_CA; OPC_MST;
      OPC_RFI; OPC_TRAP; OPC_DIAG;
      CTL_REG_SHAMT; CTL_REG_IPSR; CTL_REG_IINSTR; CTL_REG_IARG_0;
      CTL_REG_IARG_1; CTL_REG_IVA ]
  && distinctZ [ OPC_NOP; OPC_ADD; OPC_SUB; OPC_AND; OPC_OR; OPC_XOR;
                 OPC_CMP_A; OPC_CMP_B; OPC_BITOP; OPC_SHAOP; OPC_IMMOP;
                 OPC_LDO ]
  && distinctZ [ OPC_ADD; OPC_SUB; OPC_AND; OPC_OR; OPC_XOR; OPC_CMP_A;
                 OPC_CMP_B; OPC_LD; OPC_ST; OPC_LDR; OPC_STC ]
  && distinctZ [ OPC_B; OPC_BE; OPC_BR; OPC_BV; OPC_BB; OPC_CBR; OPC_MBR;
                 OPC_ABR ]
  && distinctZ [ OPC_MR; OPC_LPA; OPC_PRB; OPC_TLB; OPC_CA; OPC_MST;
                 OPC_RFI; OPC_TRAP; OPC_DIAG ]
  && distinctZ [ CTL_REG_SHAMT; CTL_REG_IPSR; CTL_REG_IINSTR;
                 CTL_REG_IARG_0; CTL_REG_IARG_1; CTL_REG_IVA ].

(** One assignment of the constants, used to run the model on concrete
    inputs.  The trap packet constructor follows the packet the design
    describes (trap kind, PSR snapshot at fault, instruction word, arg0,
    arg1): its third argument, the instruction word, goes to a member the
    CPU never reads back, its fourth is [arg0] and [arg1] defaults to 0. *)
Definition sampleCommon : T64Common := {|
  OPC_NOP := 0;  OPC_AND := 1;  OPC_OR := 2;  OPC_XOR := 3;  OPC_ADD := 4;
  OPC_SUB := 5;  OPC_CMP_A := 6;  OPC_CMP_B := 7;  OPC_BITOP := 8;
  OPC_SHAOP := 9;  OPC_IMMOP := 10;  OPC_LDO := 11;
  OPC_LD := 8;  OPC_ST := 9;  OPC_LDR := 10;  OPC_STC := 11;
  OPC_B := 0;  OPC_BE := 1;  OPC_BR := 2;  OPC_BV := 3;
  OPC_BB := 4;  OPC_ABR := 5;  OPC_CBR := 6;  OPC_MBR := 7;
  OPC_MR := 0;  OPC_LPA := 1;  OPC_PRB := 2;  OPC_TLB := 3;  OPC_CA := 4;
  OPC_MST := 5;  OPC_RFI := 6;  OPC_TRAP := 14;  OPC_DIAG := 15;
  CTL_REG_SHAMT := 2;  CTL_REG_IPSR := 10;  CTL_REG_IINSTR := 11;
  CTL_REG_IARG_0 := 12;  CTL_REG_IARG_1 := 13;  CTL_REG_IVA := 14;
  T64_MAX_PHYS_MEM_LIMIT := 4294967295;  T64_DEF_PHYS_MEM_LIMIT := 4294967295;
  newT64Trap := fun code psr _ a0 => mkT64Trap code psr a0 0
|}.

(* ------------------------------------------------------------------------- *)
(** ** T64-Cpu.cpp *)
(* ------------------------------------------------------------------------- *)

Module Cpu.

(** The TLBs and caches of the processor module are known to the CPU by
    their interface only.  [MemSys] is the state of the four objects behind
    [proc]; a read returns the content of the destination variable after
    the call ([dst] is its content before, [ofs] the byte offset the data
    goes to). *)
Inductive TlbSel : Type := iTlb | dTlb.
Inductive CacheSel : Type := iCache | dCache.

Record T64TlbEntry : Type := mkTlbEntry {
  pAdr : Z;  uncached : bool;  pageType : Z
}.

Class T64MemSys : Type := {
  MemSys : Type;
  tlbLookup  : TlbSel -> MemSys -> Z -> option T64TlbEntry;
  tlbInsert  : TlbSel -> MemSys -> Z -> Z -> MemSys;
  tlbPurge   : TlbSel -> MemSys -> Z -> MemSys;
  cacheRead  : CacheSel -> MemSys -> Z -> Z -> Z -> Z -> bool -> Z * MemSys;
  cacheWrite : CacheSel -> MemSys -> Z -> Z -> Z -> Z -> bool -> MemSys;
  cacheFlush : CacheSel -> MemSys -> Z -> MemSys;
  cachePurge : CacheSel -> MemSys -> Z -> MemSys
}.

(** A memory system with no translation and no data, to run the model. *)
Definition noMemSys : T64MemSys := {|
  MemSys := unit;
  tlbLookup := fun _ _ _ => None;
  tlbInsert := fun _ m _ _ => m;
  tlbPurge := fun _ m _ => m;
  cacheRead := fun _ m _ dst _ _ _ => (dst, m);
  cacheWrite := fun _ m _ _ _ _ _ => m;
  cacheFlush := fun _ m _ => m;
  cachePurge := fun _ m _ => m
|}.

(** *** C++ arrays: an access outside the array has no defined result. *)
Definition arrGet (a : list Z) (i : Z) : option Z :=
  if i <? 0 then None else nth_error a (Z.to_nat i).

Fixpoint listSet (a : list Z) (n : nat) (v : Z) : list Z :=
  match a, n with
  | [], _ => []
  | _ :: r, O => v :: r
  | x :: r, S n' => x :: listSet r n' v
  end.

Definition arrSet (a : list Z) (i v : Z) : option (list Z) :=
  if (0 <=? i) && (i <? Z.of_nat (List.length a))
  then Some (listSet a (Z.to_nat i) v)
  else None.

Section WithEnv.
Context {C : T64Common} {MS : T64MemSys}.

Record T64Cpu : Type := mkCpu {
  cRegFile : list Z;
  gRegFile : list Z;
  psrReg   : Z;
  instrReg : Z;
  resvReg  : Z;
  lowerPhysMemAdr : Z;
  upperPhysMemAdr : Z;
  proc : MemSys
}.

Definition set_cRegFile (s : T64Cpu) (v : list Z) : T64Cpu :=
  mkCpu v (gRegFile s) (psrReg s) (instrReg s) (resvReg s)
        (lowerPhysMemAdr s) (upperPhysMemAdr s) (proc s).
Definition set_gRegFile (s : T64Cpu) (v : list Z) : T64Cpu :=
  mkCpu (cRegFile s) v (psrReg s) (instrReg s) (resvReg s)
        (lowerPhysMemAdr s) (upperPhysMemAdr s) (proc s).
Definition set_psrReg (s : T64Cpu) (v : Z) : T64Cpu :=
  mkCpu (cRegFile s) (gRegFile s) v (instrReg s) (resvReg s)
        (lowerPhysMemAdr s) (upperPhysMemAdr s) (proc s).
Definition set_proc (s : T64Cpu) (v : MemSys) : T64Cpu :=
  mkCpu (cRegFile s) (gRegFile s) (psrReg s) (instrReg s) (resvReg s)
        (lowerPhysMemAdr s) (upperPhysMemAdr s) v.

(** *** The register access routines of the simulator.  [index] is an
    [int]; [%] truncates towards zero ([Z.rem]).  [None] is an access
    outside the register file. *)

Definition getGeneralReg (s : T64Cpu) (index : Z) : option Z :=
  if index =? 0 then Some 0
  else arrGet (gRegFile s) (Z.rem index T64_MAX_GREGS).

Definition setGeneralReg (s : T64Cpu) (index val : Z) : option T64Cpu :=
  if negb (index =? 0)
  then option_map (set_gRegFile s)
                  (arrSet (gRegFile s) (Z.rem index T64_MAX_GREGS) val)
  else Some s.

Definition getControlReg (s : T64Cpu) (index : Z) : option Z :=
  arrGet (cRegFile s) (Z.rem index T64_MAX_CREGS).

Definition setControlReg (s : T64Cpu) (index val : Z) : option T64Cpu :=
  option_map (set_cRegFile s)
             (arrSet (cRegFile s) (Z.rem index T64_MAX_CREGS) val).

Definition getPsrReg (s : T64Cpu) : Z := psrReg s.
Definition setPsrReg (s : T64Cpu) (val : Z) : T64Cpu := set_psrReg s val.

(** *** Instruction execution threads the CPU object and may throw a trap
    packet; the object keeps what was written before the throw. *)

Inductive Res (A : Type) : Type :=
| Done  (a : A) (s : T64Cpu)
| Throw (t : T64Trap) (s : T64Cpu)
| Undefined.
Arguments Done {A} a s.
Arguments Throw {A} t s.
Arguments Undefined {A}.

Definition M (A : Type) : Type := T64Cpu -> Res A.

Definition ret {A} (a : A) : M A := fun s => Done a s.
Definition bind {A B} (m : M A) (f : A -> M B) : M B :=
  fun s => match m s with
           | Done a s' => f a s'
           | Throw t s' => Throw t s'
           | Undefined => Undefined
           end.
Definition throw {A} (t : T64Trap) : M A := fun s => Throw t s.
Definition get : M T64Cpu := fun s => Done s s.
Definition put (s : T64Cpu) : M unit := fun _ => Done tt s.
Definition lift {A} (o : option A) : M A :=
  fun s => match o with Some a => Done a s | None => Undefined end.
Definition when (b : bool) (m : M unit) : M unit := if b then m else ret tt.

Notation "x <- m ;; k" := (bind m (fun x => k))
  (at level 61, m at next level, right associativity).
Notation "m ;; k" := (bind m (fun _ => k))
  (at level 61, right associativity).

Definition getGReg (index : Z) : M Z :=
  s <- get ;; lift (getGeneralReg s index).
Definition setGReg (index val : Z) : M unit :=
  s <- get ;; s' <- lift (setGeneralReg s index val) ;; put s'.
Definition getCReg (index : Z) : M Z :=
  s <- get ;; lift (arrGet (cRegFile s) index).
Definition setCReg (index val : Z) : M unit :=
  s <- get ;; a <- lift (arrSet (cRegFile s) index val) ;;
  put (set_cRegFile s a).
Definition getPsr : M Z := s <- get ;; ret (psrReg s).
Definition setPsr (v : Z) : M unit := s <- get ;; put (set_psrReg s v).

Definition getRegR (instr : Z) : M Z := getGReg (extractInstrRegR instr).
Definition getRegB (instr : Z) : M Z := getGReg (extractInstrRegB instr).
Definition getRegA (instr : Z) : M Z := getGReg (extractInstrRegA instr).
Definition setRegR (instr val : Z) : M unit :=
  setGReg (extractInstrRegR instr) val.

(** *** Trap code helpers *)

Definition dataTlbMissTrap {A} (adr : Z) : M A :=
  s <- get ;; throw (newT64Trap DATA_TLB_MISS_TRAP (psrReg s) (instrReg s) adr).
Definition instrTlbMissTrap {A} (adr : Z) : M A :=
  s <- get ;; throw (newT64Trap INSTR_TLB_MISS_TRAP (psrReg s) (instrReg s) adr).
Definition instrAlignmentTrap {A} (adr : Z) : M A :=
  s <- get ;; throw (newT64Trap INSTR_ALIGNMENT_TRAP (psrReg s) (instrReg s) adr).
Definition instrMemProtectionTrap {A} (adr : Z) : M A :=
  s <- get ;; throw (newT64Trap INSTR_PROTECTION_TRAP (psrReg s) 0 adr).
Definition dataAlignmentTrap {A} (adr : Z) : M A :=
  s <- get ;; throw (newT64Trap DATA_ALIGNMENT_TRAP (psrReg s) (instrReg s) adr).
Definition dataMemProtectionTrap {A} (adr : Z) : M A :=
  s <- get ;; throw (newT64Trap INSTR_PROTECTION_TRAP (psrReg s) (instrReg s) adr).
Definition privModeOperationTrap {A} : M A :=
  s <- get ;; throw (newT64Trap PRIV_OPERATION_TRAP (psrReg s) (instrReg s) 0).
Definition overFlowTrap {A} : M A :=
  s <- get ;; throw (newT64Trap OVERFLOW_TRAP (psrReg s) (instrReg s) 0).
Definition illegalInstrTrap {A} : M A :=
  s <- get ;; throw (newT64Trap ILLEGAL_INSTR_TRAP (psrReg s) (instrReg s) 0).

(** *** Check routines *)

Definition regionIdMatch (cr rId : Z) (wMode : bool) : bool :=
  ((extractField64 cr 0 20 =? rId) && (extractField64 cr 31 1 =? b2z wMode))
  || ((extractField64 cr 32 20 =? rId) && (extractField64 cr 63 1 =? b2z wMode)).

Definition regionIdCheck (rId : Z) (wMode : bool) : M bool :=
  let rId := to_u32 rId in
  psr <- getPsr ;;
  if negb (extractBit64 psr 0 =? 0) then
    c4 <- getCReg 4 ;;
    if regionIdMatch c4 rId wMode then ret true else
    c5 <- getCReg 5 ;;
    if regionIdMatch c5 rId wMode then ret true else
    c6 <- getCReg 6 ;;
    if regionIdMatch c6 rId wMode then ret true else
    c7 <- getCReg 7 ;;
    if regionIdMatch c7 rId wMode then ret true else
    ret false
  else ret false.

Definition privModeCheck : M unit :=
  psr <- getPsr ;;
  if negb (extractPsrXbit psr) then privModeOperationTrap else ret tt.

Definition instrAlignmentCheck (adr : Z) : M unit :=
  if negb (isAlignedDataAdr adr 4) then instrAlignmentTrap adr else ret tt.

Definition instrRegionIdCheck (adr : Z) : M unit :=
  ok <- regionIdCheck (vAdrRegionId adr) false ;;
  if negb ok then instrMemProtectionTrap adr else ret tt.

Definition dataAlignmentCheck (adr len : Z) : M unit :=
  if negb (isAlignedDataAdr adr len) then dataAlignmentTrap adr else ret tt.

Definition dataRegionIdCheck (adr : Z) (wMode : bool) : M unit :=
  ok <- regionIdCheck (vAdrRegionId adr) wMode ;;
  if negb ok then dataMemProtectionTrap adr else ret tt.

Definition addOverFlowCheck (val1 val2 : Z) : M unit :=
  if willAddOverflow val1 val2 then overFlowTrap else ret tt.

Definition subUnderFlowCheck (val1 val2 : Z) : M unit :=
  if willSubOverflow val1 val2 then overFlowTrap else ret tt.

Definition nextInstr : M unit :=
  psr <- getPsr ;; setPsr (addAdrOfs32 psr 4).

Definition isPhysMemAdr (vAdr : Z) : M bool :=
  s <- get ;; ret (isInRange vAdr (lowerPhysMemAdr s) (upperPhysMemAdr s)).

(** *** Condition evaluation for compare and conditional branch *)
Definition evalCond (cond val1 val2 : Z) : Z :=
  match cond with
  | 0 => if val1 =? val2 then 1 else 0
  | 1 => if val1 <? val2 then 1 else 0
  | 2 => if val1 >? val2 then 1 else 0
  | 3 => if Z.land val1 1 =? 0 then 1 else 0
  | 4 => if negb (val1 =? val2) then 1 else 0
  | 5 => if val1 <=? val2 then 1 else 0
  | 6 => if val1 >=? val2 then 1 else 0
  | 7 => if negb (Z.land val1 1 =? 1) then 1 else 0
  | _ => 0
  end.

Definition diagOpHandler (opt arg1 arg2 : Z) : Z := 0.

(** *** Memory access *)

Definition isInPhysMemAdrRange (adr : Z) : bool :=
  (adr >=? 0) && (adr <=? T64_MAX_PHYS_MEM_LIMIT).

Definition onProc {A} (f : MemSys -> A * MemSys) : M A :=
  s <- get ;; let '(a, m) := f (proc s) in put (set_proc s m) ;; ret a.

Definition lookupTlb (t : TlbSel) (vAdr : Z) : M (option T64TlbEntry) :=
  s <- get ;; ret (tlbLookup t (proc s) vAdr).

Definition instrRead (vAdr : Z) : M Z :=
  let instr := 0 in
  instrAlignmentCheck vAdr ;;
  if isInPhysMemAdrRange vAdr then
    privModeCheck ;;
    onProc (fun m => cacheRead iCache m vAdr instr 0 4 false)
  else
    tlbPtr <- lookupTlb iTlb vAdr ;;
    match tlbPtr with
    | None => instrTlbMissTrap vAdr
    | Some e =>
        instrRegionIdCheck vAdr ;;
        onProc (fun m => cacheRead iCache m (pAdr e) instr 0 4 (uncached e))
    end.

Definition dataRead (vAdr len : Z) (sExt : bool) : M Z :=
  let data := 0 in
  let wordOfs := 8 - len in
  dataAlignmentCheck vAdr len ;;
  phys <- isPhysMemAdr vAdr ;;
  data <-
    (if phys then
       privModeCheck ;;
       onProc (fun m => cacheRead dCache m vAdr data wordOfs len false)
     else
       tlbPtr <- lookupTlb dTlb vAdr ;;
       match tlbPtr with
       | None => dataTlbMissTrap vAdr
       | Some e =>
           dataRegionIdCheck vAdr false ;;
           onProc (fun m =>
                     cacheRead iCache m (pAdr e) data wordOfs len (uncached e))
       end) ;;
  if sExt then
    match len with
    | 1 => ret (extractSignedField64 data 7 8)
    | 2 => ret (extractSignedField64 data 15 16)
    | 4 => ret (extractSignedField64 data 31 32)
    | _ => ret data
    end
  else ret data.

Definition dataWrite (vAdr data len : Z) : M unit :=
  let wordOfs := 8 - len in
  dataAlignmentCheck vAdr len ;;
  phys <- isPhysMemAdr vAdr ;;
  if phys then
    privModeCheck ;;
    onProc (fun m => (tt, cacheWrite dCache m vAdr data wordOfs len false))
  else
    tlbPtr <- lookupTlb dTlb vAdr ;;
    match tlbPtr with
    | None => dataTlbMissTrap vAdr
    | Some e =>
        dataRegionIdCheck vAdr true ;;
        onProc (fun m =>
                  (tt, cacheWrite dCache m (pAdr e) data wordOfs len (uncached e)))
    end.

Definition dataReadRegBOfsImm13 (instr : Z) : M Z :=
  adr <- getRegB instr ;;
  let dw := extractInstrDwField instr in
  let ofs := extractInstrSignedScaledImm13 instr in
  let len := to_i32 (Z.shiftl 1 dw) in
  dataRead (addAdrOfs32 adr ofs) len true.

Definition dataReadRegBOfsRegX (instr : Z) : M Z :=
  adr <- getRegB instr ;;
  let dw := extractInstrDwField instr in
  a <- getRegA instr ;;
  let ofs := to_i64 (Z.shiftl a dw) in
  let len := to_i32 (Z.shiftl 1 dw) in
  dataRead (addAdrOfs32 adr ofs) len true.

Definition dataWriteRegBOfsImm13 (instr : Z) : M unit :=
  adr <- getRegB instr ;;
  let dw := extractInstrDwField instr in
  let ofs := extractInstrSignedScaledImm13 instr in
  let len := to_i32 (Z.shiftl 1 dw) in
  val <- getRegR instr ;;
  dataWrite (addAdrOfs32 adr ofs) val len.

Definition dataWriteRegBOfsRegX (instr : Z) : M unit :=
  adr <- getRegB instr ;;
  let dw := extractInstrDwField instr in
  a <- getRegA instr ;;
  let ofs := to_i64 (Z.shiftl a dw) in
  let len := to_i32 (Z.shiftl 1 dw) in
  val <- getRegR instr ;;
  dataWrite (addAdrOfs32 adr ofs) val len.

(** *** The ALU and MEM group handlers *)

Definition instrAluAddOp (instr : Z) : M unit :=
  val1 <- getRegB instr ;;
  val2 <- match extractInstrFieldU instr 19 3 with
          | 0 => getRegA instr
          | 1 => ret (extractInstrSignedImm15 instr)
          | _ => illegalInstrTrap
          end ;;
  addOverFlowCheck val1 val2 ;;
  setRegR instr (to_i64 (val1 + val2)) ;;
  nextInstr.

Definition instrMemAddOp (instr : Z) : M unit :=
  val1 <- getRegR instr ;;
  val2 <- match extractInstrFieldU instr 19 3 with
          | 0 => getRegA instr
          | 1 => dataReadRegBOfsImm13 instr
          | _ => illegalInstrTrap
          end ;;
  addOverFlowCheck val1 val2 ;;
  setRegR instr (to_i64 (val1 + val2)) ;;
  nextInstr.

Definition instrAluSubOp (instr : Z) : M unit :=
  val1 <- getRegR instr ;;
  val2 <- match extractInstrFieldU instr 19 3 with
          | 0 => getRegA instr
          | 1 => ret (extractInstrSignedImm15 instr)
          | _ => illegalInstrTrap
          end ;;
  subUnderFlowCheck val1 val2 ;;
  setRegR instr (to_i64 (val1 - val2)) ;;
  nextInstr.

Definition instrMemSubOp (instr : Z) : M unit :=
  val1 <- getRegR instr ;;
  val2 <- match extractInstrFieldU instr 19 3 with
          | 0 => getRegA instr
          | 1 => ret (extractInstrSignedScaledImm13 instr)
          | _ => illegalInstrTrap
          end ;;
  subUnderFlowCheck val1 val2 ;;
  setRegR instr (to_i64 (val1 - val2)) ;;
  nextInstr.

(** The common tail of AND, OR and XOR: optional complement of the
    result (bit 21), write back, advance. *)
Definition logicTail (instr rreg res : Z) : M unit :=
  let res := if z2b (extractInstrBit instr 21) then Z.lnot res else res in
  setRegR rreg res ;;
  nextInstr.

Definition instrAluAndOp (instr : Z) : M unit :=
  val1 <- getRegB instr ;;
  val2 <- (if z2b (extractInstrBit instr 19) then getRegA instr
           else ret (extractInstrSignedImm15 instr)) ;;
  let val1 := if z2b (extractInstrBit instr 20) then Z.lnot val1 else val1 in
  logicTail instr instr (Z.land val1 val2).

Definition instrMemAndOp (instr : Z) : M unit :=
  val1 <- getRegB instr ;;
  val2 <- (if z2b (extractInstrBit instr 19) then dataReadRegBOfsImm13 instr
           else dataReadRegBOfsRegX instr) ;;
  let val1 := if z2b (extractInstrBit instr 20) then Z.lnot val1 else val1 in
  logicTail instr instr (Z.land val1 val2).

Definition instrAluOrOp (instr : Z) : M unit :=
  val1 <- getRegB instr ;;
  val2 <- (if z2b (extractInstrBit instr 19) then getRegA instr
           else ret (extractInstrSignedImm15 instr)) ;;
  let val1 := if z2b (extractInstrBit instr 20) then Z.lnot val1 else val1 in
  logicTail instr instr (Z.lor val1 val2).

(** MEM:OR writes the register named by [instrReg], not by [instr]. *)
Definition instrMemOrOp (instr : Z) : M unit :=
  val1 <- getRegB instr ;;
  val2 <- (if z2b (extractInstrBit instr 19) then dataReadRegBOfsImm13 instr
           else dataReadRegBOfsRegX instr) ;;
  let val1 := if z2b (extractInstrBit instr 20) then Z.lnot val1 else val1 in
  s <- get ;;
  logicTail instr (instrReg s) (Z.lor val1 val2).

Definition instrAluXorOp (instr : Z) : M unit :=
  val1 <- getRegB instr ;;
  val2 <- (if z2b (extractInstrBit instr 19) then getRegA instr
           else ret (extractInstrSignedImm15 instr)) ;;
  when (z2b (extractInstrBit instr 20)) illegalInstrTrap ;;
  logicTail instr instr (Z.lxor val1 val2).

Definition instrMemXorOp (instr : Z) : M unit :=
  val1 <- getRegB instr ;;
  val2 <- (if z2b (extractInstrBit instr 19) then dataReadRegBOfsImm13 instr
           else dataReadRegBOfsRegX instr) ;;
  when (z2b (extractInstrBit instr 20)) illegalInstrTrap ;;
  logicTail instr instr (Z.lxor val1 val2).

Definition instrAluCmpOp (instr : Z) : M unit :=
  val1 <- getRegB instr ;;
  let opCode := extractInstrOpCode instr in
  val2 <- (if opCode =? OPC_CMP_A then getRegA instr
           else if opCode =? OPC_CMP_B then ret (extractInstrSignedImm15 instr)
           else illegalInstrTrap) ;;
  setRegR instr (evalCond (extractInstrFieldU instr 19 3) val1 val2) ;;
  nextInstr.

(** MEM:CMP reads RegB through [instrReg]. *)
Definition instrMemCmpOp (instr : Z) : M unit :=
  s <- get ;;
  val1 <- getRegB (instrReg s) ;;
  let opCode := extractInstrOpCode instr in
  val2 <- (if opCode =? OPC_CMP_A then dataReadRegBOfsImm13 instr
           else if opCode =? OPC_CMP_B then dataReadRegBOfsRegX instr
           else illegalInstrTrap) ;;
  setRegR instr (evalCond (extractInstrFieldU instr 19 3) val1 val2) ;;
  nextInstr.

Definition shamtOrField (instr bit pos len : Z) : M Z :=
  if z2b (extractInstrBit instr bit)
  then c <- getCReg CTL_REG_SHAMT ;; ret (Z.land (to_i32 c) 63)
  else ret (extractInstrFieldU instr pos len).

Definition instrAluBitOp (instr : Z) : M unit :=
  match extractInstrFieldU instr 19 3 with
  | 0 =>
      val <- getRegB instr ;;
      let len := extractInstrFieldU instr 0 6 in
      pos <- shamtOrField instr 13 6 6 ;;
      let res := if z2b (extractInstrBit instr 12)
                 then extractSignedField64 val pos len
                 else extractField64 val pos len in
      setRegR instr res
  | 1 =>
      let len := extractInstrFieldU instr 0 6 in
      pos <- shamtOrField instr 13 6 6 ;;
      val1 <- (if negb (z2b (extractInstrBit instr 12)) then getRegR instr
               else ret 0) ;;
      val2 <- (if z2b (extractInstrBit instr 14)
               then ret (extractInstrFieldU instr 15 4)
               else getRegB instr) ;;
      setRegR instr (depositField val1 pos len val2)
  | 3 =>
      val1 <- getRegB instr ;;
      val2 <- getRegA instr ;;
      shamt <- shamtOrField instr 13 0 6 ;;
      setRegR instr (shiftRight128 val1 val2 shamt)
  | _ => illegalInstrTrap
  end ;;
  nextInstr.

(** ALU:SHAOP writes the register named by [instrReg]. *)
Definition instrAluShaOP (instr : Z) : M unit :=
  val1 <- getRegB instr ;;
  let shamt := extractInstrFieldU instr 13 2 in
  let opt := extractInstrFieldU instr 19 3 in
  val2 <- match opt with
          | 0 | 2 => getRegA instr
          | 1 | 3 => ret (extractInstrSignedImm13 instr)
          | _ => illegalInstrTrap
          end ;;
  res <- (if (opt =? 0) || (opt =? 1) then
            when (willShiftLeftOverflow val1 shamt) overFlowTrap ;;
            ret (to_i64 (Z.shiftl val1 shamt))
          else if (opt =? 2) || (opt =? 3) then
            ret (Z.shiftr val1 shamt)
          else ret 0) ;;
  addOverFlowCheck res val2 ;;
  s <- get ;;
  setRegR (instrReg s) (to_i64 (res + val2)) ;;
  nextInstr.

(** ALU:IMMOP.  In the cases 2 and 3 the value [depositField] returns is
    not assigned to anything: [res] keeps the content of RegR. *)
Definition instrAluImmOp (instr : Z) : M unit :=
  let val := extractInstrImm20 instr in
  res <- getRegR instr ;;
  let res :=
    match extractInstrFieldU instr 20 2 with
    | 0 => addAdrOfs32 res val
    | 1 => to_i64 (Z.shiftl val 12)
    | 2 => let _ := depositField res 32 20 val in res
    | 3 => let _ := depositField res 52 12 val in res
    | _ => res
    end in
  setRegR instr res ;;
  nextInstr.

Definition instrAluLdoOp (instr : Z) : M unit :=
  base <- getRegB instr ;;
  let ofs := extractInstrSignedScaledImm13 instr in
  setRegR instr (addAdrOfs32 base ofs) ;;
  nextInstr.

Definition instrMemLdOp (instr : Z) : M unit :=
  let opt := extractInstrFieldU instr 19 3 in
  (if opt =? 0 then v <- dataReadRegBOfsImm13 instr ;; setRegR instr v
   else if opt =? 1 then v <- dataReadRegBOfsRegX instr ;; setRegR instr v
   else illegalInstrTrap) ;;
  nextInstr.

Definition instrMemLdrOp (instr : Z) : M unit :=
  when (negb (extractInstrFieldU instr 19 3 =? 0)) illegalInstrTrap ;;
  v <- dataReadRegBOfsImm13 instr ;;
  setRegR instr v ;;
  nextInstr.

Definition instrMemStOp (instr : Z) : M unit :=
  let opt := extractInstrFieldU instr 19 3 in
  (if opt =? 0 then dataWriteRegBOfsImm13 instr
   else if opt =? 1 then dataWriteRegBOfsRegX instr
   else illegalInstrTrap) ;;
  nextInstr.

Definition instrMemStcOp (instr : Z) : M unit :=
  when (negb (extractInstrFieldU instr 19 3 =? 0)) illegalInstrTrap ;;
  dataWriteRegBOfsImm13 instr ;;
  nextInstr.

(** *** The BR group handlers *)

Definition instrBrBOp (instr : Z) : M unit :=
  let ofs := to_i32 (Z.shiftl (extractInstrSignedImm19 instr) 2) in
  psr <- getPsr ;;
  let rl := addAdrOfs32 psr 4 in
  let newIA := addAdrOfs32 psr ofs in
  setPsr newIA ;;
  setRegR instr rl.

Definition instrBrBeOp (instr : Z) : M unit :=
  newIABase <- getRegB instr ;;
  let ofs := to_i32 (Z.shiftl (extractInstrSignedImm19 instr) 2) in
  let newIA := addAdrOfs32 newIABase ofs in
  psr <- getPsr ;;
  let rl := addAdrOfs32 psr 4 in
  when (negb (extractInstrFieldU instr 19 3 =? 0)) illegalInstrTrap ;;
  setPsr newIA ;;
  setRegR instr rl.

Definition instrBrBrOp (instr : Z) : M unit :=
  psr <- getPsr ;;
  b <- getRegB instr ;;
  let newIA := addAdrOfs32 psr b in
  let rl := addAdrOfs32 psr 4 in
  when (negb (extractInstrFieldU instr 19 3 =? 0)) illegalInstrTrap ;;
  instrAlignmentCheck newIA ;;
  setPsr newIA ;;
  setRegR instr rl.

Definition instrBrBvOp (instr : Z) : M unit :=
  base <- getRegB instr ;;
  ofs <- getRegA instr ;;
  psr <- getPsr ;;
  let rl := addAdrOfs32 psr 4 in
  let newIA := addAdrOfs32 base ofs in
  when (negb (extractInstrFieldU instr 19 3 =? 0)) illegalInstrTrap ;;
  instrAlignmentCheck newIA ;;
  setPsr newIA ;;
  setRegR instr rl.

(** BR:BB tests a bit of the instruction word itself. *)
Definition instrBrBbOp (instr : Z) : M unit :=
  let testVal := z2b (extractInstrBit instr 19) in
  when (z2b (extractInstrBit instr 21)) illegalInstrTrap ;;
  pos <- (if z2b (extractInstrBit instr 20)
          then c <- getCReg CTL_REG_SHAMT ;; ret (to_i32 (Z.land c 63))
          else ret (extractInstrFieldU instr 13 6)) ;;
  let testBit := z2b (extractInstrBit instr pos) in
  if xorb testVal testBit then
    psr <- getPsr ;;
    setPsr (addAdrOfs32 psr (to_i32 (Z.shiftl (extractInstrSignedImm13 instr) 2)))
  else nextInstr.

Definition condBranch (instr val1 val2 : Z) : M unit :=
  if z2b (evalCond (extractInstrFieldU instr 19 3) val1 val2) then
    psr <- getPsr ;;
    setPsr (addAdrOfs32 psr (extractInstrSignedImm15 instr))
  else nextInstr.

Definition instrBrAbrOp (instr : Z) : M unit :=
  val1 <- getRegR instr ;;
  val2 <- getRegB instr ;;
  addOverFlowCheck val1 val2 ;;
  let sum := to_i64 (val1 + val2) in
  setRegR instr sum ;;
  condBranch instr sum 0.

Definition instrBrCbrOp (instr : Z) : M unit :=
  val1 <- getRegR instr ;;
  val2 <- getRegB instr ;;
  condBranch instr val1 val2.

Definition instrBrMbrOp (instr : Z) : M unit :=
  val <- getRegB instr ;;
  setRegR instr val ;;
  condBranch instr val 0.

(** *** The SYS group handlers *)

Definition instrSysMrOp (instr : Z) : M unit :=
  match extractInstrFieldU instr 19 3 with
  | 0 => let cReg := extractInstrFieldU instr 0 4 in
         v <- getCReg cReg ;; setRegR instr v
  | 1 => let cReg := extractInstrFieldU instr 0 4 in
         v <- getRegR instr ;; setCReg cReg v
  | 4 => psr <- getPsr ;; setRegR instr psr
  | 5 => psr <- getPsr ;; setRegR instr (extractField64 psr 12 20)
  | 6 => psr <- getPsr ;; setRegR instr (extractField64 psr 32 20)
  | 7 => psr <- getPsr ;; setRegR instr (extractField64 psr 52 12)
  | _ => illegalInstrTrap
  end ;;
  nextInstr.

Definition instrSysLpaOp (instr : Z) : M unit :=
  privModeCheck ;;
  base <- getRegB instr ;;
  ofs <- getRegA instr ;;
  let vAdr := addAdrOfs32 base ofs in
  when (negb (extractInstrFieldU instr 19 3 =? 0)) illegalInstrTrap ;;
  e <- lookupTlb dTlb vAdr ;;
  match e with
  | None => setRegR instr 0
  | Some e => setRegR instr (pAdr e)
  end ;;
  nextInstr.

(** SYS:PRB reads the entry without a null test: on a miss at privilege
    level 1 the behaviour is not defined. *)
Definition instrSysPrbOp (instr : Z) : M unit :=
  vAdr <- getRegB instr ;;
  let mode := extractInstrFieldU instr 13 2 in
  psr <- getPsr ;;
  let privLevel := to_i32 (extractBit64 psr 62) in
  mode <- (if mode =? 3
           then a <- getRegA instr ;; ret (to_i32 (extractField64 a 0 2))
           else ret mode) ;;
  e <- lookupTlb dTlb vAdr ;;
  (if privLevel =? 1 then
     e <- lift e ;;
     setRegR instr (if pageType e =? mode then 1 else 0)
   else setRegR instr 1) ;;
  nextInstr.

Definition instrSysTlbOp (instr : Z) : M unit :=
  let opt := extractInstrFieldU instr 19 3 in
  b <- getRegB instr ;;
  a <- getRegA instr ;;
  match opt with
  | 0 => onProc (fun m => (tt, tlbInsert iTlb m b a)) ;; setRegR instr 1
  | 1 => onProc (fun m => (tt, tlbInsert dTlb m b a)) ;; setRegR instr 1
  | 2 => onProc (fun m => (tt, tlbPurge iTlb m (addAdrOfs32 b a))) ;;
         setRegR instr 1
  | 3 => onProc (fun m => (tt, tlbPurge dTlb m (addAdrOfs32 b a))) ;;
         setRegR instr 1
  | _ => illegalInstrTrap
  end ;;
  nextInstr.

Definition instrSysCaOp (instr : Z) : M unit :=
  let opt := extractInstrFieldU instr 19 3 in
  b <- getRegB instr ;;
  a <- getRegA instr ;;
  let vAdr := addAdrOfs32 b a in
  match opt with
  | 0 => onProc (fun m => (tt, cacheFlush iCache m vAdr)) ;; setRegR instr 1
  | 1 => onProc (fun m => (tt, cacheFlush dCache m vAdr)) ;; setRegR instr 1
  | 2 => onProc (fun m => (tt, cachePurge iCache m vAdr)) ;; setRegR instr 1
  | 3 => onProc (fun m => (tt, cachePurge dCache m vAdr)) ;; setRegR instr 1
  | _ => illegalInstrTrap
  end ;;
  nextInstr.

Definition instrSysMstOp (instr : Z) : M unit :=
  let opt := extractInstrFieldU instr 19 3 in
  (if opt =? 0 then ret tt
   else if opt =? 1 then ret tt
   else illegalInstrTrap) ;;
  nextInstr.

Definition instrSysRfiOp (instr : Z) : M unit :=
  when (negb (extractInstrFieldU instr 19 3 =? 0)) illegalInstrTrap ;;
  psr <- getPsr ;;
  setRegR instr (addAdrOfs32 psr 4) ;;
  ipsr <- getCReg CTL_REG_IPSR ;;
  setPsr ipsr.

Definition instrSysDiagOp (instr : Z) : M unit :=
  let diagOpt := extractInstrFieldU instr 19 3 * 4
                 + extractInstrFieldU instr 13 2 in
  b <- getRegB instr ;;
  a <- getRegA instr ;;
  setRegR instr (diagOpHandler diagOpt b a) ;;
  nextInstr.

Definition instrSysTrapOp (instr : Z) : M unit :=
  nextInstr.

(** *** Execute an instruction.  The [switch] selects a handler; its case
    labels are tried in the order of the source (they are pairwise
    different, so the order does not matter). *)

Inductive Handler : Type :=
| AluAddOp | MemAddOp | AluSubOp | MemSubOp | AluAndOp | MemAndOp
| AluOrOp | MemOrOp | AluXorOp | MemXorOp | AluCmpOp | MemCmpOp
| AluBitOp | AluShaOP | AluImmOp | AluLdoOp
| MemLdOp | MemLdrOp | MemStOp | MemStcOp
| BrBOp | BrBeOp | BrBrOp | BrBbOp | BrAbrOp | BrCbrOp | BrMbrOp
| SysMrOp | SysLpaOp | SysPrbOp | SysTlbOp | SysCaOp | SysMstOp
| SysRfiOp | SysDiagOp | SysTrapOp
| IllegalInstr.

(** The [case] labels of [instrExecute], in source order. *)
Definition caseLabels : list (Z * Handler) :=
  [ (OPC_GRP_ALU * 16 + OPC_ADD,   AluAddOp);
    (OPC_GRP_MEM * 16 + OPC_ADD,   MemAddOp);
    (OPC_GRP_ALU * 16 + OPC_SUB,   AluSubOp);
    (OPC_GRP_MEM * 16 + OPC_SUB,   MemSubOp);
    (OPC_GRP_ALU * 16 + OPC_AND,   AluAndOp);
    (OPC_GRP_MEM * 16 + OPC_AND,   MemAndOp);
    (OPC_GRP_ALU * 16 + OPC_OR,    AluOrOp);
    (OPC_GRP_MEM * 16 + OPC_OR,    MemOrOp);
    (OPC_GRP_ALU * 16 + OPC_XOR,   AluXorOp);
    (OPC_GRP_MEM * 16 + OPC_XOR,   MemXorOp);
    (OPC_GRP_ALU * 16 + OPC_CMP_A, AluCmpOp);
    (OPC_GRP_ALU * 16 + OPC_CMP_B, AluCmpOp);
    (OPC_GRP_MEM * 16 + OPC_CMP_A, MemCmpOp);
    (OPC_GRP_MEM * 16 + OPC_CMP_B, MemCmpOp);
    (OPC_GRP_ALU * 16 + OPC_BITOP, AluBitOp);
    (OPC_GRP_ALU * 16 + OPC_SHAOP, AluShaOP);
    (OPC_GRP_ALU * 16 + OPC_IMMOP, AluImmOp);
    (OPC_GRP_ALU * 16 + OPC_LDO,   AluLdoOp);
    (OPC_GRP_MEM * 16 + OPC_LD,    MemLdOp);
    (OPC_GRP_MEM * 16 + OPC_LDR,   MemLdrOp);
    (OPC_GRP_MEM * 16 + OPC_ST,    MemStOp);
    (OPC_GRP_MEM * 16 + OPC_STC,   MemStcOp);
    (OPC_GRP_BR * 16 + OPC_B,      BrBOp);
    (OPC_GRP_BR * 16 + OPC_BE,     BrBeOp);
    (OPC_GRP_BR * 16 + OPC_BR,     BrBrOp);
    (OPC_GRP_BR * 16 + OPC_BB,     BrBbOp);
    (OPC_GRP_BR * 16 + OPC_ABR,    BrAbrOp);
    (OPC_GRP_BR * 16 + OPC_CBR,    BrCbrOp);
    (OPC_GRP_BR * 16 + OPC_MBR,    BrMbrOp);
    (OPC_GRP_SYS * 16 + OPC_MR,    SysMrOp);
    (OPC_GRP_SYS * 16 + OPC_LPA,   SysLpaOp);
    (OPC_GRP_SYS * 16 + OPC_PRB,   SysPrbOp);
    (OPC_GRP_SYS * 16 + OPC_TLB,   SysTlbOp);
    (OPC_GRP_SYS * 16 + OPC_CA,    SysCaOp);
    (OPC_GRP_SYS * 16 + OPC_MST,   SysMstOp);
    (OPC_GRP_SYS * 16 + OPC_RFI,   SysRfiOp);
    (OPC_GRP_SYS * 16 + OPC_DIAG,  SysDiagOp);
    (OPC_GRP_SYS * 16 + OPC_TRAP,  SysTrapOp) ].

Fixpoint switchOn (key : Z) (cases : list (Z * Handler)) : Handler :=
  match cases with
  | [] => IllegalInstr
  | (label, h) :: rest => if key =? label then h else switchOn key rest
  end.

(** The handler [instrExecute] selects: the switch is over
    [extractInstrOpCode( instr )]. *)
Definition selectHandler (instr : Z) : Handler :=
  switchOn (extractInstrOpCode instr) caseLabels.

Definition runHandler (h : Handler) (instr : Z) : M unit :=
  match h with
  | AluAddOp => instrAluAddOp instr | MemAddOp => instrMemAddOp instr
  | AluSubOp => instrAluSubOp instr | MemSubOp => instrMemSubOp instr
  | AluAndOp => instrAluAndOp instr | MemAndOp => instrMemAndOp instr
  | AluOrOp => instrAluOrOp instr   | MemOrOp => instrMemOrOp instr
  | AluXorOp => instrAluXorOp instr | MemXorOp => instrMemXorOp instr
  | AluCmpOp => instrAluCmpOp instr | MemCmpOp => instrMemCmpOp instr
  | AluBitOp => instrAluBitOp instr | AluShaOP => instrAluShaOP instr
  | AluImmOp => instrAluImmOp instr | AluLdoOp => instrAluLdoOp instr
  | MemLdOp => instrMemLdOp instr   | MemLdrOp => instrMemLdrOp instr
  | MemStOp => instrMemStOp instr   | MemStcOp => instrMemStcOp instr
  | BrBOp => instrBrBOp instr       | BrBeOp => instrBrBeOp instr
  | BrBrOp => instrBrBrOp instr     | BrBbOp => instrBrBbOp instr
  | BrAbrOp => instrBrAbrOp instr   | BrCbrOp => instrBrCbrOp instr
  | BrMbrOp => instrBrMbrOp instr
  | SysMrOp => instrSysMrOp instr   | SysLpaOp => instrSysLpaOp instr
  | SysPrbOp => instrSysPrbOp instr | SysTlbOp => instrSysTlbOp instr
  | SysCaOp => instrSysCaOp instr   | SysMstOp => instrSysMstOp instr
  | SysRfiOp => instrSysRfiOp instr | SysDiagOp => instrSysDiagOp instr
  | SysTrapOp => instrSysTrapOp instr
  | IllegalInstr => illegalInstrTrap
  end.

(** The body of the [try] block. *)
Definition instrExecuteBody (instr : Z) : M unit :=
  runHandler (selectHandler instr) instr.

(** The [catch] block: what is done with a caught trap packet. *)
Definition trapDelivery (t : T64Trap) : M unit :=
  setCReg CTL_REG_IPSR   (instrAdr t) ;;
  setCReg CTL_REG_IINSTR (arg0 t) ;;
  setCReg CTL_REG_IARG_0 (arg0 t) ;;
  setCReg CTL_REG_IARG_1 (arg1 t).

Definition try_catch (body : M unit) (handler : T64Trap -> M unit) : M unit :=
  fun s => match body s with
           | Throw t s' => handler t s'
           | r => r
           end.

Definition instrExecute (instr : Z) : M unit :=
  try_catch (instrExecuteBody instr) trapDelivery.


End WithEnv.

Arguments Done {MS A} a s.
Arguments Throw {MS A} t s.
Arguments Undefined {MS A}.

End Cpu.

(* ------------------------------------------------------------------------- *)
(** ** T64-InlineAsm.cpp *)
(* ------------------------------------------------------------------------- *)

Module Asm.

Local Open Scope string_scope.
Local Open Scope Z_scope.

Definition MAX_INPUT_LINE_SIZE : Z := 256.
Definition MAX_TOKEN_NAME_SIZE : Z := 32.
Definition EOS_CHAR : ascii := Ascii.zero.

(** *** Assembler error codes ([enum ErrId : int]) *)
Definition NO_ERR : Z := 0.
Definition ERR_EXTRA_TOKEN_IN_STR : Z := 10.
Definition ERR_INVALID_CHAR_IN_IDENT : Z := 11.
Definition ERR_INVALID_EXPR : Z := 12.
Definition ERR_INVALID_NUM : Z := 13.
Definition ERR_INVALID_OP_CODE : Z := 14.
Definition ERR_INVALID_INSTR_MODE : Z := 15.
Definition ERR_INVALID_OFS : Z := 16.
Definition ERR_INVALID_INSTR_OPT : Z := 17.
Definition ERR_EXPECTED_CLOSING_QUOTE : Z := 20.
Definition ERR_EXPECTED_NUMERIC : Z := 21.
Definition ERR_EXPECTED_COMMA : Z := 22.
Definition ERR_EXPECTED_LPAREN : Z := 23.
Definition ERR_EXPECTED_RPAREN : Z := 24.
Definition ERR_EXPECTED_STR : Z := 25.
Definition ERR_EXPECTED_OPCODE : Z := 26.
Definition ERR_EXPECTED_INSTR_OPT : Z := 27.
Definition ERR_EXPECTED_DIAG_OP : Z := 28.
Definition ERR_EXPECTED_GENERAL_REG : Z := 29.
Definition ERR_EXPECTED_POS_ARG : Z := 30.
Definition ERR_EXPECTED_LEN_ARG : Z := 31.
Definition ERR_BIT_RANGE_EXCEEDS : Z := 32.
Definition ERR_EXPECTED_BR_OFS : Z := 33.
Definition ERR_EXPECTED_CONTROL_REG : Z := 34.
Definition ERR_EXPECTED_PRB_ARG : Z := 35.
Definition ERR_UNEXPECTED_EOS : Z := 36.
Definition ERR_EXPR_TYPE_MATCH : Z := 40.
Definition ERR_NUMERIC_OVERFLOW : Z := 41.
Definition ERR_IMM_VAL_RANGE : Z := 42.
Definition ERR_DUPLICATE_INSTR_OPT : Z := 43.

(** *** Token types and token identifiers *)
Inductive TokTypeId : Type :=
| TYP_NIL | TYP_SYM | TYP_IDENT | TYP_PREDEFINED_FUNC | TYP_NUM | TYP_STR
| TYP_OP_CODE | TYP_GREG | TYP_CREG.

Definition typEqb (a b : TokTypeId) : bool :=
  match a, b with
  | TYP_NIL, TYP_NIL | TYP_SYM, TYP_SYM | TYP_IDENT, TYP_IDENT
  | TYP_PREDEFINED_FUNC, TYP_PREDEFINED_FUNC | TYP_NUM, TYP_NUM
  | TYP_STR, TYP_STR | TYP_OP_CODE, TYP_OP_CODE | TYP_GREG, TYP_GREG
  | TYP_CREG, TYP_CREG => true
  | _, _ => false
  end.

Definition TOK_NIL : Z := 0.
Definition TOK_ERR : Z := 1.
Definition TOK_EOS : Z := 2.
Definition TOK_COMMA : Z := 3.
Definition TOK_PERIOD : Z := 4.
Definition TOK_LPAREN : Z := 5.
Definition TOK_RPAREN : Z := 6.
Definition TOK_PLUS : Z := 8.
Definition TOK_MINUS : Z := 9.
Definition TOK_MULT : Z := 10.
Definition TOK_DIV : Z := 11.
Definition TOK_MOD : Z := 12.
Definition TOK_REM : Z := 13.
Definition TOK_NEG : Z := 14.
Definition TOK_AND : Z := 15.
Definition TOK_OR : Z := 16.
Definition TOK_XOR : Z := 17.
Definition TOK_IDENT : Z := 24.
Definition TOK_NUM : Z := 25.
Definition TOK_STR : Z := 26.

(** [TOK_GR_0 = 101 .. TOK_GR_15 = 116], [TOK_CR_0 = 121 .. TOK_CR_13 =
    134], [TOK_CR_14 = 136], [TOK_CR_15 = 137]. *)
Definition TOK_GR (n : Z) : Z := 101 + n.
Definition TOK_CR (n : Z) : Z := if n <? 14 then 121 + n else 122 + n.

Definition TOK_OP_NOP : Z := 300.
Definition TOK_OP_AND : Z := 301.
Definition TOK_OP_OR : Z := 302.
Definition TOK_OP_XOR : Z := 303.
Definition TOK_OP_ADD : Z := 304.
Definition TOK_OP_SUB : Z := 305.
Definition TOK_OP_CMP : Z := 306.
Definition TOK_OP_EXTR : Z := 311.
Definition TOK_OP_DEP : Z := 312.
Definition TOK_OP_DSR : Z := 313.
Definition TOK_OP_SHL1A : Z := 314.
Definition TOK_OP_SHL2A : Z := 315.
Definition TOK_OP_SHL3A : Z := 316.
Definition TOK_OP_SHR1A : Z := 317.
Definition TOK_OP_SHR2A : Z := 318.
Definition TOK_OP_SHR3A : Z := 319.
Definition TOK_OP_LDIL : Z := 331.
Definition TOK_OP_ADDIL : Z := 332.
Definition TOK_OP_LDO : Z := 333.
Definition TOK_OP_LD : Z := 334.
Definition TOK_OP_LDR : Z := 335.
Definition TOK_OP_ST : Z := 337.
Definition TOK_OP_STC : Z := 338.
Definition TOK_OP_B : Z := 341.
Definition TOK_OP_BR : Z := 342.
Definition TOK_OP_BV : Z := 343.
Definition TOK_OP_BE : Z := 344.
Definition TOK_OP_BB : Z := 345.
Definition TOK_OP_CBR : Z := 346.
Definition TOK_OP_MBR : Z := 347.
Definition TOK_OP_ABR : Z := 348.
Definition TOK_OP_MFCR : Z := 351.
Definition TOK_OP_MTCR : Z := 352.
Definition TOK_OP_MFIA : Z := 353.
Definition TOK_OP_RSM : Z := 354.
Definition TOK_OP_SSM : Z := 355.
Definition TOK_OP_LPA : Z := 356.
Definition TOK_OP_PRB : Z := 357.
Definition TOK_OP_IITLB : Z := 361.
Definition TOK_OP_IDTLB : Z := 362.
Definition TOK_OP_PITLB : Z := 363.
Definition TOK_OP_PDTLB : Z := 364.
Definition TOK_OP_PICA : Z := 365.
Definition TOK_OP_PDCA : Z := 366.
Definition TOK_OP_FICA : Z := 367.
Definition TOK_OP_FDCA : Z := 368.
Definition TOK_OP_RFI : Z := 371.
Definition TOK_OP_DIAG : Z := 372.
Definition TOK_OP_TRAP : Z := 373.

Record Token : Type := mkToken {
  name : string;
  typ  : TokTypeId;
  tid  : Z;
  val  : Z
}.

Definition nilToken : Token := mkToken "" TYP_NIL TOK_NIL 0.

(** *** Instruction flags ([enum InstrFlags : uint32_t]) *)
Definition IF_NIL : Z := 0.
Definition IF_A : Z := Z.shiftl 1 1.
Definition IF_B : Z := Z.shiftl 1 2.
Definition IF_C : Z := Z.shiftl 1 3.
Definition IF_D : Z := Z.shiftl 1 4.
Definition IF_F : Z := Z.shiftl 1 5.
Definition IF_G : Z := Z.shiftl 1 6.
Definition IF_H : Z := Z.shiftl 1 7.
Definition IF_I : Z := Z.shiftl 1 8.
Definition IF_L : Z := Z.shiftl 1 9.
Definition IF_M : Z := Z.shiftl 1 11.
Definition IF_N : Z := Z.shiftl 1 12.
Definition IF_Q : Z := Z.shiftl 1 13.
Definition IF_R : Z := Z.shiftl 1 14.
Definition IF_S : Z := Z.shiftl 1 15.
Definition IF_T : Z := Z.shiftl 1 16.
Definition IF_U : Z := Z.shiftl 1 17.
Definition IF_W : Z := Z.shiftl 1 18.
Definition IF_Z : Z := Z.shiftl 1 19.
Definition IF_EQ : Z := Z.shiftl 1 24.
Definition IF_LT : Z := Z.shiftl 1 25.
Definition IF_NE : Z := Z.shiftl 1 26.
Definition IF_LE : Z := Z.shiftl 1 27.
Definition IF_GT : Z := Z.shiftl 1 28.
Definition IF_GE : Z := Z.shiftl 1 29.
Definition IF_EV : Z := Z.shiftl 1 30.
Definition IF_OD : Z := Z.shiftl 1 31.

(** [a | b | ...] on flags. *)
Definition flags (l : list Z) : Z := fold_left Z.lor l 0.

Definition IM_NIL : Z := 0.
Definition IM_ADD_OP : Z := flags [IF_B; IF_H; IF_W; IF_D].
Definition IM_SUB_OP : Z := flags [IF_B; IF_H; IF_W; IF_D].
Definition IM_AND_OP : Z := flags [IF_B; IF_H; IF_W; IF_D; IF_N; IF_C].
Definition IM_OR_OP  : Z := flags [IF_B; IF_H; IF_W; IF_D; IF_N; IF_C].
Definition IM_XOR_OP : Z := flags [IF_B; IF_H; IF_W; IF_D; IF_N].
Definition IM_CMP_OP : Z :=
  flags [IF_B; IF_H; IF_W; IF_D; IF_EQ; IF_NE; IF_LT; IF_LE; IF_GT; IF_GE].
Definition IM_EXTR_OP : Z := flags [IF_S].
Definition IM_DEP_OP : Z := flags [IF_Z; IF_I].
Definition IM_SHLxA_OP : Z := flags [IF_I].
Definition IM_SHRxA_OP : Z := flags [IF_I].
Definition IM_LDI_OP : Z := flags [IF_L; IF_M; IF_U].
Definition IM_LDO_OP : Z := flags [IF_B; IF_H; IF_W; IF_D].
Definition IM_LD_OP : Z := flags [IF_B; IF_H; IF_W; IF_D; IF_U].
Definition IM_ST_OP : Z := flags [IF_B; IF_H; IF_W; IF_D].
Definition IM_LDR_OP : Z := flags [IF_D; IF_U].
Definition IM_STC_OP : Z := flags [IF_D].
Definition IM_B_OP : Z := flags [IF_G].
Definition IM_BR_OP : Z := flags [IF_W; IF_D; IF_Q].
Definition IM_BV_OP : Z := flags [IF_W; IF_D; IF_Q].
Definition IM_BB_OP : Z := flags [IF_T; IF_F].
Definition IM_CBR_OP : Z := flags [IF_EQ; IF_LT; IF_NE; IF_LE; IF_GT; IF_GE].
Definition IM_MBR_OP : Z :=
  flags [IF_EQ; IF_LT; IF_NE; IF_LE; IF_GT; IF_GE; IF_EV; IF_OD].
Definition IM_ABR_OP : Z :=
  flags [IF_EQ; IF_LT; IF_NE; IF_LE; IF_GT; IF_GE; IF_EV; IF_OD].
Definition IM_MFIA_OP : Z := flags [IF_A; IF_L; IF_R].
Definition IM_ITLB_OP : Z := flags [IF_I; IF_D].
Definition IM_PTLB_OP : Z := flags [IF_I; IF_D].
Definition IM_PCA_OP : Z := flags [IF_I; IF_D].

(** [flags & f] as a condition. *)
Definition has (fl f : Z) : bool := negb (Z.land fl f =? 0).
(** [flags & ~mask] as a condition. *)
Definition outside (fl mask : Z) : bool :=
  negb (Z.land fl (to_u32 (Z.lnot mask)) =? 0).

Section WithCommon.
Context {C : T64Common}.

(** *** Instruction templates ([enum InstrTemplate : uint32_t]) *)
Definition OPG_ALU : Z := Z.shiftl OPC_GRP_ALU 30.
Definition OPG_MEM : Z := Z.shiftl OPC_GRP_MEM 30.
Definition OPG_BR  : Z := Z.shiftl OPC_GRP_BR 30.
Definition OPG_SYS : Z := Z.shiftl OPC_GRP_SYS 30.
Definition OPF (opc : Z) : Z := Z.shiftl opc 26.
Definition OPF_CMP_A : Z := OPF OPC_CMP_A.
Definition OPF_CMP_B : Z := OPF OPC_CMP_B.
Definition OPM_FLD (n : Z) : Z := Z.shiftl n 19.

Definition tmpl (grp opc fld : Z) : Z :=
  Z.lor (Z.lor grp (OPF opc)) (OPM_FLD fld).

Definition gregTok (n : string) (r : Z) : Token := mkToken n TYP_GREG (TOK_GR r) r.
Definition cregTok (n : string) (r : Z) : Token := mkToken n TYP_CREG (TOK_CR r) r.
Definition opTok (n : string) (t v : Z) : Token := mkToken n TYP_OP_CODE t v.

(** *** The token table *)
Definition AsmTokTab : list Token :=
  [ gregTok "R0" 0; gregTok "R1" 1; gregTok "R2" 2; gregTok "R3" 3; gregTok "R4" 4;
    gregTok "R5" 5; gregTok "R6" 6; gregTok "R7" 7; gregTok "R8" 8; gregTok "R9" 9;
    gregTok "R10" 10; gregTok "R11" 11; gregTok "R12" 12; gregTok "R13" 13;
    gregTok "R14" 14; gregTok "R15" 15;
    cregTok "C0" 0; cregTok "C1" 1; cregTok "C2" 2; cregTok "C3" 3;
    cregTok "C4" 4; cregTok "C5" 5; cregTok "C6" 6; cregTok "C7" 7;
    cregTok "C8" 8; cregTok "C9" 9; cregTok "C10" 10; cregTok "C11" 11;
    cregTok "C12" 12; cregTok "C13" 13; cregTok "C14" 14; cregTok "C15" 15;
    gregTok "T0" 1; gregTok "T1" 2; gregTok "T2" 3; gregTok "T3" 4; gregTok "T4" 5;
    gregTok "T5" 6; gregTok "T6" 7;
    gregTok "ARG3" 8; gregTok "ARG2" 9; gregTok "ARG1" 10; gregTok "ARG0" 11;
    gregTok "RET3" 8; gregTok "RET2" 9; gregTok "RET1" 10; gregTok "RET0" 11;
    gregTok "DP" 13; gregTok "RL" 14; gregTok "SP" 15;
    mkToken "SAR" TYP_CREG (TOK_CR 4) 2;
    opTok "ADD" TOK_OP_ADD (tmpl OPG_ALU OPC_ADD 0);
    opTok "SUB" TOK_OP_SUB (tmpl OPG_ALU OPC_SUB 0);
    opTok "AND" TOK_OP_AND (tmpl OPG_ALU OPC_AND 0);
    opTok "OR" TOK_OP_OR (tmpl OPG_ALU OPC_OR 0);
    opTok "XOR" TOK_OP_XOR (tmpl OPG_ALU OPC_XOR 0);
    opTok "CMP" TOK_OP_CMP (tmpl OPG_ALU OPC_CMP_A 0);
    opTok "EXTR" TOK_OP_EXTR (tmpl OPG_ALU OPC_BITOP 0);
    opTok "DEP" TOK_OP_DEP (tmpl OPG_ALU OPC_BITOP 1);
    opTok "DSR" TOK_OP_DSR (tmpl OPG_ALU OPC_BITOP 2);
    opTok "SHL1A" TOK_OP_SHL1A (tmpl OPG_ALU OPC_SHAOP 0);
    opTok "SHL2A" TOK_OP_SHL2A (tmpl OPG_ALU OPC_SHAOP 0);
    opTok "SHL3A" TOK_OP_SHL3A (tmpl OPG_ALU OPC_SHAOP 0);
    opTok "SHR1A" TOK_OP_SHR1A (tmpl OPG_ALU OPC_SHAOP 2);
    opTok "SHR2A" TOK_OP_SHR2A (tmpl OPG_ALU OPC_SHAOP 2);
    opTok "SHR3A" TOK_OP_SHR3A (tmpl OPG_ALU OPC_SHAOP 2);
    opTok "LDIL" TOK_OP_LDIL (tmpl OPG_ALU OPC_IMMOP 0);
    opTok "ADDIL" TOK_OP_ADDIL (tmpl OPG_ALU OPC_IMMOP 0);
    opTok "LDO" TOK_OP_LDO (tmpl OPG_ALU OPC_LDO 0);
    opTok "LD" TOK_OP_LD (tmpl OPG_MEM OPC_LD 0);
    opTok "LDR" TOK_OP_LDR (tmpl OPG_MEM OPC_LDR 0);
    opTok "ST" TOK_OP_ST (tmpl OPG_MEM OPC_ST 1);
    opTok "STC" TOK_OP_STC (tmpl OPG_MEM OPC_STC 1);
    opTok "B" TOK_OP_B (tmpl OPG_BR OPC_B 0);
    opTok "BE" TOK_OP_BE (tmpl OPG_BR OPC_BE 0);
    opTok "BR" TOK_OP_BR (tmpl OPG_BR OPC_BR 0);
    opTok "BV" TOK_OP_BV (tmpl OPG_BR OPC_BV 0);
    opTok "BB" TOK_OP_BB (tmpl OPG_BR OPC_BB 0);
    opTok "CBR" TOK_OP_CBR (tmpl OPG_BR OPC_CBR 0);
    opTok "MBR" TOK_OP_MBR (tmpl OPG_BR OPC_MBR 0);
    opTok "ABR" TOK_OP_ABR (tmpl OPG_BR OPC_ABR 0);
    opTok "MFCR" TOK_OP_MFCR (tmpl OPG_SYS OPC_MR 0);
    opTok "MTCR" TOK_OP_MTCR (tmpl OPG_SYS OPC_MR 1);
    opTok "MFIA" TOK_OP_MFIA (tmpl OPG_SYS OPC_MR 2);
    opTok "LPA" TOK_OP_LPA (tmpl OPG_SYS OPC_LPA 0);
    opTok "PRB" TOK_OP_PRB (tmpl OPG_SYS OPC_PRB 0);
    opTok "IITLB" TOK_OP_IITLB (tmpl OPG_SYS OPC_TLB 0);
    opTok "IDTLB" TOK_OP_IDTLB (tmpl OPG_SYS OPC_TLB 1);
    opTok "PITLB" TOK_OP_PITLB (tmpl OPG_SYS OPC_TLB 2);
    opTok "PDTLB" TOK_OP_PDTLB (tmpl OPG_SYS OPC_TLB 3);
    opTok "PICA" TOK_OP_PICA (tmpl OPG_SYS OPC_CA 0);
    opTok "PDCA" TOK_OP_PDCA (tmpl OPG_SYS OPC_CA 1);
    opTok "FICA" TOK_OP_FICA (tmpl OPG_SYS OPC_CA 2);
    opTok "FDCA" TOK_OP_FDCA (tmpl OPG_SYS OPC_CA 3);
    opTok "RSM" TOK_OP_RSM (tmpl OPG_SYS OPC_MST 0);
    opTok "SSM" TOK_OP_SSM (tmpl OPG_SYS OPC_MST 1);
    opTok "TRAP" TOK_OP_TRAP (tmpl OPG_SYS OPC_TRAP 1);
    opTok "RFI" TOK_OP_RFI (tmpl OPG_SYS OPC_RFI 0);
    opTok "DIAG" TOK_OP_DIAG (tmpl OPG_SYS OPC_DIAG 0);
    opTok "NOP" TOK_OP_NOP (tmpl OPG_ALU OPC_NOP 0) ].

(** *** Expression value *)
Record Expr : Type := mkExpr {
  e_typ : TokTypeId;
  e_val : Z
}.

Definition INIT_EXPR : Expr := mkExpr TYP_NIL 0.

(** *** The global variables of the tokenizer, and the instruction word
    cell that [assembleInstr] gets a pointer to. *)
Record AsmState : Type := mkAsm {
  lastErr             : Z;
  tokenLine           : string;
  currentLineLen      : Z;
  currentCharIndex    : Z;
  currentTokCharIndex : Z;
  currentChar         : ascii;
  currentToken        : Token;
  instrCell           : Z
}.

Definition initialAsmState : AsmState :=
  mkAsm NO_ERR "" 0 0 0 " "%char nilToken 0.

Definition set_currentChar (st : AsmState) (c : ascii) : AsmState :=
  mkAsm (lastErr st) (tokenLine st) (currentLineLen st) (currentCharIndex st)
        (currentTokCharIndex st) c (currentToken st) (instrCell st).
Definition set_currentCharIndex (st : AsmState) (i : Z) : AsmState :=
  mkAsm (lastErr st) (tokenLine st) (currentLineLen st) i
        (currentTokCharIndex st) (currentChar st) (currentToken st)
        (instrCell st).
Definition set_currentTokCharIndex (st : AsmState) (i : Z) : AsmState :=
  mkAsm (lastErr st) (tokenLine st) (currentLineLen st) (currentCharIndex st)
        i (currentChar st) (currentToken st) (instrCell st).
Definition set_currentToken (st : AsmState) (t : Token) : AsmState :=
  mkAsm (lastErr st) (tokenLine st) (currentLineLen st) (currentCharIndex st)
        (currentTokCharIndex st) (currentChar st) t (instrCell st).
Definition set_instrCell (st : AsmState) (i : Z) : AsmState :=
  mkAsm (lastErr st) (tokenLine st) (currentLineLen st) (currentCharIndex st)
        (currentTokCharIndex st) (currentChar st) (currentToken st) i.
Definition set_lastErr (st : AsmState) (e : Z) : AsmState :=
  mkAsm e (tokenLine st) (currentLineLen st) (currentCharIndex st)
        (currentTokCharIndex st) (currentChar st) (currentToken st)
        (instrCell st).

(** *** Parsing threads the globals and may throw an [ErrId].  [Diverge]
    is a computation that does not come back, [Undef] one that leaves
    defined behaviour (a copy beyond the end of a buffer). *)
Inductive Res (A : Type) : Type :=
| Ok (a : A) (st : AsmState)
| Err (e : Z) (st : AsmState)
| Diverge
| Undef.
Arguments Ok {A} a st.
Arguments Err {A} e st.
Arguments Diverge {A}.
Arguments Undef {A}.

Definition P (A : Type) : Type := AsmState -> Res A.

Definition ret {A} (a : A) : P A := fun st => Ok a st.
Definition bind {A B} (m : P A) (f : A -> P B) : P B :=
  fun st => match m st with
            | Ok a st' => f a st'
            | Err e st' => Err e st'
            | Diverge => Diverge
            | Undef => Undef
            end.
Definition throw {A} (e : Z) : P A := fun st => Err e st.
Definition get : P AsmState := fun st => Ok st st.
Definition put (st : AsmState) : P unit := fun _ => Ok tt st.
Definition modify (f : AsmState -> AsmState) : P unit := fun st => Ok tt (f st).
Definition when (b : bool) (m : P unit) : P unit := if b then m else ret tt.

Notation "x <- m ;; k" := (bind m (fun x => k))
  (at level 61, m at next level, right associativity).
Notation "m ;; k" := (bind m (fun _ => k))
  (at level 61, right associativity).

(** *** Characters and C strings *)
Definition code (c : ascii) : Z := Z.of_N (N_of_ascii c).
Definition chr (z : Z) : ascii := ascii_of_N (Z.to_N z).
Definition isChar (c d : ascii) : bool := Ascii.eqb c d.
Definition isdigit (c : ascii) : bool := (48 <=? code c) && (code c <=? 57).
Definition isupper (c : ascii) : bool := (65 <=? code c) && (code c <=? 90).
Definition islower (c : ascii) : bool := (97 <=? code c) && (code c <=? 122).
Definition isalpha (c : ascii) : bool := isupper c || islower c.
Definition isalnum (c : ascii) : bool := isalpha c || isdigit c.
Definition toupper (c : ascii) : ascii :=
  if islower c then chr (code c - 32) else c.

Fixpoint mapStr (f : ascii -> ascii) (s : string) : string :=
  match s with
  | EmptyString => EmptyString
  | String c r => String (f c) (mapStr f r)
  end.

(** The characters a [char *] designates: up to the first NUL. *)
Fixpoint c_str (s : string) : string :=
  match s with
  | EmptyString => EmptyString
  | String c r => if isChar c EOS_CHAR then EmptyString else String c (c_str r)
  end.

Definition strlen (s : string) : Z := Z.of_nat (String.length s).
Definition upshiftStr (s : string) : string := mapStr toupper s.

(** An upper bound for the number of characters and tokens of the line,
    used to unroll the loops that consume the line. *)
Definition lineFuel (st : AsmState) : nat := S (S (String.length (tokenLine st))).

(** *** The token lookup function: a linear search; the entry found, or
    [None] for the result [-1]. *)
Fixpoint searchToken (inputStr : string) (tokTab : list Token) : option Token :=
  match tokTab with
  | [] => None
  | t :: r => if String.eqb inputStr (name t) then Some t
              else searchToken inputStr r
  end.

Definition lookupToken (inputStr : string) (tokTab : list Token) : option Token :=
  if (strlen inputStr =? 0) || (strlen inputStr >? MAX_TOKEN_NAME_SIZE)
  then None
  else searchToken inputStr tokTab.

Definition nextChar : P unit :=
  modify (fun st =>
    if currentCharIndex st <? currentLineLen st then
      let c := match String.get (Z.to_nat (currentCharIndex st)) (tokenLine st) with
               | Some c => c
               | None => EOS_CHAR
               end in
      set_currentCharIndex (set_currentChar st c) (currentCharIndex st + 1)
    else set_currentChar st EOS_CHAR).

Definition addChar (buf : string) (size : Z) (ch : ascii) : string :=
  if strlen buf + 1 <? size then buf ++ String ch EmptyString else buf.

Definition getChar : P ascii := st <- get ;; ret (currentChar st).
Definition getTok : P Token := st <- get ;; ret (currentToken st).
Definition setTok (t : Token) : P unit := modify (fun st => set_currentToken st t).
Definition setTokVal (v : Z) : P unit :=
  modify (fun st =>
    let t := currentToken st in
    set_currentToken st (mkToken (name t) (typ t) (tid t) v)).
Definition setTokTypTid (ty : TokTypeId) (ti : Z) : P unit :=
  modify (fun st =>
    let t := currentToken st in
    set_currentToken st (mkToken (name t) ty ti (val t))).
Definition setTokTid (ti : Z) : P unit :=
  modify (fun st =>
    let t := currentToken st in
    set_currentToken st (mkToken (name t) (typ t) ti (val t))).

(** *** Signed 64-bit numeric operations with checking *)
Definition numOp (chk : Z -> Z -> bool) (op : Z -> Z -> Z) (a b : Expr) : P Z :=
  if negb (typEqb (e_typ a) TYP_NUM) then throw ERR_EXPECTED_NUMERIC
  else if negb (typEqb (e_typ b) TYP_NUM) then throw ERR_EXPECTED_NUMERIC
  else if chk (e_val a) (e_val b) then throw ERR_NUMERIC_OVERFLOW
  else ret (to_i64 (op (e_val a) (e_val b))).

Definition addOp := numOp willAddOverflow Z.add.
Definition subOp := numOp willSubOverflow Z.sub.
Definition multOp := numOp willMultOverflow Z.mul.
Definition divOp := numOp willDivOverflow Z.quot.
Definition modOp := numOp willDivOverflow Z.rem.

(** *** parseNum *)
Definition isHexLower (c : ascii) : bool := (97 <=? code c) && (code c <=? 102).
Definition isHexUpper (c : ascii) : bool := (65 <=? code c) && (code c <=? 70).

(** One pass through the body of the [do ... while] loop, then its
    condition. *)
Fixpoint parseNumLoop (n : nat) (base maxDigits tmpVal digits : Z) : P Z :=
  match n with
  | O => fun _ => Diverge
  | S n' =>
      c <- getChar ;;
      r <- (if isChar c "_" then
              nextChar ;; ret (tmpVal, digits)
            else
              tmpVal' <-
                (if isdigit c then
                   let digit := code c - 48 in
                   if digit >=? base then throw ERR_INVALID_NUM
                   else ret (to_i64 (tmpVal * base + digit))
                 else if (base =? 16) && isHexLower c then
                   ret (to_i64 (tmpVal * base + code c - 97 + 10))
                 else if (base =? 16) && isHexUpper c then
                   ret (to_i64 (tmpVal * base + code c - 65 + 10))
                 else throw ERR_INVALID_NUM) ;;
              nextChar ;;
              let digits' := digits + 1 in
              if digits' >? maxDigits then throw ERR_INVALID_NUM
              else ret (tmpVal', digits')) ;;
      let '(tmpVal, digits) := r in
      c <- getChar ;;
      if isChar c "_" || isdigit c
         || ((base =? 16) && (isHexLower c || isHexUpper c))
      then parseNumLoop n' base maxDigits tmpVal digits
      else ret tmpVal
  end.

Definition parseNum : P unit :=
  t <- getTok ;;
  setTok (mkToken (name t) TYP_NUM TOK_NUM 0) ;;
  c <- getChar ;;
  hdr <- (if isChar c "0" then
            nextChar ;;
            c <- getChar ;;
            if isChar c "X" || isChar c "x" then
              nextChar ;; ret (Some (16, 16))
            else if isChar c "B" || isChar c "b" then
              nextChar ;; ret (Some (2, 64))
            else if negb (isdigit c) then ret None
            else ret (Some (10, 22))
          else ret (Some (10, 22))) ;;
  match hdr with
  | None => ret tt
  | Some (base, maxDigits) =>
      st <- get ;;
      tmpVal <- parseNumLoop (lineFuel st) base maxDigits 0 0 ;;
      setTokVal tmpVal
  end.

(** *** parseIdent *)

(** The qualified constants [L%], [R%], [M%] and [U%]: the first letter
    has been seen; [mask] and [shift] select the bits of the number. *)
Definition qualifiedConst (identBuf : string) (mask shift : Z)
           (rest : string -> P unit) : P unit :=
  c <- getChar ;;
  let identBuf := addChar identBuf MAX_INPUT_LINE_SIZE c in
  nextChar ;;
  c <- getChar ;;
  if isChar c "%" then
    nextChar ;;
    c <- getChar ;;
    if isdigit c then
      parseNum ;;
      t <- getTok ;;
      setTokVal (Z.shiftr (to_i64 (Z.land (to_u64 (val t)) mask)) shift)
    else throw ERR_INVALID_CHAR_IN_IDENT
  else rest identBuf.

Fixpoint identLoop (n : nat) (identBuf : string) : P string :=
  match n with
  | O => fun _ => Diverge
  | S n' =>
      c <- getChar ;;
      if isalnum c || isChar c "_" then
        nextChar ;;
        identLoop n' (addChar identBuf MAX_INPUT_LINE_SIZE c)
      else ret identBuf
  end.

(** [strcpy( currentToken.name, identBuf )]: the name has
    [MAX_TOKEN_NAME_SIZE] characters. *)
Definition identTail (identBuf : string) : P unit :=
  st <- get ;;
  identBuf <- identLoop (lineFuel st) identBuf ;;
  let identBuf := upshiftStr identBuf in
  match lookupToken identBuf AsmTokTab with
  | None =>
      if strlen identBuf + 1 >? MAX_TOKEN_NAME_SIZE then fun _ => Undef
      else setTok (mkToken identBuf TYP_IDENT TOK_IDENT 0)
  | Some t => setTok t
  end.

Definition parseIdent : P unit :=
  t <- getTok ;;
  setTok (mkToken (name t) TYP_IDENT TOK_IDENT 0) ;;
  let identBuf := "" in
  c <- getChar ;;
  if isChar c "L" || isChar c "l" then
    qualifiedConst identBuf 4294963200 12 identTail
  else if isChar c "R" || isChar c "r" then
    qualifiedConst identBuf 4095 0 identTail
  else if isChar c "M" || isChar c "m" then
    qualifiedConst identBuf 4503595332403200 32 identTail
  else if isChar c "U" || isChar c "u" then
    qualifiedConst identBuf 18442240474082181120 52 identTail
  else identTail identBuf.

(** *** nextToken *)
Fixpoint skipBlanks (n : nat) : P unit :=
  match n with
  | O => fun _ => Diverge
  | S n' =>
      c <- getChar ;;
      if isChar c " " || isChar c "010" || isChar c "013"
      then nextChar ;; skipBlanks n'
      else ret tt
  end.

Definition symbol (ty : TokTypeId) (ti : Z) : P unit :=
  setTokTypTid ty ti ;; nextChar.

Definition nextToken : P unit :=
  setTok nilToken ;;
  st <- get ;;
  skipBlanks (lineFuel st) ;;
  modify (fun st => set_currentTokCharIndex st (currentCharIndex st - 1)) ;;
  c <- getChar ;;
  if isalpha c then parseIdent
  else if isdigit c then parseNum
  else if isChar c "." then symbol TYP_SYM TOK_PERIOD
  else if isChar c "+" then setTokTid TOK_PLUS ;; nextChar
  else if isChar c "-" then symbol TYP_SYM TOK_MINUS
  else if isChar c "*" then symbol TYP_SYM TOK_MULT
  else if isChar c "/" then symbol TYP_SYM TOK_DIV
  else if isChar c "%" then symbol TYP_SYM TOK_MOD
  else if isChar c "&" then symbol TYP_SYM TOK_AND
  else if isChar c "|" then symbol TYP_SYM TOK_OR
  else if isChar c "^" then symbol TYP_SYM TOK_XOR
  else if isChar c "~" then symbol TYP_SYM TOK_NEG
  else if isChar c "(" then symbol TYP_SYM TOK_LPAREN
  else if isChar c ")" then symbol TYP_SYM TOK_RPAREN
  else if isChar c "," then symbol TYP_SYM TOK_COMMA
  else if isChar c ";" then
    modify (fun st => set_currentCharIndex st (currentLineLen st)) ;;
    setTokTypTid TYP_NIL TOK_EOS
  else if isChar c EOS_CHAR then setTokTypTid TYP_NIL TOK_EOS
  else setTokTid TOK_ERR ;; throw ERR_INVALID_CHAR_IN_IDENT.

(** [strcpy( tokenLine, inputStr )]: the line buffer has
    [MAX_INPUT_LINE_SIZE] characters. *)
Definition setupTokenizer (inputStr : string) : P unit :=
  let inputStr := c_str inputStr in
  if strlen inputStr + 1 >? MAX_INPUT_LINE_SIZE then fun _ => Undef
  else
    modify (fun st =>
      mkAsm (lastErr st) (upshiftStr inputStr) (strlen (upshiftStr inputStr))
            0 0 " "%char (currentToken st) (instrCell st)) ;;
    nextToken.

(** *** Parser helper functions *)
Definition isToken (ti : Z) : P bool :=
  t <- getTok ;; ret (tid t =? ti).
Definition isTokenTyp (ty : TokTypeId) : P bool :=
  t <- getTok ;; ret (typEqb (typ t) ty).

Definition acceptEOS : P unit :=
  b <- isToken TOK_EOS ;;
  if negb b then throw ERR_EXTRA_TOKEN_IN_STR else ret tt.
Definition acceptComma : P unit :=
  b <- isToken TOK_COMMA ;;
  if b then nextToken else throw ERR_EXPECTED_COMMA.
Definition acceptLparen : P unit :=
  b <- isToken TOK_LPAREN ;;
  if b then nextToken else throw ERR_EXPECTED_LPAREN.
Definition acceptRparen : P unit :=
  b <- isToken TOK_RPAREN ;;
  if b then nextToken else throw ERR_EXPECTED_RPAREN.

(** *** The expression parser.  [parseFactor], [parseTerm] and [parseExpr]
    call each other; [fuel] bounds the depth of these calls.  The two
    [while] loops consume a token per iteration. *)

Definition isTermOp (ti : Z) : bool :=
  (ti =? TOK_MULT) || (ti =? TOK_DIV) || (ti =? TOK_MOD) || (ti =? TOK_AND).
Definition isExprOp (ti : Z) : bool :=
  (ti =? TOK_PLUS) || (ti =? TOK_MINUS) || (ti =? TOK_OR) || (ti =? TOK_XOR).

Fixpoint termLoop (parseFactor : P Expr) (n : nat) (rExpr : Expr) : P Expr :=
  match n with
  | O => fun _ => Diverge
  | S n' =>
      t <- getTok ;;
      if isTermOp (tid t) then
        let op := to_u8 (tid t) in
        nextToken ;;
        lExpr <- parseFactor ;;
        if negb (typEqb (e_typ rExpr) (e_typ lExpr)) then throw ERR_EXPR_TYPE_MATCH
        else
          v <- (if op =? TOK_MULT then multOp rExpr lExpr
                else if op =? TOK_DIV then divOp rExpr lExpr
                else if op =? TOK_MOD then modOp rExpr lExpr
                else if op =? TOK_AND then ret (Z.land (e_val rExpr) (e_val lExpr))
                else ret (e_val rExpr)) ;;
          termLoop parseFactor n' (mkExpr (e_typ rExpr) v)
      else ret rExpr
  end.

Fixpoint exprLoop (parseTerm : P Expr) (n : nat) (rExpr : Expr) : P Expr :=
  match n with
  | O => fun _ => Diverge
  | S n' =>
      t <- getTok ;;
      if isExprOp (tid t) then
        let op := to_u8 (tid t) in
        nextToken ;;
        lExpr <- parseTerm ;;
        if negb (typEqb (e_typ rExpr) (e_typ lExpr)) then throw ERR_EXPR_TYPE_MATCH
        else
          v <- (if op =? TOK_PLUS then addOp rExpr lExpr
                else if op =? TOK_MINUS then subOp rExpr lExpr
                else if op =? TOK_OR then ret (Z.lor (e_val rExpr) (e_val lExpr))
                else if op =? TOK_XOR then ret (Z.lxor (e_val rExpr) (e_val lExpr))
                else ret (e_val rExpr)) ;;
          exprLoop parseTerm n' (mkExpr (e_typ rExpr) v)
      else ret rExpr
  end.

Fixpoint parseFactor (fuel : nat) : P Expr :=
  match fuel with
  | O => fun _ => Diverge
  | S fuel' =>
      t <- getTok ;;
      if tid t =? TOK_NUM then
        nextToken ;; ret (mkExpr TYP_NUM (val t))
      else if typEqb (typ t) TYP_GREG then
        nextToken ;; ret (mkExpr TYP_GREG (val t))
      else if typEqb (typ t) TYP_CREG then
        nextToken ;; ret (mkExpr TYP_CREG (val t))
      else if tid t =? TOK_NEG then
        rExpr <- parseFactor fuel' ;;
        ret (mkExpr (e_typ rExpr) (Z.lnot (e_val rExpr)))
      else if tid t =? TOK_LPAREN then
        nextToken ;;
        rExpr <- parseExpr fuel' ;;
        acceptRparen ;;
        ret rExpr
      else throw ERR_INVALID_EXPR
  end

with parseTerm (fuel : nat) : P Expr :=
  match fuel with
  | O => fun _ => Diverge
  | S fuel' =>
      rExpr <- parseFactor fuel' ;;
      st <- get ;;
      termLoop (parseFactor fuel') (lineFuel st) rExpr
  end

with parseExpr (fuel : nat) : P Expr :=
  match fuel with
  | O => fun _ => Diverge
  | S fuel' =>
      t <- getTok ;;
      rExpr <-
        (if tid t =? TOK_PLUS then
           nextToken ;;
           rExpr <- parseTerm fuel' ;;
           if negb (typEqb (e_typ rExpr) TYP_NUM) then throw ERR_EXPECTED_NUMERIC
           else ret rExpr
         else if tid t =? TOK_MINUS then
           nextToken ;;
           rExpr <- parseTerm fuel' ;;
           if typEqb (e_typ rExpr) TYP_NUM
           then ret (mkExpr TYP_NUM (to_i64 (- e_val rExpr)))
           else throw ERR_EXPECTED_NUMERIC
         else parseTerm fuel') ;;
      st <- get ;;
      exprLoop (parseTerm fuel') (lineFuel st) rExpr
  end.

(** *** Helper functions for instruction fields.  They update the cell
    [instr] points to. *)
Definition getInstr : P Z := st <- get ;; ret (instrCell st).
Definition setInstr (i : Z) : P unit := modify (fun st => set_instrCell st i).
Definition onInstr (f : Z -> Z) : P unit :=
  modify (fun st => set_instrCell st (f (instrCell st))).

Definition depositField (bitpos len value : Z) : P unit :=
  onInstr (fun i => depositInstrField i bitpos len value).
Definition depositBit (bitpos : Z) (value : bool) : P unit :=
  onInstr (fun i => depositInstrBit i bitpos value).
Definition depositRegR (regId : Z) : P unit :=
  onInstr (fun i => depositInstrRegR i (to_u32 regId)).
Definition depositRegB (regId : Z) : P unit :=
  onInstr (fun i => depositInstrRegB i (to_u32 regId)).
Definition depositRegA (regId : Z) : P unit :=
  onInstr (fun i => depositInstrRegA i (to_u32 regId)).

Definition depositInstrFieldS (bitpos len value : Z) : P unit :=
  if isInRangeForInstrBitFieldS value len
  then depositField bitpos len value
  else throw ERR_IMM_VAL_RANGE.

Definition depositInstrFieldU (bitpos len value : Z) : P unit :=
  let value := to_u32 value in
  if isInRangeForInstrBitFieldU value len
  then depositField bitpos len value
  else throw ERR_IMM_VAL_RANGE.

(** The [int val] parameter of the next four routines receives
    [(uint32_t) rExpr.val]. *)
Definition depositInstrImm13 (val : Z) : P unit :=
  depositInstrFieldS 0 13 (to_i32 val).

Definition depositInstrScaledImm13 (val : Z) : P unit :=
  i <- getInstr ;;
  let val := Z.shiftr (to_i32 val) (extractInstrFieldU i 13 2) in
  depositInstrFieldS 0 13 val.

Definition depositInstrImm15 (val : Z) : P unit :=
  depositInstrFieldS 0 15 (to_i32 val).

Definition depositInstrImm19 (val : Z) : P unit :=
  depositInstrFieldS 0 19 (to_i32 val).

Definition depositInstrImm20U (val : Z) : P unit :=
  depositInstrFieldU 0 20 val.

Definition hasDataWidthFlags (instrFlags : Z) : bool :=
  has instrFlags IF_B || has instrFlags IF_H
  || has instrFlags IF_W || has instrFlags IF_D.

Definition hasCmpCodeFlags (instrFlags : Z) : bool :=
  has instrFlags IF_EQ || has instrFlags IF_NE
  || has instrFlags IF_LT || has instrFlags IF_LE
  || has instrFlags IF_GT || has instrFlags IF_GE
  || has instrFlags IF_EV || has instrFlags IF_OD.

Definition replaceInstrGroupField (instrMask : Z) : P unit :=
  onInstr (fun i => Z.lor (Z.land i 1073741823) (Z.land instrMask 3221225472)).

Definition replaceInstrOpCodeField (instrMask : Z) : P unit :=
  onInstr (fun i => Z.lor (Z.land i 3288334335) (Z.land instrMask 1006632960)).

Definition setInstrCompareCondField (instrFlags : Z) : P unit :=
  if has instrFlags IF_EQ then depositInstrFieldU 19 3 0
  else if has instrFlags IF_LT then depositInstrFieldU 19 3 1
  else if has instrFlags IF_GT then depositInstrFieldU 19 3 2
  else if has instrFlags IF_EV then depositInstrFieldU 19 3 3
  else if has instrFlags IF_NE then depositInstrFieldU 19 3 4
  else if has instrFlags IF_GE then depositInstrFieldU 19 3 5
  else if has instrFlags IF_LE then depositInstrFieldU 19 3 6
  else if has instrFlags IF_OD then depositInstrFieldU 19 3 7
  else ret tt.

Definition setInstrDwField (instrFlags : Z) : P unit :=
  let instrFlags := if negb (hasDataWidthFlags instrFlags)
                    then Z.lor instrFlags IF_D else instrFlags in
  if has instrFlags IF_B then depositInstrFieldU 13 2 0
  else if has instrFlags IF_H then depositInstrFieldU 13 2 1
  else if has instrFlags IF_W then depositInstrFieldU 13 2 2
  else if has instrFlags IF_D then depositInstrFieldU 13 2 3
  else ret tt.

(** [ofs] is an [int] parameter. *)
Definition checkOfsAlignment (ofs instrFlags : Z) : P unit :=
  let ofs := to_i32 ofs in
  let instrFlags := if negb (hasDataWidthFlags instrFlags)
                    then Z.lor instrFlags IF_D else instrFlags in
  if negb (has instrFlags IF_B) then
    if negb ((has instrFlags IF_H && isAlignedDataAdr ofs 2)
             || (has instrFlags IF_W && isAlignedDataAdr ofs 4)
             || (has instrFlags IF_D && isAlignedDataAdr ofs 8))
    then throw ERR_INVALID_OFS
    else ret tt
  else ret tt.

(** *** parseInstrOptions *)

Definition optionChar (c : ascii) : option Z :=
  if isChar c "A" then Some IF_A else if isChar c "B" then Some IF_B
  else if isChar c "C" then Some IF_C else if isChar c "D" then Some IF_D
  else if isChar c "F" then Some IF_F else if isChar c "G" then Some IF_G
  else if isChar c "H" then Some IF_H else if isChar c "I" then Some IF_I
  else if isChar c "L" then Some IF_L else if isChar c "M" then Some IF_M
  else if isChar c "N" then Some IF_N else if isChar c "Q" then Some IF_Q
  else if isChar c "S" then Some IF_S else if isChar c "T" then Some IF_T
  else if isChar c "U" then Some IF_U else if isChar c "W" then Some IF_W
  else if isChar c "Z" then Some IF_Z
  else None.

Fixpoint optionChars (optBuf : string) (instrMask : Z) : P Z :=
  match optBuf with
  | EmptyString => ret instrMask
  | String c r =>
      match optionChar c with
      | Some f => optionChars r (Z.lor instrMask f)
      | None => throw ERR_INVALID_INSTR_OPT
      end
  end.

Fixpoint optionLoop (n : nat) (instrMask : Z) : P Z :=
  match n with
  | O => fun _ => Diverge
  | S n' =>
      t <- getTok ;;
      if tid t =? TOK_PERIOD then
        nextToken ;;
        t <- getTok ;;
        when (tid t =? TOK_OP_B)
             (setTok (mkToken "B" TYP_IDENT TOK_IDENT (val t))) ;;
        t <- getTok ;;
        if negb (tid t =? TOK_IDENT) then throw ERR_EXPECTED_INSTR_OPT
        else
          let optBuf := name t in
          instrMask <-
            (if String.eqb optBuf "EQ" then ret (Z.lor instrMask IF_EQ)
             else if String.eqb optBuf "LT" then ret (Z.lor instrMask IF_LT)
             else if String.eqb optBuf "NE" then ret (Z.lor instrMask IF_NE)
             else if String.eqb optBuf "GE" then ret (Z.lor instrMask IF_GE)
             else if String.eqb optBuf "GT" then ret (Z.lor instrMask IF_GT)
             else if String.eqb optBuf "LE" then ret (Z.lor instrMask IF_LE)
             else if String.eqb optBuf "OD" then ret (Z.lor instrMask IF_OD)
             else if String.eqb optBuf "EV" then ret (Z.lor instrMask IF_EV)
             else optionChars optBuf instrMask) ;;
          nextToken ;;
          optionLoop n' instrMask
      else ret instrMask
  end.

Definition countFlags (instrMask : Z) (l : list Z) : Z :=
  fold_left (fun cnt f => if has instrMask f then cnt + 1 else cnt) l 0.

Definition parseInstrOptions (instrOpToken : Z) : P Z :=
  st <- get ;;
  instrMask <- optionLoop (lineFuel st) IM_NIL ;;
  if countFlags instrMask [IF_W; IF_D; IF_Q] >? 1
  then throw ERR_DUPLICATE_INSTR_OPT
  else if countFlags instrMask [IF_B; IF_H; IF_W; IF_D] >? 1
  then throw ERR_DUPLICATE_INSTR_OPT
  else if countFlags instrMask
            [IF_EQ; IF_LT; IF_NE; IF_LE; IF_GT; IF_GE; IF_OD; IF_EV] >? 1
  then throw ERR_DUPLICATE_INSTR_OPT
  else if countFlags instrMask [IF_T; IF_F] >? 1
  then throw ERR_DUPLICATE_INSTR_OPT
  else if countFlags instrMask [IF_L; IF_M; IF_U] >? 1
  then throw ERR_DUPLICATE_INSTR_OPT
  else
    let op := instrOpToken in
    let instrMask :=
      if ((op =? TOK_OP_LD) && (Z.land instrMask IM_LD_OP =? 0))
         || ((op =? TOK_OP_ST) && (Z.land instrMask IM_ST_OP =? 0))
         || ((op =? TOK_OP_LDO) && (Z.land instrMask IM_LDO_OP =? 0))
         || (op =? TOK_OP_LDR)
         || (op =? TOK_OP_STC)
      then Z.lor instrMask IF_D else instrMask in
    if ((op =? TOK_OP_ADD) && outside instrMask IM_ADD_OP)
       || ((op =? TOK_OP_SUB) && outside instrMask IM_SUB_OP)
       || ((op =? TOK_OP_AND) && outside instrMask IM_AND_OP)
       || ((op =? TOK_OP_OR) && outside instrMask IM_OR_OP)
       || ((op =? TOK_OP_XOR) && outside instrMask IM_XOR_OP)
       || ((op =? TOK_OP_CMP) && outside instrMask IM_CMP_OP)
       || ((op =? TOK_OP_EXTR) && outside instrMask IM_EXTR_OP)
       || ((op =? TOK_OP_DEP) && outside instrMask IM_DEP_OP)
       || ((op =? TOK_OP_SHL1A) && outside instrMask IM_SHLxA_OP)
       || ((op =? TOK_OP_SHL2A) && outside instrMask IM_SHLxA_OP)
       || ((op =? TOK_OP_SHL3A) && outside instrMask IM_SHLxA_OP)
       || ((op =? TOK_OP_SHR1A) && outside instrMask IM_SHRxA_OP)
       || ((op =? TOK_OP_SHR2A) && outside instrMask IM_SHRxA_OP)
       || ((op =? TOK_OP_SHR3A) && outside instrMask IM_SHRxA_OP)
       || ((op =? TOK_OP_LDO) && outside instrMask IM_LDO_OP)
       || ((op =? TOK_OP_LDIL) && outside instrMask IM_LDI_OP)
       || ((op =? TOK_OP_ADDIL) && outside instrMask IM_NIL)
       || ((op =? TOK_OP_ABR) && outside instrMask IM_ABR_OP)
       || ((op =? TOK_OP_CBR) && outside instrMask IM_CBR_OP)
       || ((op =? TOK_OP_MBR) && outside instrMask IM_MBR_OP)
       || ((op =? TOK_OP_LD) && outside instrMask IM_LD_OP)
       || ((op =? TOK_OP_ST) && outside instrMask IM_ST_OP)
       || ((op =? TOK_OP_LDR) && outside instrMask IM_LDR_OP)
       || ((op =? TOK_OP_STC) && outside instrMask IM_STC_OP)
       || ((op =? TOK_OP_B) && outside instrMask IM_B_OP)
       || ((op =? TOK_OP_BR) && outside instrMask IM_BR_OP)
       || ((op =? TOK_OP_BV) && outside instrMask IM_BV_OP)
       || ((op =? TOK_OP_BB) && outside instrMask IM_BB_OP)
       || ((op =? TOK_OP_MFIA) && outside instrMask IM_MFIA_OP)
       || ((op =? TOK_OP_NOP) && outside instrMask IM_NIL)
    then throw ERR_INVALID_INSTR_OPT
    else ret instrMask.

(** *** General register operands *)
Definition acceptReg (deposit : Z -> P unit) (fuel : nat) : P unit :=
  rExpr <- parseExpr fuel ;;
  if typEqb (e_typ rExpr) TYP_GREG then deposit (e_val rExpr)
  else throw ERR_EXPECTED_GENERAL_REG.

Definition acceptRegR := acceptReg depositRegR.
Definition acceptRegA := acceptReg depositRegA.
Definition acceptRegB := acceptReg depositRegB.

(** *** The instruction parsers.  Each gets the opcode token identifier;
    [fuel] is handed to the expression parser. *)

Definition isSAR (rExpr : Expr) : bool :=
  typEqb (e_typ rExpr) TYP_CREG && (e_val rExpr =? 2).
Definition isNum (rExpr : Expr) : bool := typEqb (e_typ rExpr) TYP_NUM.
Definition isGReg (rExpr : Expr) : bool := typEqb (e_typ rExpr) TYP_GREG.
Definition isCReg (rExpr : Expr) : bool := typEqb (e_typ rExpr) TYP_CREG.

(** The optional [, <regR>] at the end of the branch instructions. *)
Definition optionalRegR (fuel : nat) : P unit :=
  c <- isToken TOK_COMMA ;;
  if c then nextToken ;; acceptRegR fuel ;; acceptEOS
  else
    e <- isToken TOK_EOS ;;
    if negb e then throw ERR_EXPECTED_COMMA else ret tt.

Definition parseNopInstr (fuel : nat) (instrOpToken : Z) : P unit :=
  nextToken ;; acceptEOS.

Definition parseModeTypeInstr (fuel : nat) (instrOpToken : Z) : P unit :=
  nextToken ;;
  instrFlags <- parseInstrOptions instrOpToken ;;
  acceptRegR fuel ;;
  acceptComma ;;
  rExpr <- parseExpr fuel ;;
  (if isNum rExpr then
     replaceInstrGroupField OPG_MEM ;;
     when (instrOpToken =? TOK_OP_CMP) (replaceInstrOpCodeField OPF_CMP_A) ;;
     checkOfsAlignment (e_val rExpr) instrFlags ;;
     setInstrDwField instrFlags ;;
     depositInstrScaledImm13 (to_u32 (e_val rExpr)) ;;
     acceptLparen ;;
     acceptRegB fuel ;;
     acceptRparen ;;
     acceptEOS
   else if isGReg rExpr then
     c <- isToken TOK_COMMA ;;
     if c then
       when (hasDataWidthFlags instrFlags) (throw ERR_INVALID_INSTR_MODE) ;;
       replaceInstrGroupField OPG_ALU ;;
       let tmpRegId := to_i32 (e_val rExpr) in
       nextToken ;;
       rExpr <- parseExpr fuel ;;
       (if isNum rExpr then
          (if instrOpToken =? TOK_OP_CMP
           then replaceInstrOpCodeField OPF_CMP_B
           else depositBit 19 true) ;;
          depositRegB tmpRegId ;;
          depositInstrImm15 (to_u32 (e_val rExpr))
        else if isGReg rExpr then
          when (instrOpToken =? TOK_OP_CMP) (replaceInstrOpCodeField OPF_CMP_A) ;;
          depositRegB tmpRegId ;;
          depositRegA (e_val rExpr)
        else throw ERR_EXPECTED_GENERAL_REG) ;;
       acceptEOS
     else
       l <- isToken TOK_LPAREN ;;
       if l then
         replaceInstrGroupField OPG_MEM ;;
         (if instrOpToken =? TOK_OP_CMP
          then replaceInstrOpCodeField OPF_CMP_B
          else depositBit 19 true) ;;
         setInstrDwField instrFlags ;;
         depositRegA (e_val rExpr) ;;
         nextToken ;;
         acceptRegB fuel ;;
         acceptRparen ;;
         acceptEOS
       else throw ERR_EXPECTED_COMMA
   else ret tt) ;;
  if (instrOpToken =? TOK_OP_AND) || (instrOpToken =? TOK_OP_OR) then
    when (has instrFlags IF_C) (depositBit 20 true) ;;
    when (has instrFlags IF_N) (depositBit 21 true)
  else if instrOpToken =? TOK_OP_XOR then
    when (has instrFlags IF_N) (depositBit 21 true)
  else if instrOpToken =? TOK_OP_CMP then
    when (negb (hasCmpCodeFlags instrFlags)) (throw ERR_INVALID_INSTR_MODE) ;;
    setInstrCompareCondField instrFlags
  else ret tt.

Definition parseInstrEXTR (fuel : nat) (instrOpToken : Z) : P unit :=
  nextToken ;;
  instrFlags <- parseInstrOptions instrOpToken ;;
  acceptRegR fuel ;;
  acceptComma ;;
  acceptRegB fuel ;;
  acceptComma ;;
  rExpr <- parseExpr fuel ;;
  pos <- (if isNum rExpr then
            depositInstrFieldU 6 6 (e_val rExpr) ;; ret (to_u32 (e_val rExpr))
          else if isSAR rExpr then depositBit 13 true ;; ret 0
          else throw ERR_EXPECTED_POS_ARG) ;;
  acceptComma ;;
  rExpr <- parseExpr fuel ;;
  len <- (if isNum rExpr then
            depositInstrFieldU 0 6 (e_val rExpr) ;; ret (to_u32 (e_val rExpr))
          else throw ERR_EXPECTED_LEN_ARG) ;;
  when (has instrFlags IF_S) (depositBit 12 true) ;;
  acceptEOS ;;
  when (to_u32 (pos + len) >? 64) (throw ERR_BIT_RANGE_EXCEEDS).

Definition parseInstrDEP (fuel : nat) (instrOpToken : Z) : P unit :=
  nextToken ;;
  instrFlags <- parseInstrOptions instrOpToken ;;
  when (has instrFlags IF_Z) (depositBit 12 true) ;;
  acceptRegR fuel ;;
  acceptComma ;;
  rExpr <- parseExpr fuel ;;
  (if isGReg rExpr then depositRegB (e_val rExpr)
   else if isNum rExpr then
     depositInstrFieldU 15 4 (e_val rExpr) ;; depositBit 14 true
   else throw ERR_EXPECTED_POS_ARG) ;;
  acceptComma ;;
  rExpr <- parseExpr fuel ;;
  pos <- (if isSAR rExpr then depositBit 13 true ;; ret 0
          else if isNum rExpr then
            depositInstrFieldU 6 6 (e_val rExpr) ;; ret (to_u32 (e_val rExpr))
          else throw ERR_EXPECTED_POS_ARG) ;;
  acceptComma ;;
  rExpr <- parseExpr fuel ;;
  len <- (if isNum rExpr then
            depositInstrFieldU 0 6 (e_val rExpr) ;; ret (to_u32 (e_val rExpr))
          else throw ERR_EXPECTED_LEN_ARG) ;;
  acceptEOS ;;
  when (to_u32 (pos + len) >? 64) (throw ERR_BIT_RANGE_EXCEEDS).

Definition parseInstrDSR (fuel : nat) (instrOpToken : Z) : P unit :=
  nextToken ;;
  acceptRegR fuel ;;
  acceptComma ;;
  acceptRegB fuel ;;
  acceptComma ;;
  acceptRegA fuel ;;
  acceptComma ;;
  rExpr <- parseExpr fuel ;;
  (if isNum rExpr then depositInstrFieldU 0 6 (e_val rExpr)
   else if isSAR rExpr then depositBit 13 true
   else throw ERR_EXPECTED_LEN_ARG) ;;
  acceptEOS.

(** SHLxA and SHRxA: [tok1], [tok2], [tok3] are the three mnemonics and
    [optReg], [optImm] the option field values of the two forms. *)
Definition parseShiftAdd (tok1 tok2 tok3 optReg optImm : Z)
           (fuel : nat) (instrOpToken : Z) : P unit :=
  nextToken ;;
  instrFlags <- parseInstrOptions instrOpToken ;;
  (if instrOpToken =? tok1 then depositField 13 2 1
   else if instrOpToken =? tok2 then depositField 13 2 2
   else if instrOpToken =? tok3 then depositField 13 2 3
   else ret tt) ;;
  acceptRegR fuel ;;
  acceptComma ;;
  acceptRegB fuel ;;
  acceptComma ;;
  rExpr <- parseExpr fuel ;;
  (if isGReg rExpr then
     depositField 19 3 optReg ;; depositRegA (e_val rExpr)
   else if isNum rExpr then
     depositField 19 3 optImm ;; depositInstrImm13 (to_u32 (e_val rExpr))
   else throw ERR_EXPECTED_GENERAL_REG) ;;
  acceptEOS.

Definition parseInstrSHLxA :=
  parseShiftAdd TOK_OP_SHL1A TOK_OP_SHL2A TOK_OP_SHL3A 0 1.
Definition parseInstrSHRxA :=
  parseShiftAdd TOK_OP_SHR1A TOK_OP_SHR2A TOK_OP_SHR3A 2 3.

Definition parseInstrImmOp (fuel : nat) (instrOpToken : Z) : P unit :=
  nextToken ;;
  instrFlags <- parseInstrOptions instrOpToken ;;
  (if has instrFlags IF_L then depositInstrFieldU 20 2 1
   else if has instrFlags IF_M then depositInstrFieldU 20 2 2
   else if has instrFlags IF_U then depositInstrFieldU 20 2 3
   else depositInstrFieldU 20 2 1) ;;
  acceptRegR fuel ;;
  acceptComma ;;
  rExpr <- parseExpr fuel ;;
  (if isNum rExpr then depositInstrImm20U (to_u32 (e_val rExpr))
   else throw ERR_EXPECTED_NUMERIC) ;;
  acceptEOS.

Definition parseInstrLDO (fuel : nat) (instrOpToken : Z) : P unit :=
  nextToken ;;
  instrFlags <- parseInstrOptions instrOpToken ;;
  setInstrDwField instrFlags ;;
  acceptRegR fuel ;;
  acceptComma ;;
  rExpr <- parseExpr fuel ;;
  (if isNum rExpr then
     checkOfsAlignment (e_val rExpr) instrFlags ;;
     depositInstrScaledImm13 (to_u32 (e_val rExpr))
   else if isGReg rExpr then
     when (hasDataWidthFlags instrFlags && negb (has instrFlags IF_D))
          (throw ERR_INVALID_INSTR_OPT) ;;
     depositInstrFieldU 13 2 0 ;;
     depositBit 19 true ;;
     depositRegA (e_val rExpr)
   else depositInstrScaledImm13 0) ;;
  acceptLparen ;;
  acceptRegB fuel ;;
  acceptRparen ;;
  acceptEOS.

Definition parseMemOp (fuel : nat) (instrOpToken : Z) : P unit :=
  nextToken ;;
  instrFlags <- parseInstrOptions instrOpToken ;;
  setInstrDwField instrFlags ;;
  acceptRegR fuel ;;
  acceptComma ;;
  when (has instrFlags IF_U) (depositBit 20 true) ;;
  rExpr <- parseExpr fuel ;;
  (if isNum rExpr then
     depositBit 19 false ;;
     depositInstrScaledImm13 (to_u32 (e_val rExpr))
   else if isGReg rExpr then
     when ((instrOpToken =? TOK_OP_LDR) || (instrOpToken =? TOK_OP_STC))
          (throw ERR_INVALID_INSTR_MODE) ;;
     depositBit 19 true ;;
     depositRegA (e_val rExpr)
   else throw ERR_EXPECTED_NUMERIC) ;;
  acceptLparen ;;
  acceptRegB fuel ;;
  acceptRparen ;;
  acceptEOS.

Definition parseInstrB (fuel : nat) (instrOpToken : Z) : P unit :=
  nextToken ;;
  instrFlags <- parseInstrOptions instrOpToken ;;
  when (has instrFlags IF_G) (depositBit 19 true) ;;
  rExpr <- parseExpr fuel ;;
  (if isNum rExpr then
     when (negb (isAlignedOfs (e_val rExpr) 4)) (throw ERR_INVALID_OFS) ;;
     depositInstrImm19 (to_u32 (Z.shiftr (e_val rExpr) 2))
   else throw ERR_EXPECTED_BR_OFS) ;;
  optionalRegR fuel.

Definition parseInstrBE (fuel : nat) (instrOpToken : Z) : P unit :=
  nextToken ;;
  rExpr <- parseExpr fuel ;;
  (if isNum rExpr then
     when (negb (isAlignedOfs (e_val rExpr) 4)) (throw ERR_INVALID_OFS) ;;
     depositInstrImm15 (Z.shiftr (to_u32 (e_val rExpr)) 2) ;;
     acceptLparen ;;
     acceptRegB fuel ;;
     acceptRparen
   else if isGReg rExpr then depositRegB (e_val rExpr)
   else ret tt) ;;
  optionalRegR fuel.

Definition branchWidth (instrFlags : Z) : P unit :=
  if has instrFlags IF_W then depositField 13 2 0
  else if has instrFlags IF_D then depositField 13 2 1
  else if has instrFlags IF_Q then depositField 13 2 2
  else depositField 13 2 0.

Definition parseInstrBR (fuel : nat) (instrOpToken : Z) : P unit :=
  nextToken ;;
  instrFlags <- parseInstrOptions instrOpToken ;;
  branchWidth instrFlags ;;
  acceptRegB fuel ;;
  optionalRegR fuel.

(** The form [ [ <RegX> ] "(" <RegB> ")" ] shared by BV, LPA and the
    TLB and cache purge and flush instructions. *)
Definition indexedOperand (fuel : nat) : P unit :=
  g <- isTokenTyp TYP_GREG ;;
  when g (acceptRegA fuel) ;;
  rExpr <- parseExpr fuel ;;
  if isGReg rExpr then depositRegB (e_val rExpr)
  else throw ERR_EXPECTED_LPAREN.

Definition parseInstrBV (fuel : nat) (instrOpToken : Z) : P unit :=
  nextToken ;;
  instrFlags <- parseInstrOptions instrOpToken ;;
  branchWidth instrFlags ;;
  indexedOperand fuel ;;
  optionalRegR fuel.

Definition parseInstrBB (fuel : nat) (instrOpToken : Z) : P unit :=
  nextToken ;;
  instrFlags <- parseInstrOptions instrOpToken ;;
  (if has instrFlags IF_T then depositBit 19 true
   else if has instrFlags IF_F then depositBit 19 false
   else throw ERR_EXPECTED_INSTR_OPT) ;;
  acceptRegR fuel ;;
  acceptComma ;;
  rExpr <- parseExpr fuel ;;
  (if isNum rExpr then depositInstrFieldU 13 6 (e_val rExpr)
   else if isSAR rExpr then depositBit 20 true
   else throw ERR_EXPECTED_POS_ARG) ;;
  acceptComma ;;
  rExpr <- parseExpr fuel ;;
  (if isNum rExpr then
     when (negb (isAlignedOfs (e_val rExpr) 4)) (throw ERR_INVALID_OFS) ;;
     depositInstrImm13 (to_u32 (Z.shiftr (e_val rExpr) 2))
   else throw ERR_EXPECTED_BR_OFS) ;;
  acceptEOS.

Definition parseInstrXBR (fuel : nat) (instrOpToken : Z) : P unit :=
  nextToken ;;
  instrFlags <- parseInstrOptions instrOpToken ;;
  when (negb (hasCmpCodeFlags instrFlags)) (throw ERR_EXPECTED_INSTR_OPT) ;;
  setInstrCompareCondField instrFlags ;;
  acceptRegR fuel ;;
  acceptComma ;;
  acceptRegB fuel ;;
  acceptComma ;;
  rExpr <- parseExpr fuel ;;
  (if isNum rExpr then
     when (negb (isAlignedOfs (e_val rExpr) 4)) (throw ERR_INVALID_OFS) ;;
     depositInstrImm15 (to_u32 (Z.shiftr (e_val rExpr) 2))
   else throw ERR_EXPECTED_BR_OFS) ;;
  acceptEOS.

Definition parseInstrMFCR (fuel : nat) (instrOpToken : Z) : P unit :=
  nextToken ;;
  acceptRegB fuel ;;
  acceptComma ;;
  rExpr <- parseExpr fuel ;;
  (if isCReg rExpr then depositField 0 6 (to_u32 (e_val rExpr))
   else throw ERR_EXPECTED_CONTROL_REG) ;;
  acceptEOS.

Definition parseInstrMTCR (fuel : nat) (instrOpToken : Z) : P unit :=
  nextToken ;;
  acceptRegB fuel ;;
  acceptComma ;;
  rExpr <- parseExpr fuel ;;
  (if isCReg rExpr then depositField 0 6 (to_u32 (e_val rExpr))
   else throw ERR_EXPECTED_CONTROL_REG) ;;
  c <- isToken TOK_COMMA ;;
  when c (nextToken ;; acceptRegR fuel) ;;
  acceptEOS.

Definition parseInstrMFIA (fuel : nat) (instrOpToken : Z) : P unit :=
  nextToken ;;
  instrFlags <- parseInstrOptions instrOpToken ;;
  (if has instrFlags IF_A then depositInstrFieldU 19 2 0
   else if has instrFlags IF_L then depositInstrFieldU 19 2 1
   else if has instrFlags IF_R then depositInstrFieldU 19 2 2
   else depositInstrFieldU 19 2 0) ;;
  nextToken ;;
  acceptRegR fuel ;;
  acceptEOS.

Definition parseInstrLPA (fuel : nat) (instrOpToken : Z) : P unit :=
  nextToken ;;
  acceptRegR fuel ;;
  acceptComma ;;
  indexedOperand fuel ;;
  acceptEOS.

Definition parseInstrPRB (fuel : nat) (instrOpToken : Z) : P unit :=
  nextToken ;;
  acceptRegR fuel ;;
  acceptComma ;;
  acceptRegB fuel ;;
  acceptComma ;;
  rExpr <- parseExpr fuel ;;
  (if isGReg rExpr then
     depositRegA (e_val rExpr) ;; depositInstrFieldU 13 2 3
   else if isNum rExpr then depositField 13 2 (e_val rExpr)
   else throw ERR_EXPECTED_PRB_ARG) ;;
  acceptEOS.

Definition parseInstrInsertTlb (fuel : nat) (instrOpToken : Z) : P unit :=
  nextToken ;;
  acceptRegR fuel ;;
  acceptComma ;;
  acceptRegB fuel ;;
  acceptComma ;;
  acceptRegA fuel ;;
  acceptEOS.

Definition parseInstrPurgeTlb := parseInstrLPA.
Definition parseInstrFlushCache := parseInstrLPA.
Definition parseInstrPurgeCache := parseInstrLPA.

Definition parseInstrSregOp (fuel : nat) (instrOpToken : Z) : P unit :=
  nextToken ;;
  acceptRegR fuel ;;
  acceptComma ;;
  rExpr <- parseExpr fuel ;;
  (if isNum rExpr then depositInstrFieldU 0 8 (e_val rExpr)
   else throw ERR_EXPECTED_NUMERIC) ;;
  acceptEOS.

Definition parseInstrRFI (fuel : nat) (instrOpToken : Z) : P unit :=
  nextToken ;; acceptEOS.

Definition parseInstrDIAG (fuel : nat) (instrOpToken : Z) : P unit :=
  nextToken ;;
  acceptRegR fuel ;;
  acceptComma ;;
  rExpr <- parseExpr fuel ;;
  (if isNum rExpr then
     depositField 19 3 (Z.shiftr (to_u32 (e_val rExpr)) 2) ;;
     depositField 20 2 (to_u32 (e_val rExpr))
   else throw ERR_EXPECTED_DIAG_OP) ;;
  acceptComma ;;
  acceptRegB fuel ;;
  acceptComma ;;
  acceptRegA fuel ;;
  acceptEOS.

Definition parseInstrTrapOp (fuel : nat) (instrOpToken : Z) : P unit :=
  nextToken ;;
  rExpr <- parseExpr fuel ;;
  (if isNum rExpr then
     depositField 13 2 (Z.land (e_val rExpr) 3) ;;
     depositField 19 3 (Z.land (Z.shiftr (e_val rExpr) 2) 7)
   else throw ERR_EXPECTED_NUMERIC) ;;
  acceptComma ;;
  acceptRegB fuel ;;
  acceptComma ;;
  acceptRegA fuel ;;
  acceptEOS.

(** *** parseLine and the entry points of [T64Assemble] *)

Definition parserFor (instrOpToken : Z) : option (nat -> Z -> P unit) :=
  let op := Z.eqb instrOpToken in
  if op TOK_OP_NOP then Some parseNopInstr
  else if op TOK_OP_ADD || op TOK_OP_SUB || op TOK_OP_AND || op TOK_OP_OR
          || op TOK_OP_XOR || op TOK_OP_CMP then Some parseModeTypeInstr
  else if op TOK_OP_EXTR then Some parseInstrEXTR
  else if op TOK_OP_DEP then Some parseInstrDEP
  else if op TOK_OP_DSR then Some parseInstrDSR
  else if op TOK_OP_SHL1A || op TOK_OP_SHL2A || op TOK_OP_SHL3A
  then Some parseInstrSHLxA
  else if op TOK_OP_SHR1A || op TOK_OP_SHR2A || op TOK_OP_SHR3A
  then Some parseInstrSHRxA
  else if op TOK_OP_LDIL || op TOK_OP_ADDIL then Some parseInstrImmOp
  else if op TOK_OP_LDO then Some parseInstrLDO
  else if op TOK_OP_LD || op TOK_OP_LDR || op TOK_OP_ST || op TOK_OP_STC
  then Some parseMemOp
  else if op TOK_OP_B then Some parseInstrB
  else if op TOK_OP_BE then Some parseInstrBE
  else if op TOK_OP_BR then Some parseInstrBR
  else if op TOK_OP_BV then Some parseInstrBV
  else if op TOK_OP_BB then Some parseInstrBB
  else if op TOK_OP_ABR || op TOK_OP_MBR || op TOK_OP_CBR
  then Some parseInstrXBR
  else if op TOK_OP_MFCR then Some parseInstrMFCR
  else if op TOK_OP_MTCR then Some parseInstrMTCR
  else if op TOK_OP_MFIA then Some parseInstrMFIA
  else if op TOK_OP_LPA then Some parseInstrLPA
  else if op TOK_OP_PRB then Some parseInstrPRB
  else if op TOK_OP_IITLB || op TOK_OP_IDTLB then Some parseInstrInsertTlb
  else if op TOK_OP_PITLB || op TOK_OP_PDTLB then Some parseInstrPurgeTlb
  else if op TOK_OP_PICA || op TOK_OP_PDCA then Some parseInstrPurgeCache
  else if op TOK_OP_FICA || op TOK_OP_FDCA then Some parseInstrFlushCache
  else if op TOK_OP_SSM || op TOK_OP_RSM then Some parseInstrSregOp
  else if op TOK_OP_RFI then Some parseInstrRFI
  else if op TOK_OP_DIAG then Some parseInstrDIAG
  else if op TOK_OP_TRAP then Some parseInstrTrapOp
  else None.

Definition parseLine (fuel : nat) (inputStr : string) : P unit :=
  setupTokenizer inputStr ;;
  t <- getTok ;;
  if typEqb (typ t) TYP_OP_CODE then
    let instrOpToken := to_u32 (tid t) in
    setInstr (to_u32 (val t)) ;;
    match parserFor instrOpToken with
    | Some parse => parse fuel instrOpToken
    | None => throw ERR_INVALID_OP_CODE
    end
  else throw ERR_EXPECTED_OPCODE.

(** What the caller of [assembleInstr] has afterwards: the value returned
    and the globals (with the instruction word cell), or nothing when the
    call does not come back. *)
Inductive Outcome : Type :=
| Returns (errNum : Z) (st : AsmState)
| NoReturn
| NotDefined.

Definition assembleInstr (fuel : nat) (inputStr : string) (st : AsmState)
  : Outcome :=
  match parseLine fuel inputStr st with
  | Ok _ st' => Returns NO_ERR st'
  | Err errNum st' => Returns errNum (set_lastErr (set_instrCell st' 0) errNum)
  | Diverge => NoReturn
  | Undef => NotDefined
  end.

Definition getErrId (st : AsmState) : Z := lastErr st.
Definition getErrPos (st : AsmState) : Z := currentTokCharIndex st.

End WithCommon.

Arguments Ok {A} a st.
Arguments Err {A} e st.
Arguments Diverge {A}.
Arguments Undef {A}.

End Asm.

(* ------------------------------------------------------------------------- *)
(** ** T64-InlineDisAsm.cpp *)
(* ------------------------------------------------------------------------- *)

Module DisAsm.

Local Open Scope string_scope.
Local Open Scope Z_scope.

Definition LEN_16 : Z := 16.
Definition LEN_32 : Z := 32.

(** [snprintf( buf, size, ... )] keeps at most [size - 1] characters of
    the formatted text.  No text formatted below reaches that size, so
    the value [snprintf] returns is the length of what it wrote. *)
Definition snprintf (size : Z) (text : string) : string :=
  substring 0 (Z.to_nat (size - 1)) text.

Definition strlenZ (s : string) : Z := Z.of_nat (String.length s).

(** The conversion [%d]. *)
Definition dec (z : Z) : string := NilZero.string_of_int (Z.to_int z).

Definition printCondField (cmpCode : Z) : string :=
  match cmpCode with
  | 0 => snprintf 4 ".EQ"
  | 1 => snprintf 4 ".LT"
  | 2 => snprintf 4 ".GT"
  | 3 => snprintf 4 ".EV"
  | 4 => snprintf 4 ".NE"
  | 5 => snprintf 4 ".GE"
  | 6 => snprintf 4 ".LE"
  | 7 => snprintf 4 ".OD"
  | _ => snprintf 4 ".**"
  end.

Definition printDwField (dw : Z) : string :=
  match dw with
  | 0 => snprintf 4 ".B"
  | 1 => snprintf 4 ".H"
  | 2 => snprintf 4 ".W"
  | 3 => ""
  | _ => snprintf 8 ".*dw*"
  end.

(** [if ( bit ) cursor += snprintf( buf + cursor, 4, text )] *)
Definition ifBit (instr bit : Z) (text : string) : string :=
  if z2b (extractInstrBit instr bit) then snprintf 4 text else "".

Section WithCommon.
Context {C : T64Common}.

(** A [switch] over [group * 16 + family]: the first case whose label is
    the key, or the default. *)
Fixpoint switchOn {A : Type} (key : Z) (cases : list (Z * A)) (default : A) : A :=
  match cases with
  | [] => default
  | (label, a) :: rest => if key =? label then a else switchOn key rest default
  end.

Definition ALU (opc : Z) : Z := OPC_GRP_ALU * 16 + opc.
Definition MEM (opc : Z) : Z := OPC_GRP_MEM * 16 + opc.
Definition BR (opc : Z) : Z := OPC_GRP_BR * 16 + opc.
Definition SYS (opc : Z) : Z := OPC_GRP_SYS * 16 + opc.

Definition logicOpCodeStr (mnemonic : string) (dw : bool) (star : bool)
           (instr : Z) : string :=
  snprintf LEN_16 mnemonic
  ++ (if dw then printDwField (extractInstrDwField instr) else "")
  ++ ifBit instr 20 (if star then ".**" else ".C")
  ++ ifBit instr 21 ".N".

Definition shaOpCodeStr (instr : Z) : string :=
  let dw := extractInstrFieldU instr 13 2 in
  match extractInstrFieldU instr 19 3 with
  | 0 | 1 =>
      match dw with
      | 1 => snprintf LEN_16 "SHL1A"
      | 2 => snprintf LEN_16 "SHL2A"
      | 3 => snprintf LEN_16 "SHL3A"
      | _ => snprintf LEN_16 "**SHAOP**"
      end
  | 2 | 3 =>
      match dw with
      | 1 => snprintf LEN_16 "SHR1A"
      | 2 => snprintf LEN_16 "SHR2A"
      | 3 => snprintf LEN_16 "SHR3A"
      | _ => snprintf LEN_16 "**SHAOP**"
      end
  | _ => snprintf LEN_16 "**SHAOP**"
  end.

Definition branchOpCodeStr (mnemonic : string) (instr : Z) : string :=
  snprintf LEN_16 mnemonic
  ++ (if negb (extractInstrFieldU instr 20 2 =? 0) then snprintf 4 ".**" else "")
  ++ ifBit instr 19 ".G".

(** BR and BV share one case, which prints "BR". *)
Definition brBvOpCodeStr (instr : Z) : string :=
  snprintf LEN_16 "BR"
  ++ (let dw := extractInstrFieldU instr 13 2 in
      if dw =? 0 then snprintf 4 ".W"
      else if dw =? 1 then snprintf 4 ".D"
      else if dw =? 2 then snprintf 4 ".Q"
      else snprintf 4 ".**").

Definition condOpCodeStr (mnemonic : string) (instr : Z) : string :=
  snprintf LEN_16 mnemonic ++ printCondField (extractInstrFieldU instr 19 3).

Definition buildOpCodeStr (instr : Z) : string :=
  let opCode := to_u32 (extractInstrOpGroup instr * 16 + extractInstrOpCode instr) in
  let opt := extractInstrFieldU instr 19 3 in
  switchOn opCode
    [ (ALU OPC_ADD, snprintf LEN_16 "ADD");
      (MEM OPC_ADD, snprintf LEN_16 "ADD" ++ printDwField (extractInstrDwField instr));
      (ALU OPC_SUB, snprintf LEN_16 "SUB");
      (MEM OPC_SUB, snprintf LEN_16 "SUB" ++ printDwField (extractInstrDwField instr));
      (ALU OPC_AND, logicOpCodeStr "AND" false false instr);
      (MEM OPC_AND, logicOpCodeStr "AND" true false instr);
      (ALU OPC_OR, logicOpCodeStr "OR" false false instr);
      (MEM OPC_OR, logicOpCodeStr "OR" true false instr);
      (ALU OPC_XOR, logicOpCodeStr "XOR" false true instr);
      (MEM OPC_XOR, logicOpCodeStr "XOR" true true instr);
      (ALU OPC_CMP_A, condOpCodeStr "CMP" instr);
      (ALU OPC_CMP_B, condOpCodeStr "CMP" instr);
      (MEM OPC_CMP_A,
        condOpCodeStr "CMP" instr ++ printDwField (extractInstrDwField instr));
      (MEM OPC_CMP_B,
        condOpCodeStr "CMP" instr ++ printDwField (extractInstrDwField instr));
      (ALU OPC_BITOP,
        match opt with
        | 0 => snprintf LEN_16 "EXTR" ++ ifBit instr 12 ".S"
        | 1 => snprintf LEN_16 "DEP" ++ ifBit instr 12 ".Z"
        | 2 => snprintf LEN_16 "DSR"
        | _ => snprintf LEN_16 "**BITOP**"
        end);
      (ALU OPC_SHAOP, shaOpCodeStr instr);
      (ALU OPC_IMMOP,
        match extractInstrFieldU instr 20 2 with
        | 0 => snprintf LEN_16 "ADDIL"
        | 1 => snprintf LEN_16 "LDI.L"
        | 2 => snprintf LEN_16 "LDI.S"
        | _ => snprintf LEN_16 "LDI.U"
        end);
      (ALU OPC_LDO,
        snprintf LEN_16 "LDO"
        ++ (if opt =? 0 then printDwField (extractInstrDwField instr) else ""));
      (MEM OPC_LD,
        snprintf LEN_16 "LD" ++ ifBit instr 20 ".U"
        ++ printDwField (extractInstrDwField instr));
      (MEM OPC_ST, snprintf LEN_16 "ST" ++ printDwField (extractInstrDwField instr));
      (MEM OPC_LDR, snprintf LEN_16 "LDR" ++ ifBit instr 20 ".U");
      (MEM OPC_STC,
        snprintf LEN_16 "STC" ++ (if negb (opt =? 0) then snprintf 4 ".**" else ""));
      (BR OPC_B, branchOpCodeStr "B" instr);
      (BR OPC_BE, branchOpCodeStr "BE" instr);
      (BR OPC_BR, brBvOpCodeStr instr);
      (BR OPC_BV, brBvOpCodeStr instr);
      (BR OPC_BB,
        snprintf LEN_16 "BB" ++ ifBit instr 21 ".**"
        ++ (if z2b (extractInstrBit instr 19) then snprintf 4 ".T"
            else snprintf 4 ".F"));
      (BR OPC_CBR, condOpCodeStr "CBR" instr);
      (BR OPC_MBR, condOpCodeStr "MBR" instr);
      (BR OPC_ABR, condOpCodeStr "ABR" instr);
      (SYS OPC_MR,
        if opt =? 0 then snprintf 8 "MFCR"
        else if opt =? 1 then snprintf 8 "MTCR"
        else if z2b (extractInstrBit instr 21) then snprintf 8 "MFIA"
        else snprintf LEN_16 "**MROP**");
      (SYS OPC_LPA,
        if opt =? 0 then snprintf LEN_16 "LPA" else snprintf LEN_16 "**LPAOP**");
      (SYS OPC_PRB,
        if opt =? 0 then snprintf LEN_16 "PRB" else snprintf LEN_16 "**PRBOP**");
      (SYS OPC_TLB,
        match opt with
        | 0 => snprintf LEN_16 "IITLB"
        | 1 => snprintf LEN_16 "IDTLB"
        | 2 => snprintf LEN_16 "PITLB"
        | 3 => snprintf LEN_16 "PDTLB"
        | _ => snprintf 8 "**TLB**"
        end);
      (SYS OPC_CA,
        match opt with
        | 0 => snprintf LEN_16 "PICA"
        | 1 => snprintf LEN_16 "PDCA"
        | 2 => snprintf LEN_16 "FICA"
        | 3 => snprintf LEN_16 "FDCA"
        | _ => snprintf 8 "**CA**"
        end);
      (SYS OPC_MST,
        if opt =? 0 then snprintf LEN_16 "RSM"
        else if opt =? 1 then snprintf LEN_16 "SSM"
        else snprintf 8 "**MST**");
      (SYS OPC_RFI, snprintf LEN_16 "RFI");
      (SYS OPC_TRAP, snprintf LEN_16 "TRAP");
      (SYS OPC_DIAG, snprintf LEN_16 "DIAG");
      (ALU OPC_NOP, snprintf LEN_16 "NOP") ]
    (snprintf LEN_16 ("**OPC:" ++ dec opCode ++ "**")).

(** *** The operands *)

Definition R (n : Z) : string := "R" ++ dec n.

(** "R%d,R%d,%d" or "R%d,R%d,R%d", by the bit tested. *)
Definition regRegImmOrReg (imm : bool) (instr : Z) : string :=
  if imm then
    snprintf LEN_32 (R (extractInstrRegR instr) ++ "," ++ R (extractInstrRegB instr)
                     ++ "," ++ dec (extractInstrSignedImm15 instr))
  else
    snprintf LEN_32 (R (extractInstrRegR instr) ++ "," ++ R (extractInstrRegB instr)
                     ++ "," ++ R (extractInstrRegA instr)).

(** "R%d,%d(R%d)" or "R%d,R%d(R%d)". *)
Definition regOfsOrIndex (ofs : bool) (instr : Z) : string :=
  if ofs then
    snprintf LEN_32 (R (extractInstrRegR instr) ++ ","
                     ++ dec (extractInstrSignedScaledImm13 instr)
                     ++ "(" ++ R (extractInstrRegB instr) ++ ")")
  else
    snprintf LEN_32 (R (extractInstrRegR instr) ++ "," ++ R (extractInstrRegA instr)
                     ++ "(" ++ R (extractInstrRegB instr) ++ ")").

Definition optReg (prefix : string) (r : Z) (suffix : string) : string :=
  if negb (r =? 0) then snprintf LEN_32 (prefix ++ R r ++ suffix) else "".

Definition bitOpOperands (instr : Z) : string :=
  let len := dec (extractInstrFieldU instr 0 6) in
  let pos := dec (extractInstrFieldU instr 6 6) in
  let rr := R (extractInstrRegR instr) in
  let rb := R (extractInstrRegB instr) in
  let ra := R (extractInstrRegA instr) in
  let sar := z2b (extractInstrBit instr 13) in
  match extractInstrFieldU instr 19 3 with
  | 0 =>
      if sar then snprintf LEN_32 (rr ++ "," ++ rb ++ ",SAR," ++ len)
      else snprintf LEN_32 (rr ++ "," ++ rb ++ "," ++ pos ++ "," ++ len)
  | 1 =>
      let src := if z2b (extractInstrBit instr 14)
                 then dec (extractInstrFieldU instr 15 4) else rb in
      if sar then snprintf LEN_32 (rr ++ "," ++ src ++ ",SAR," ++ len)
      else snprintf LEN_32 (rr ++ "," ++ src ++ "," ++ pos ++ "," ++ len)
  | 2 =>
      if sar then snprintf LEN_32 (rr ++ "," ++ rb ++ "," ++ ra ++ ",SAR")
      else snprintf LEN_32 (rr ++ "," ++ rb ++ "," ++ ra ++ "," ++ len)
  | _ => snprintf LEN_32 "**BITOP**"
  end.

Definition lpaOperands (instr : Z) : string :=
  snprintf LEN_32 (R (extractInstrRegR instr) ++ ",")
  ++ optReg "" (extractInstrRegA instr) ""
  ++ snprintf LEN_32 ("(" ++ R (extractInstrRegB instr) ++ ")").

Definition caOperands (instr : Z) : string :=
  optReg "" (extractInstrRegR instr) ","
  ++ optReg "" (extractInstrRegA instr) ""
  ++ snprintf LEN_32 ("(" ++ R (extractInstrRegB instr) ++ ")").

Definition cbrOperands (instr : Z) : string :=
  snprintf LEN_32 (R (extractInstrRegR instr) ++ "," ++ R (extractInstrRegB instr))
  ++ snprintf LEN_32 ("," ++ dec (to_i32 (Z.shiftl (extractInstrSignedImm15 instr) 2))).

Definition buildOperandStr (instr rdx : Z) : string :=
  let opCode := to_u32 (extractInstrFieldU instr 30 2 * 16
                        + extractInstrFieldU instr 26 4) in
  let opt := extractInstrFieldU instr 19 3 in
  let aluOperands := regRegImmOrReg (z2b (extractInstrBit instr 19)) instr in
  let cmpOperands := regRegImmOrReg (z2b (extractInstrBit instr 26)) instr in
  let memOperands := regOfsOrIndex (extractInstrBit instr 19 =? 0) instr in
  let memCmpOperands := regOfsOrIndex (extractInstrBit instr 26 =? 0) instr in
  switchOn opCode
    [ (ALU OPC_ADD, aluOperands); (ALU OPC_SUB, aluOperands);
      (ALU OPC_AND, aluOperands); (ALU OPC_OR, aluOperands);
      (ALU OPC_XOR, aluOperands);
      (ALU OPC_CMP_A, cmpOperands); (ALU OPC_CMP_B, cmpOperands);
      (ALU OPC_BITOP, bitOpOperands instr);
      (ALU OPC_SHAOP, aluOperands);
      (ALU OPC_IMMOP,
        snprintf LEN_32 (R (extractInstrRegR instr) ++ ","
                         ++ dec (extractInstrImm20 instr)));
      (MEM OPC_ADD, memOperands); (MEM OPC_SUB, memOperands);
      (MEM OPC_AND, memOperands); (MEM OPC_OR, memOperands);
      (MEM OPC_XOR, memOperands); (MEM OPC_LD, memOperands);
      (MEM OPC_ST, memOperands); (MEM OPC_LDR, memOperands);
      (MEM OPC_STC, memOperands);
      (MEM OPC_CMP_A, memCmpOperands); (MEM OPC_CMP_B, memCmpOperands);
      (ALU OPC_LDO,
        if opt =? 0 then regOfsOrIndex true instr
        else if opt =? 1 then regOfsOrIndex false instr
        else snprintf LEN_32 "***");
      (BR OPC_B,
        snprintf LEN_32 (dec (to_i32 (Z.shiftl (extractInstrSignedImm19 instr) 2)))
        ++ optReg "," (extractInstrRegR instr) "");
      (BR OPC_BE,
        (if negb (extractInstrSignedImm15 instr =? 0)
         then snprintf LEN_32
                (dec (to_i32 (Z.shiftl (extractInstrSignedImm15 instr) 2)))
         else "")
        ++ snprintf LEN_32 ("(" ++ R (extractInstrRegB instr) ++ ")")
        ++ optReg "," (extractInstrRegR instr) "");
      (BR OPC_BR,
        snprintf LEN_32 (R (extractInstrRegB instr))
        ++ optReg "," (extractInstrRegR instr) "");
      (BR OPC_BV,
        (if negb (extractInstrRegA instr =? 0)
         then snprintf LEN_16 (R (extractInstrRegA instr)) else "")
        ++ snprintf LEN_32 ("(" ++ R (extractInstrRegB instr) ++ ")")
        ++ optReg "," (extractInstrRegR instr) "");
      (BR OPC_BB,
        snprintf LEN_32 (R (extractInstrRegR instr))
        ++ (if z2b (extractInstrBit instr 20) then snprintf LEN_32 ",SAR"
            else snprintf LEN_32 ("," ++ dec (extractInstrFieldU instr 13 6)))
        ++ snprintf LEN_32
             ("," ++ dec (to_i32 (Z.shiftl (extractInstrSignedImm13 instr) 2))));
      (BR OPC_ABR, cbrOperands instr); (BR OPC_CBR, cbrOperands instr);
      (BR OPC_MBR, cbrOperands instr);
      (SYS OPC_MR,
        if opt =? 0 then
          snprintf LEN_32 (R (extractInstrRegR instr) ++ ", C"
                           ++ dec (extractInstrFieldU instr 0 6))
        else if opt =? 1 then
          snprintf LEN_32 (R (extractInstrRegR instr) ++ ", C"
                           ++ dec (extractInstrRegB instr) ++ ","
                           ++ R (extractInstrFieldU instr 0 6))
        else if z2b (extractInstrBit instr 21) then
          snprintf LEN_32 (R (extractInstrRegR instr))
        else lpaOperands instr);
      (SYS OPC_LPA, lpaOperands instr);
      (SYS OPC_PRB,
        let mode := extractInstrFieldU instr 13 2 in
        if (mode >=? 0) && (mode <=? 2) then
          snprintf LEN_32 (R (extractInstrRegR instr) ++ ","
                           ++ R (extractInstrRegB instr) ++ "," ++ dec mode)
        else
          snprintf LEN_32 (R (extractInstrRegR instr) ++ ","
                           ++ R (extractInstrRegB instr) ++ ","
                           ++ R (extractInstrRegA instr)));
      (SYS OPC_TLB,
        if (opt =? 0) || (opt =? 1) then
          snprintf LEN_32 (R (extractInstrRegR instr) ++ ","
                           ++ R (extractInstrRegB instr) ++ ","
                           ++ R (extractInstrRegA instr))
        else if (opt =? 2) || (opt =? 3) then caOperands instr
        else "");
      (SYS OPC_CA, caOperands instr);
      (SYS OPC_MST,
        snprintf LEN_32 (R (extractInstrRegR instr) ++ ","
                         ++ dec (extractInstrFieldU instr 0 6)));
      (SYS OPC_RFI, "");
      (SYS OPC_TRAP,
        let info := to_i32 (Z.shiftl (extractInstrFieldU instr 19 3) 2)
                    + extractInstrFieldU instr 13 2 in
        snprintf LEN_32 (dec info ++ "," ++ R (extractInstrRegB instr) ++ ","
                         ++ R (extractInstrRegA instr)));
      (SYS OPC_DIAG,
        snprintf LEN_32
          (R (extractInstrRegR instr) ++ ","
           ++ dec (to_i32 (Z.shiftl (extractInstrFieldU instr 19 3) 2)
                   + extractInstrFieldU instr 13 2)
           ++ ", " ++ R (extractInstrRegB instr) ++ ","
           ++ R (extractInstrRegA instr)));
      (ALU OPC_NOP, "") ]
    (snprintf LEN_32 ("**OPC:" ++ dec opCode ++ "**")).

(** *** The entry points of [T64DisAssemble].  [None] is the result -1. *)
Definition getOpCodeFieldWidth : Z := LEN_16.
Definition getOperandsFieldWidth : Z := LEN_32.



Definition formatInstr (bufLen instr rdx : Z) : option string :=
  if bufLen >=? getOpCodeFieldWidth + 1 + getOperandsFieldWidth then
    let opCodeStr := buildOpCodeStr instr in
    let operandBuf := buildOperandStr instr rdx in
    if strlenZ operandBuf >? 0
    then Some (opCodeStr ++ snprintf LEN_32 (" " ++ operandBuf))
    else Some opCodeStr
  else None.

End WithCommon.
End DisAsm.

(* ------------------------------------------------------------------------- *)
(** * Properties of the model *)
(* ------------------------------------------------------------------------- *)

Import Cpu.

(* ------------------------------------------------------------------------- *)
(** ** Vocabulary of the statements *)
(* ------------------------------------------------------------------------- *)

(** The range of a 4-bit instruction field. *)
Definition fits4 (z : Z) : Prop := 0 <= z < 16.

Section Vocabulary.
Context {C : T64Common} {MS : T64MemSys}.

(** A CPU object has two register files of 16 entries. *)
Definition wfCpu (s : T64Cpu) : Prop :=
  List.length (gRegFile s) = 16%nat /\ List.length (cRegFile s) = 16%nat.

(** The value a general register reads as. *)
Definition greg (s : T64Cpu) (i : Z) : Z :=
  if i =? 0 then 0 else nth (Z.to_nat i) (gRegFile s) 0.

Definition creg (s : T64Cpu) (i : Z) : Z := nth (Z.to_nat i) (cRegFile s) 0.

(** The CPU object after [setGeneralReg]. *)
Definition withGReg (s : T64Cpu) (i v : Z) : T64Cpu :=
  if i =? 0 then s else set_gRegFile s (listSet (gRegFile s) (Z.to_nat i) v).

(** The CPU object after a store to [cRegFile]. *)
Definition withCReg (s : T64Cpu) (i v : Z) : T64Cpu :=
  set_cRegFile s (listSet (cRegFile s) (Z.to_nat i) v).

(** The source operand of ALU:ADD in its two forms. *)
Definition addSource (s : T64Cpu) (instr : Z) : Z :=
  if extractInstrFieldU instr 19 3 =? 0
  then greg s (extractInstrRegA instr)
  else extractInstrSignedImm15 instr.

(** The handlers of the ALU group, and the default case. *)
Definition aluHandlers : list Handler :=
  [ AluAddOp; AluSubOp; AluAndOp; AluOrOp; AluXorOp; AluCmpOp; AluBitOp;
    AluShaOP; AluImmOp; AluLdoOp; IllegalInstr ].

(** [m] runs to a result on a well-formed CPU object and does not write
    the PSR. *)
Definition keepsPsr {A} (m : M A) : Prop :=
  forall s, wfCpu s ->
    match m s with
    | Done _ s' | Throw _ s' => wfCpu s' /\ psrReg s' = psrReg s
    | Undefined => False
    end.

(** [m] returns with the instruction address advanced by 4, or throws
    with the PSR as it was. *)
Definition advancesOrThrows (m : M unit) : Prop :=
  forall s, wfCpu s ->
    match m s with
    | Done _ s' => wfCpu s' /\ psrReg s' = addAdrOfs32 (psrReg s) 4
    | Throw _ s' => wfCpu s' /\ psrReg s' = psrReg s
    | Undefined => False
    end.

(** The opcode families of BR and BV differ from each other and from
    those listed before them in the branch group. *)
Definition brDistinct : Prop :=
  OPC_B <> OPC_BV /\ OPC_BE <> OPC_BV /\ OPC_BR <> OPC_BV
  /\ OPC_B <> OPC_BR /\ OPC_BE <> OPC_BR.

End Vocabulary.

(** CPU objects to run the model on: all registers zero; R1 at the
    largest [T64Word]; R1 and R2 at 3.  The instruction address is 0x100
    in each. *)
Definition sampleCpu : @T64Cpu noMemSys :=
  mkCpu (MS := noMemSys) (repeat 0 16) (repeat 0 16) 256 0 0 0 4294967295 tt.

Definition overflowCpu : @T64Cpu noMemSys :=
  mkCpu (MS := noMemSys) (repeat 0 16)
        [0; INT64_MAX; 0; 0; 0; 0; 0; 0; 0; 0; 0; 0; 0; 0; 0; 0]
        256 0 0 0 4294967295 tt.

Definition cbrCpu : @T64Cpu noMemSys :=
  mkCpu (MS := noMemSys) (repeat 0 16)
        [0; 3; 3; 0; 0; 0; 0; 0; 0; 0; 0; 0; 0; 0; 0; 0]
        256 0 0 0 4294967295 tt.

Module AsmTerms.
Import Asm.

Section WithCommon.
Context {C : T64Common}.

(** The complement sign is the current token. *)
Definition atNeg (st : AsmState) : Prop :=
  tid (currentToken st) = TOK_NEG /\ typ (currentToken st) = TYP_SYM.

(** The globals after a piece of the parse, and whether it finished
    without a throw. *)
Definition stateOf {A} (r : Res A) : AsmState :=
  match r with Ok _ st | Err _ st => st | _ => initialAsmState end.

Definition isOk {A} (r : Res A) : bool :=
  match r with Ok _ _ => true | _ => false end.

(** The word [parseInstrBR] and [parseInstrBV] build for the operand
    [(R2)] with no option or with [.W], from the template of opcode
    family [opc]. *)
Definition branchWord (opc : Z) : Z :=
  depositInstrRegB (depositInstrField (to_u32 (tmpl OPG_BR opc 0)) 13 2 0)
                   (to_u32 2).

(** The word [parseInstrXBR] builds for [.EQ R1, R2, 0x20]. *)
Definition cbrWord (opc : Z) : Z :=
  depositInstrField
    (depositInstrRegB
       (depositInstrRegR
          (depositInstrField (to_u32 (tmpl OPG_BR opc 0)) 19 3 (to_u32 0))
          (to_u32 1))
       (to_u32 2))
    0 15 (to_i32 (to_u32 (Z.shiftr 32 2))).

End WithCommon.
End AsmTerms.

(* ------------------------------------------------------------------------- *)
(** ** Vocabulary of the further statements *)
(* ------------------------------------------------------------------------- *)

(** The value of the low [len] bits of [x] read as a two's complement
    number. *)
Definition signedField (x len : Z) : Z :=
  (x + 2 ^ (len - 1)) mod 2 ^ len - 2 ^ (len - 1).

Section VocabularyMore.
Context {C : T64Common} {MS : T64MemSys}.

(** [s'] has the registers of [s]: the two register files, the PSR, the
    instruction register and the other members of the CPU object; the TLBs
    and caches behind [proc] may differ. *)
Definition sameRegs (s s' : T64Cpu) : Prop :=
  gRegFile s' = gRegFile s /\ cRegFile s' = cRegFile s
  /\ psrReg s' = psrReg s /\ instrReg s' = instrReg s
  /\ resvReg s' = resvReg s
  /\ lowerPhysMemAdr s' = lowerPhysMemAdr s
  /\ upperPhysMemAdr s' = upperPhysMemAdr s.

(** [m] returns or throws, and writes no register. *)
Definition quiet {A} (m : M A) : Prop :=
  forall s, wfCpu s ->
    match m s with
    | Done _ s' | Throw _ s' => sameRegs s s'
    | Undefined => False
    end.



(** The result of [regionIdCheck]: PSR bit 0 is set and one of the
    control registers 4 to 7 holds the region id with the write mode asked
    for, in its lower or its upper half. *)
Definition regionOk (s : T64Cpu) (rId : Z) (wMode : bool) : bool :=
  negb (extractBit64 (psrReg s) 0 =? 0)
  && existsb (fun i => regionIdMatch (creg s i) (to_u32 rId) wMode) [4; 5; 6; 7].

(** What [dataRead] returns for the word [d] the cache delivered. *)
Definition signExtendRead (len : Z) (sExt : bool) (d : Z) : Z :=
  if sExt then
    match len with
    | 1 => signedField (d / 2 ^ 7) 8
    | 2 => signedField (d / 2 ^ 15) 16
    | 4 => signedField (d / 2 ^ 31) 32
    | _ => d
    end
  else d.

(** The CPU object after the catch block of [instrExecute] has stored the
    trap [t]. *)
Definition withTrap (s : T64Cpu) (t : T64Trap) : T64Cpu :=
  withCReg (withCReg (withCReg (withCReg s
    CTL_REG_IPSR (instrAdr t)) CTL_REG_IINSTR (arg0 t))
    CTL_REG_IARG_0 (arg0 t)) CTL_REG_IARG_1 (arg1 t).

End VocabularyMore.

(** A CPU object with the X bit (bit 61) of the PSR set, all registers
    zero and the instruction address 0x100. *)
Definition privCpu : @T64Cpu noMemSys :=
  mkCpu (MS := noMemSys) (repeat 0 16) (repeat 0 16)
        (2 ^ 61 + 256) 0 0 0 4294967295 tt.

Module AsmVocab.
Import Asm.

Section WithCommon.
Context {C : T64Common}.

(** A piece of the parser keeps [lastErr], and an error it throws is not
    [NO_ERR]. *)
Definition parserInv {A} (m : P A) : Prop :=
  forall st,
    match m st with
    | Ok _ st' => lastErr st' = lastErr st
    | Err e st' => e <> NO_ERR /\ lastErr st' = lastErr st
    | _ => True
    end.

(** The word [parseModeTypeInstr] builds for the operands [R1, R2, R3]
    from the template of opcode family [opc]. *)
Definition regFormWord (opc : Z) : Z :=
  depositInstrRegA
    (depositInstrRegB
       (Z.lor (Z.land (depositInstrRegR (to_u32 (tmpl OPG_ALU opc 0)) (to_u32 1))
                      1073741823)
              (Z.land OPG_ALU 3221225472))
       (to_u32 (to_i32 2)))
    (to_u32 3).

(** The word it builds for the operands [R1, R2, 5]. *)
Definition immFormWord (opc : Z) : Z :=
  depositInstrField
    (depositInstrRegB
       (depositInstrBit
          (Z.lor (Z.land (depositInstrRegR (to_u32 (tmpl OPG_ALU opc 0)) (to_u32 1))
                         1073741823)
                 (Z.land OPG_ALU 3221225472))
          19 true)
       (to_u32 (to_i32 2)))
    0 15 (to_i32 (to_u32 5)).

(** The word [parseInstrDSR] builds for the operands [R1, R2, R3, 4]. *)
Definition dsrWord (opc : Z) : Z :=
  depositInstrField
    (depositInstrRegA
       (depositInstrRegB
          (depositInstrRegR (to_u32 (tmpl OPG_ALU opc 2)) (to_u32 1))
          (to_u32 2))
       (to_u32 3))
    0 6 (to_u32 4).

End WithCommon.
End AsmVocab.



(* ------------------------------------------------------------------------- *)
(** ** Machine integers and the overflow predicates *)
(* ------------------------------------------------------------------------- *)

Lemma to_i64_id z : in_i64 z -> to_i64 z = z.
Proof.
  unfold in_i64, INT64_MIN, INT64_MAX, to_i64; intros H.
  rewrite Z.mod_small; lia.
Qed.

Lemma to_i64_range z : in_i64 (to_i64 z).
Proof.
  unfold in_i64, INT64_MIN, INT64_MAX, to_i64.
  pose proof (Z.mod_pos_bound (z + 2 ^ 63) (2 ^ 64)); lia.
Qed.

Lemma to_i32_id z : - 2 ^ 31 <= z < 2 ^ 31 -> to_i32 z = z.
Proof.
  unfold to_i32; intros H. rewrite Z.mod_small; lia.
Qed.

Lemma to_u32_small z : 0 <= z < 2 ^ 32 -> to_u32 z = z.
Proof. unfold to_u32; intros H. apply Z.mod_small; lia. Qed.

Lemma willAddOverflow_spec (a b : Z) :
  in_i64 a -> in_i64 b ->
  (willAddOverflow a b = true <-> ~ in_i64 (a + b)).
Proof.
  intros Ha Hb. unfold willAddOverflow.
  destruct (Z.gtb_spec b 0) as [Hpos | Hnpos]; cbn [andb].
  - rewrite to_i64_id by (unfold in_i64, INT64_MAX, INT64_MIN in *; lia).
    destruct (Z.gtb_spec a (INT64_MAX - b)).
    + split; [intros _ | reflexivity].
      unfold in_i64, INT64_MAX, INT64_MIN in *; lia.
    + assert ((b <? 0) = false) as -> by (apply Z.ltb_ge; lia). cbn [andb].
      split; [discriminate | intros Hn; exfalso; apply Hn].
      unfold in_i64, INT64_MAX, INT64_MIN in *; lia.
  - destruct (Z.ltb_spec b 0) as [Hneg | Hzero]; cbn [andb].
    + rewrite to_i64_id by (unfold in_i64, INT64_MAX, INT64_MIN in *; lia).
      destruct (Z.ltb_spec a (INT64_MIN - b)).
      * split; [intros _ | reflexivity].
        unfold in_i64, INT64_MAX, INT64_MIN in *; lia.
      * split; [discriminate | intros Hn; exfalso; apply Hn].
        unfold in_i64, INT64_MAX, INT64_MIN in *; lia.
    + split; [discriminate | intros Hn; exfalso; apply Hn].
      unfold in_i64, INT64_MAX, INT64_MIN in *; lia.
Qed.

(** C9.  [willAddOverflow] is tight: for [a] and [b] of type [T64Word] it
    returns true exactly when the sum [a + b] over the integers lies
    outside [INT64_MIN .. INT64_MAX]; it neither reports an overflow that
    does not happen nor misses one. *)
Theorem willAddOverflow_tight (a b : Z) :
  in_i64 a -> in_i64 b ->
  (willAddOverflow a b = true <-> a + b < INT64_MIN \/ INT64_MAX < a + b)
  /\ (willAddOverflow a b = false <-> INT64_MIN <= a + b <= INT64_MAX).
Proof.
  intros Ha Hb. pose proof (willAddOverflow_spec a b Ha Hb) as H.
  unfold in_i64 in H.
  destruct (willAddOverflow a b).
  - assert (~ INT64_MIN <= a + b <= INT64_MAX) by (apply H; reflexivity).
    split; split; intros; try reflexivity; try lia.
  - assert (INT64_MIN <= a + b <= INT64_MAX).
    { destruct (Z_le_dec INT64_MIN (a + b)); destruct (Z_le_dec (a + b) INT64_MAX);
        try lia;
        exfalso; assert (false = true) as E by (apply H; lia); discriminate E. }
    split; split; intros; try reflexivity; try lia; try discriminate.
Qed.

Lemma willAddOverflow_tight_witness :
  (willAddOverflow INT64_MAX 1 = true
   <-> INT64_MAX + 1 < INT64_MIN \/ INT64_MAX < INT64_MAX + 1)
  /\ (willAddOverflow INT64_MAX 1 = false
      <-> INT64_MIN <= INT64_MAX + 1 <= INT64_MAX).
Proof.
  apply (willAddOverflow_tight INT64_MAX 1);
    unfold in_i64, INT64_MAX, INT64_MIN; lia.
Defined.

(* ------------------------------------------------------------------------- *)
(** ** Arrays and the register files *)
(* ------------------------------------------------------------------------- *)

Lemma listSet_length a n v : List.length (listSet a n v) = List.length a.
Proof.
  revert n; induction a as [|x a IH]; intros [|n]; cbn; auto.
Qed.

Lemma listSet_same a n v :
  (n < List.length a)%nat -> nth_error (listSet a n v) n = Some v.
Proof.
  revert n; induction a as [|x a IH]; intros [|n] H; cbn in *; try lia; auto.
  apply IH; lia.
Qed.

Lemma listSet_other a n m v :
  n <> m -> nth_error (listSet a n v) m = nth_error a m.
Proof.
  revert n m; induction a as [|x a IH]; intros [|n] [|m] H; cbn; auto; try congruence.
Qed.

Lemma listSet_id a n v : nth_error a n = Some v -> listSet a n v = a.
Proof.
  revert n; induction a as [|x a IH]; intros [|n] H; cbn in *; try congruence.
  f_equal; auto.
Qed.

Lemma arrGet_in a i :
  0 <= i < Z.of_nat (List.length a) ->
  arrGet a i = Some (nth (Z.to_nat i) a 0).
Proof.
  intros H. unfold arrGet.
  destruct (Z.ltb_spec i 0); [lia|].
  apply nth_error_nth'. lia.
Qed.

Lemma arrSet_in a i v :
  0 <= i < Z.of_nat (List.length a) ->
  arrSet a i v = Some (listSet a (Z.to_nat i) v).
Proof.
  intros H. unfold arrSet.
  destruct (Z.leb_spec 0 i); [|lia].
  destruct (Z.ltb_spec i (Z.of_nat (List.length a))); [reflexivity|lia].
Qed.

Section Registers.
Context {MS : T64MemSys}.

(** C10.  The register access routines reduce the index modulo 16: for a
    non-negative [index], [getGeneralReg] and [setGeneralReg] reach entry
    [index mod 16] of the general register file (index 0 reads as 0 and
    drops the write, so a write through index 16 lands in the slot of R0
    although R0 still reads as 0), and [getControlReg] and
    [setControlReg] reach entry [index mod 16] of the control register
    file; no index of 16 or more reaches outside a register file.  The
    writes are stated by what the read routines return afterwards: every
    index of the same residue modulo 16 reads the value written, every
    other index reads what it read before, and the other register file,
    the PSR and the instruction register are as before. *)
Theorem register_access_mod16 (s : T64Cpu) (index val : Z) :
  0 <= index -> wfCpu s ->
  let slot := Z.to_nat (index mod 16) in
  (slot < 16)%nat
  /\ getGeneralReg s index
     = (if index =? 0 then Some 0 else Some (nth slot (gRegFile s) 0))
  /\ getControlReg s index = Some (nth slot (cRegFile s) 0)
  /\ (forall j, 0 < j -> 0 < index -> j mod 16 = index mod 16 ->
        getGeneralReg s j = getGeneralReg s index)
  /\ (forall j, 0 <= j -> j mod 16 = index mod 16 ->
        getControlReg s j = getControlReg s index)
  /\ setGeneralReg s 0 val = Some s
  /\ (index <> 0 ->
      exists s', setGeneralReg s index val = Some s'
        /\ wfCpu s'
        /\ nth_error (gRegFile s') slot = Some val
        /\ getGeneralReg s' 0 = Some 0
        /\ (forall j, 0 < j -> j mod 16 = index mod 16 ->
              getGeneralReg s' j = Some val)
        /\ (forall j, 0 <= j -> j mod 16 <> index mod 16 ->
              getGeneralReg s' j = getGeneralReg s j)
        /\ (forall j, 0 <= j -> getControlReg s' j = getControlReg s j)
        /\ psrReg s' = psrReg s /\ instrReg s' = instrReg s)
  /\ (exists s', setControlReg s index val = Some s'
        /\ wfCpu s'
        /\ (forall j, 0 <= j -> j mod 16 = index mod 16 ->
              getControlReg s' j = Some val)
        /\ (forall j, 0 <= j -> j mod 16 <> index mod 16 ->
              getControlReg s' j = getControlReg s j)
        /\ (forall j, 0 <= j -> getGeneralReg s' j = getGeneralReg s j)
        /\ psrReg s' = psrReg s /\ instrReg s' = instrReg s).
Proof.
  intros Hidx [Hg Hc] slot.
  assert (Hrem : forall k, 0 <= k -> Z.rem k 16 = k mod 16)
    by (intros; apply Z.rem_mod_nonneg; lia).
  assert (Hmod : forall k, 0 <= k mod 16 < 16)
    by (intros; apply Z.mod_pos_bound; lia).
  pose proof (Hmod index) as Hr.
  assert (Hslot : (slot < 16)%nat) by (unfold slot; lia).
  assert (HG : forall k, 0 < k ->
             getGeneralReg s k = Some (nth (Z.to_nat (k mod 16)) (gRegFile s) 0)).
  { intros k Hk. unfold getGeneralReg, T64_MAX_GREGS.
    destruct (Z.eqb_spec k 0); [lia|].
    rewrite Hrem by lia. apply arrGet_in. rewrite Hg. pose proof (Hmod k). lia. }
  assert (HC : forall k, 0 <= k ->
             getControlReg s k = Some (nth (Z.to_nat (k mod 16)) (cRegFile s) 0)).
  { intros k Hk. unfold getControlReg, T64_MAX_CREGS.
    rewrite Hrem by lia. apply arrGet_in. rewrite Hc. pose proof (Hmod k). lia. }
  split; [exact Hslot|].
  split.
  { destruct (Z.eqb_spec index 0) as [-> | Hn]; [reflexivity|]. apply HG. lia. }
  split; [apply HC; exact Hidx|].
  split.
  { intros j Hj Hi E. rewrite (HG j Hj), (HG index Hi), E. reflexivity. }
  split.
  { intros j Hj E. rewrite (HC j Hj), (HC index Hidx), E. reflexivity. }
  split; [reflexivity|].
  split.
  - intros Hnz.
    exists (set_gRegFile s (listSet (gRegFile s) slot val)).
    split.
    { unfold setGeneralReg, T64_MAX_GREGS.
      destruct (Z.eqb_spec index 0); [contradiction|]. cbn [negb].
      rewrite Hrem, arrSet_in by (try rewrite Hg; lia). reflexivity. }
    split. { split; cbn; [rewrite listSet_length|]; assumption. }
    split. { cbn [gRegFile set_gRegFile]. apply listSet_same. lia. }
    split; [reflexivity|].
    split.
    { intros j Hj E. unfold getGeneralReg, T64_MAX_GREGS.
      destruct (Z.eqb_spec j 0); [lia|].
      rewrite Hrem by lia. unfold arrGet.
      destruct (Z.ltb_spec (j mod 16) 0); [pose proof (Hmod j); lia|].
      cbn [gRegFile set_gRegFile]. rewrite E. apply listSet_same. lia. }
    split.
    { intros j Hj E. unfold getGeneralReg, T64_MAX_GREGS.
      destruct (Z.eqb_spec j 0); [reflexivity|].
      rewrite Hrem by lia. unfold arrGet.
      destruct (Z.ltb_spec (j mod 16) 0); [pose proof (Hmod j); lia|].
      cbn [gRegFile set_gRegFile]. apply listSet_other.
      unfold slot. pose proof (Hmod j). lia. }
    split; [intros j Hj; reflexivity|].
    split; reflexivity.
  - exists (set_cRegFile s (listSet (cRegFile s) slot val)).
    split.
    { unfold setControlReg, T64_MAX_CREGS.
      rewrite Hrem, arrSet_in by (try rewrite Hc; lia). reflexivity. }
    split. { split; cbn; [|rewrite listSet_length]; assumption. }
    split.
    { intros j Hj E. unfold getControlReg, T64_MAX_CREGS.
      rewrite Hrem by lia. unfold arrGet.
      destruct (Z.ltb_spec (j mod 16) 0); [pose proof (Hmod j); lia|].
      cbn [cRegFile set_cRegFile]. rewrite E. apply listSet_same. lia. }
    split.
    { intros j Hj E. unfold getControlReg, T64_MAX_CREGS.
      rewrite Hrem by lia. unfold arrGet.
      destruct (Z.ltb_spec (j mod 16) 0); [pose proof (Hmod j); lia|].
      cbn [cRegFile set_cRegFile]. apply listSet_other.
      unfold slot. pose proof (Hmod j). lia. }
    split; [intros j Hj; reflexivity|].
    split; reflexivity.
Qed.

End Registers.

Lemma register_access_mod16_witness :
  0 <= 16 /\ wfCpu sampleCpu /\
  exists s', setGeneralReg sampleCpu 16 7 = Some s'
             /\ nth_error (gRegFile s') 0 = Some 7
             /\ getGeneralReg s' 0 = Some 0
             /\ getGeneralReg s' 16 = Some 7
             /\ getGeneralReg s' 32 = Some 7
             /\ getGeneralReg s' 1 = getGeneralReg sampleCpu 1.
Proof.
  assert (H0 : 0 <= 16) by lia.
  assert (Hw : wfCpu sampleCpu) by (split; reflexivity).
  split; [exact H0 | split; [exact Hw |]].
  destruct (register_access_mod16 sampleCpu 16 7 H0 Hw)
    as (_ & _ & _ & _ & _ & _ & H & _).
  destruct H as (s' & H1 & _ & H2 & H3 & H4 & H5 & _); [lia|].
  exists s'. split; [exact H1|]. split; [exact H2|]. split; [exact H3|].
  split; [apply H4; [lia | reflexivity]|].
  split; [apply H4; [lia | reflexivity]|].
  apply H5; [lia|]. intros E. vm_compute in E. discriminate E.
Defined.

(* ------------------------------------------------------------------------- *)
(** ** Instruction fields *)
(* ------------------------------------------------------------------------- *)

Lemma land_ones_range x n : 0 <= n -> 0 <= Z.land x (Z.shiftl 1 n - 1) < 2 ^ n.
Proof.
  intros Hn. rewrite Z.shiftl_1_l.
  replace (2 ^ n - 1) with (Z.ones n) by (rewrite Z.ones_equiv; lia).
  rewrite Z.land_ones by lia.
  apply Z.mod_pos_bound. apply Z.pow_pos_nonneg; lia.
Qed.

Lemma extractInstrFieldU_range instr pos len :
  0 <= len <= 30 -> 0 <= extractInstrFieldU instr pos len < 2 ^ len.
Proof.
  intros Hl. unfold extractInstrFieldU.
  assert (0 < 2 ^ len) by (apply Z.pow_pos_nonneg; lia).
  destruct (pos >? 31); [lia|]. destruct (pos + len >? 32); [lia|].
  pose proof (land_ones_range (Z.shiftr instr pos) len ltac:(lia)) as Hr.
  assert (2 ^ len <= 2 ^ 30) by (apply Z.pow_le_mono_r; lia).
  rewrite to_i32_id; lia.
Qed.

Lemma regField_range instr pos : 0 <= extractInstrFieldU instr pos 4 < 16.
Proof. apply (extractInstrFieldU_range instr pos 4); lia. Qed.

Lemma optField_cases instr :
  let o := extractInstrFieldU instr 19 3 in
  o = 0 \/ o = 1 \/ 2 <= o < 8.
Proof.
  pose proof (extractInstrFieldU_range instr 19 3 ltac:(lia)).
  cbv zeta. change (2 ^ 3) with 8 in H. lia.
Qed.

Lemma extractInstrFieldS_range instr pos len :
  0 < len <= 32 -> - 2 ^ 31 <= extractInstrFieldS instr pos len < 2 ^ 31.
Proof.
  intros Hl. unfold extractInstrFieldS.
  destruct (Z.eqb_spec len 0); [lia|].
  set (x := to_i32 _).
  assert (Hx : - 2 ^ 31 <= x < 2 ^ 31).
  { unfold x, to_i32.
    match goal with |- context [?a mod ?b] =>
      pose proof (Z.mod_pos_bound a b ltac:(lia)) end. lia. }
  rewrite Z.shiftr_div_pow2 by lia.
  assert (0 < 2 ^ (32 - len)) by (apply Z.pow_pos_nonneg; lia).
  split.
  - apply Z.div_le_lower_bound; [lia|].
    assert (1 <= 2 ^ (32 - len)) by lia. nia.
  - apply Z.div_lt_upper_bound; [lia|]. nia.
Qed.

Lemma imm15_in_i64 instr : in_i64 (extractInstrSignedImm15 instr).
Proof.
  pose proof (extractInstrFieldS_range instr 0 15 ltac:(lia)).
  unfold extractInstrSignedImm15, in_i64, INT64_MIN, INT64_MAX. lia.
Qed.

Lemma fits4_cases z :
  0 <= z < 16 -> In z [0; 1; 2; 3; 4; 5; 6; 7; 8; 9; 10; 11; 12; 13; 14; 15].
Proof. intros H. cbn [In]. lia. Qed.

Ltac each4 H :=
  apply fits4_cases in H; cbn [In] in H;
  repeat (destruct H as [<- | H]); [ .. | contradiction ].

(* ------------------------------------------------------------------------- *)
(** ** Condition evaluation *)
(* ------------------------------------------------------------------------- *)

(** C2.  What [evalCond] computes for each condition code: codes 0 to 4
    are EQ, LT, GT, EV and NE; code 5 holds exactly when
    [val1 <= val2], code 6 exactly when [val1 >= val2], and code 7
    exactly when bit 0 of [val1] is zero.  So code 5 is not GE
    ([evalCond 5 2 1 = 0]), code 6 is not LE ([evalCond 6 1 2 = 0]) and
    code 7 is not OD ([evalCond 7 1 0 = 0], [evalCond 7 2 0 = 1]). *)
Theorem evalCond_table (val1 val2 : Z) :
  (evalCond 0 val1 val2 = 1 <-> val1 = val2)
  /\ (evalCond 1 val1 val2 = 1 <-> val1 < val2)
  /\ (evalCond 2 val1 val2 = 1 <-> val1 > val2)
  /\ (evalCond 3 val1 val2 = 1 <-> Z.testbit val1 0 = false)
  /\ (evalCond 4 val1 val2 = 1 <-> val1 <> val2)
  /\ (evalCond 5 val1 val2 = 1 <-> val1 <= val2)
  /\ (evalCond 6 val1 val2 = 1 <-> val1 >= val2)
  /\ (evalCond 7 val1 val2 = 1 <-> Z.testbit val1 0 = false)
  /\ evalCond 5 2 1 = 0 /\ evalCond 6 1 2 = 0
  /\ evalCond 7 1 0 = 0 /\ evalCond 7 2 0 = 1.
Proof.
  assert (Hbit : Z.land val1 1 = Z.b2z (Z.testbit val1 0)).
  { change 1 with (Z.ones 1). rewrite Z.land_ones by lia.
    rewrite Z.bit0_mod. reflexivity. }
  cbn [evalCond].
  repeat match goal with |- _ /\ _ => split end; try reflexivity.
  - destruct (Z.eqb_spec val1 val2); split; intros; try lia; discriminate.
  - destruct (Z.ltb_spec val1 val2); split; intros; try lia; discriminate.
  - destruct (Z.gtb_spec val1 val2); split; intros; try lia; discriminate.
  - rewrite Hbit. destruct (Z.testbit val1 0); cbn; split; intros; congruence.
  - destruct (Z.eqb_spec val1 val2); cbn; split; intros; try lia; try discriminate; congruence.
  - destruct (Z.leb_spec val1 val2); split; intros; try lia; discriminate.
  - destruct (Z.geb_spec val1 val2); split; intros; try lia; discriminate.
  - rewrite Hbit. destruct (Z.testbit val1 0); cbn; split; intros; congruence.
Qed.

(* ------------------------------------------------------------------------- *)
(** ** What [wfConsts] gives *)
(* ------------------------------------------------------------------------- *)

Lemma is4bit_range z : is4bit z = true -> 0 <= z < 16.
Proof. unfold is4bit. rewrite andb_true_iff, Z.leb_le, Z.ltb_lt. tauto. Qed.

Lemma distinctZ_cons x l :
  distinctZ (x :: l) = true -> ~ In x l /\ distinctZ l = true.
Proof.
  cbn [distinctZ]. rewrite andb_true_iff, negb_true_iff. intros [Hx Hl].
  split; [|assumption]. intros Hin.
  assert (existsb (Z.eqb x) l = true) as E
    by (apply existsb_exists; exists x; split; [assumption | apply Z.eqb_refl]).
  congruence.
Qed.

Lemma forallb_is4bit l : forallb is4bit l = true -> Forall fits4 l.
Proof.
  induction l as [|x l IH]; cbn [forallb]; [constructor|].
  rewrite andb_true_iff. intros [Hx Hl].
  constructor; [apply is4bit_range; assumption | auto].
Qed.

Ltac use_wf H :=
  unfold wfConsts in H; rewrite !andb_true_iff in H;
  let Hf := fresh "Hf" in
  destruct H as [[[[[Hf ?Hd] ?Hd] ?Hd] ?Hd] ?Hd];
  apply forallb_is4bit in Hf;
  repeat match goal with
  | F : Forall fits4 (_ :: _) |- _ =>
      let Hx := fresh "Hb" in
      apply Forall_cons_iff in F; destruct F as [Hx F]; unfold fits4 in Hx
  end;
  clear Hf.

(* ------------------------------------------------------------------------- *)
(** ** The CPU *)
(* ------------------------------------------------------------------------- *)

Section CpuFacts.
Context {C : T64Common} {MS : T64MemSys}.

Lemma getGeneralReg_greg s i :
  wfCpu s -> 0 <= i < 16 -> getGeneralReg s i = Some (greg s i).
Proof.
  intros [Hg _] Hi. unfold getGeneralReg, greg, T64_MAX_GREGS.
  destruct (i =? 0); [reflexivity|].
  rewrite Z.rem_small by lia. apply arrGet_in. rewrite Hg. lia.
Qed.

Lemma getGReg_run s i :
  wfCpu s -> 0 <= i < 16 -> getGReg i s = Done (greg s i) s.
Proof.
  intros Hw Hi. unfold getGReg, bind, get, lift.
  rewrite getGeneralReg_greg by assumption. reflexivity.
Qed.

Lemma setGReg_run s i v :
  wfCpu s -> 0 <= i < 16 -> setGReg i v s = Done tt (withGReg s i v).
Proof.
  intros [Hg _] Hi. unfold setGReg, bind, get, lift, put, setGeneralReg, withGReg,
    T64_MAX_GREGS.
  destruct (i =? 0); cbn [negb]; [reflexivity|].
  rewrite Z.rem_small by lia. rewrite arrSet_in by (rewrite Hg; lia). reflexivity.
Qed.

Lemma withGReg_wf s i v : wfCpu s -> wfCpu (withGReg s i v).
Proof.
  intros [Hg Hc]. unfold withGReg. destruct (i =? 0); [split; assumption|].
  split; cbn; [rewrite listSet_length|]; assumption.
Qed.

Lemma withGReg_psr s i v : psrReg (withGReg s i v) = psrReg s.
Proof. unfold withGReg. destruct (i =? 0); reflexivity. Qed.

Lemma withGReg_same s i : wfCpu s -> 0 <= i < 16 -> withGReg s i (greg s i) = s.
Proof.
  intros [Hg _] Hi. unfold withGReg, greg. destruct (Z.eqb_spec i 0); [reflexivity|].
  rewrite listSet_id; [destruct s; reflexivity|].
  apply nth_error_nth'. lia.
Qed.

Lemma setCReg_run s i v :
  wfCpu s -> 0 <= i < 16 -> setCReg i v s = Done tt (withCReg s i v).
Proof.
  intros [_ Hc] Hi. unfold setCReg, bind, get, lift, put, withCReg.
  rewrite arrSet_in by (rewrite Hc; lia). reflexivity.
Qed.

Lemma withCReg_wf s i v : wfCpu s -> wfCpu (withCReg s i v).
Proof.
  intros [Hg Hc]. split; cbn; [|rewrite listSet_length]; assumption.
Qed.

Lemma nextInstr_run s :
  nextInstr s = Done tt (set_psrReg s (addAdrOfs32 (psrReg s) 4)).
Proof. reflexivity. Qed.

Lemma getRegB_run s instr :
  wfCpu s -> getRegB instr s = Done (greg s (extractInstrRegB instr)) s.
Proof. intros; apply getGReg_run; [assumption | apply regField_range]. Qed.

Lemma getRegA_run s instr :
  wfCpu s -> getRegA instr s = Done (greg s (extractInstrRegA instr)) s.
Proof. intros; apply getGReg_run; [assumption | apply regField_range]. Qed.

Lemma getRegR_run s instr :
  wfCpu s -> getRegR instr s = Done (greg s (extractInstrRegR instr)) s.
Proof. intros; apply getGReg_run; [assumption | apply regField_range]. Qed.

Lemma setRegR_run s instr v :
  wfCpu s -> setRegR instr v s = Done tt (withGReg s (extractInstrRegR instr) v).
Proof. intros; apply setGReg_run; [assumption | apply regField_range]. Qed.

(** C5.  [instrAluImmOp] in sub-mode 2 (LDIL.M) and sub-mode 3 (LDIL.U)
    computes the deposit and drops it: the handler returns with the
    instruction address advanced by 4 and nothing else changed, so RegR
    reads afterwards what it read before, whatever the immediate. *)
Theorem immop_mode2_mode3_keep_RegR (s : T64Cpu) (instr : Z) :
  wfCpu s ->
  extractInstrFieldU instr 20 2 = 2 \/ extractInstrFieldU instr 20 2 = 3 ->
  instrAluImmOp instr s = Done tt (set_psrReg s (addAdrOfs32 (psrReg s) 4))
  /\ forall s', instrAluImmOp instr s = Done tt s' ->
       getGeneralReg s' (extractInstrRegR instr)
       = getGeneralReg s (extractInstrRegR instr).
Proof.
  intros Hw Hmode.
  assert (Hrun : instrAluImmOp instr s
                 = Done tt (set_psrReg s (addAdrOfs32 (psrReg s) 4))).
  { unfold instrAluImmOp, bind. rewrite getRegR_run by assumption.
    destruct Hmode as [-> | ->]; cbv beta iota zeta;
      rewrite setRegR_run by assumption;
      rewrite withGReg_same by (try assumption; apply regField_range);
      apply nextInstr_run. }
  split; [exact Hrun|].
  intros s' Hs'. rewrite Hrun in Hs'. injection Hs' as <-. reflexivity.
Qed.

Lemma creg_consts_wf :
  wfConsts C = true ->
  (0 <= CTL_REG_IPSR < 16 /\ 0 <= CTL_REG_IINSTR < 16 /\ 0 <= CTL_REG_IARG_0 < 16
   /\ 0 <= CTL_REG_IARG_1 < 16 /\ 0 <= CTL_REG_IVA < 16 /\ 0 <= CTL_REG_SHAMT < 16)
  /\ (CTL_REG_IPSR <> CTL_REG_IINSTR /\ CTL_REG_IPSR <> CTL_REG_IARG_0
      /\ CTL_REG_IPSR <> CTL_REG_IARG_1 /\ CTL_REG_IINSTR <> CTL_REG_IARG_0
      /\ CTL_REG_IINSTR <> CTL_REG_IARG_1 /\ CTL_REG_IARG_0 <> CTL_REG_IARG_1
      /\ CTL_REG_IVA <> CTL_REG_IPSR /\ CTL_REG_IVA <> CTL_REG_IINSTR
      /\ CTL_REG_IVA <> CTL_REG_IARG_0 /\ CTL_REG_IVA <> CTL_REG_IARG_1).
Proof.
  intros H. use_wf H.
  split; [repeat split; lia|].
  repeat match goal with
  | D : distinctZ (CTL_REG_SHAMT :: _) = true |- _ =>
      repeat (apply distinctZ_cons in D; destruct D as [? D])
  | D : distinctZ _ = true |- _ => clear D
  end.
  cbn [In] in *. repeat split; intros E; intuition congruence.
Qed.

(** C1.  [instrExecute] switches on the opcode field alone, bits 26 to
    29, against case labels of the form group * 16 + family.  A word of
    the MEM group with the family of ADD, whose key group * 16 + family
    is the label of the MEM add handler, runs the ALU add handler and not
    the MEM add handler; and every word with the same opcode field runs
    the same handler, whatever its group field. *)
Theorem dispatch_ignores_group (instr : Z) :
  extractInstrOpGroup instr = OPC_GRP_MEM ->
  extractInstrOpCode instr = OPC_ADD ->
  selectHandler instr = AluAddOp
  /\ selectHandler instr <> MemAddOp
  /\ extractInstrOpGroup instr * 16 + extractInstrOpCode instr
     = OPC_GRP_MEM * 16 + OPC_ADD
  /\ (forall instr' : Z,
        extractInstrOpCode instr' = extractInstrOpCode instr ->
        selectHandler instr' = selectHandler instr).
Proof.
  intros Hg Ho.
  assert (Hsel : selectHandler instr = AluAddOp).
  { unfold selectHandler, caseLabels. rewrite Ho. cbn [switchOn].
    change (OPC_GRP_ALU * 16 + OPC_ADD) with (0 + OPC_ADD).
    rewrite Z.add_0_l, Z.eqb_refl. reflexivity. }
  split; [exact Hsel|]. split; [rewrite Hsel; discriminate|].
  split; [rewrite Hg, Ho; reflexivity|].
  intros instr' E. unfold selectHandler. rewrite E. reflexivity.
Qed.

Lemma Handler_eq_illegal (h : Handler) : h = IllegalInstr \/ h <> IllegalInstr.
Proof. destruct h; (left; reflexivity) || (right; discriminate). Qed.

Lemma switchOn_cases (P : Handler -> Prop) key cases :
  P IllegalInstr ->
  (forall l h, In (l, h) cases -> key = l -> P h) ->
  P (switchOn key cases).
Proof.
  intros Hdef. induction cases as [|[l h] rest IH]; intros Hc; cbn [switchOn].
  - exact Hdef.
  - destruct (Z.eqb_spec key l) as [E | _].
    + apply (Hc l h); [left; reflexivity | exact E].
    + apply IH. intros l' h' Hin. apply Hc. right; exact Hin.
Qed.

Lemma selectHandler_alu_only (instr : Z) :
  wfConsts C = true -> In (selectHandler instr) aluHandlers.
Proof.
  intros H. use_wf H.
  pose proof (regField_range instr 26) as Hk.
  unfold selectHandler, extractInstrOpCode.
  set (k := extractInstrFieldU instr 26 4) in *. clearbody k.
  apply switchOn_cases;
    [unfold aluHandlers; cbn [In]; solve [repeat (first [left; reflexivity | right])]|].
  intros l h Hin Hkey. unfold caseLabels in Hin. cbn [In] in Hin.
  unfold OPC_GRP_ALU, OPC_GRP_MEM, OPC_GRP_BR, OPC_GRP_SYS in Hin.
  repeat (destruct Hin as [Hin | Hin];
          [ pose proof (f_equal fst Hin) as El;
            pose proof (f_equal snd Hin) as Eh;
            cbn [fst snd] in El, Eh; subst l h;
            first [ exfalso; lia
                  | unfold aluHandlers; cbn [In];
                    solve [repeat (first [left; reflexivity | right])] ] | ]).
  contradiction.
Qed.

(** *** Trap delivery *)

Lemma creg_withCReg_same s i v :
  wfCpu s -> 0 <= i < 16 -> getControlReg (withCReg s i v) i = Some v.
Proof.
  intros [_ Hc] Hi. unfold getControlReg, T64_MAX_CREGS, withCReg, arrGet.
  rewrite Z.rem_small by lia. destruct (Z.ltb_spec i 0); [lia|].
  cbn. apply listSet_same. lia.
Qed.

Lemma creg_withCReg_other s i j v :
  0 <= i < 16 -> 0 <= j < 16 -> i <> j ->
  getControlReg (withCReg s i v) j = getControlReg s j.
Proof.
  intros Hi Hj Hij. unfold getControlReg, T64_MAX_CREGS, withCReg, arrGet.
  rewrite Z.rem_small by lia. destruct (Z.ltb_spec j 0); [lia|].
  cbn. apply listSet_other. lia.
Qed.

Lemma trapDelivery_run (t : T64Trap) (s : T64Cpu) :
  wfConsts C = true -> wfCpu s ->
  exists s', trapDelivery t s = Done tt s'
    /\ getControlReg s' CTL_REG_IPSR = Some (instrAdr t)
    /\ getControlReg s' CTL_REG_IINSTR = Some (arg0 t)
    /\ getControlReg s' CTL_REG_IARG_0 = Some (arg0 t)
    /\ getControlReg s' CTL_REG_IARG_1 = Some (arg1 t)
    /\ getControlReg s' CTL_REG_IVA = getControlReg s CTL_REG_IVA
    /\ psrReg s' = psrReg s
    /\ gRegFile s' = gRegFile s.
Proof.
  intros Hc Hw.
  destruct (creg_consts_wf Hc) as [(R1 & R2 & R3 & R4 & R5 & _) D].
  destruct D as (D1 & D2 & D3 & D4 & D5 & D6 & D7 & D8 & D9 & D10).
  set (s1 := withCReg s CTL_REG_IPSR (instrAdr t)).
  set (s2 := withCReg s1 CTL_REG_IINSTR (arg0 t)).
  set (s3 := withCReg s2 CTL_REG_IARG_0 (arg0 t)).
  set (s4 := withCReg s3 CTL_REG_IARG_1 (arg1 t)).
  assert (W1 : wfCpu s1) by (apply withCReg_wf; assumption).
  assert (W2 : wfCpu s2) by (apply withCReg_wf; assumption).
  assert (W3 : wfCpu s3) by (apply withCReg_wf; assumption).
  exists s4. split.
  { unfold trapDelivery, bind.
    rewrite (setCReg_run s) by assumption. fold s1.
    rewrite (setCReg_run s1) by assumption. fold s2.
    rewrite (setCReg_run s2) by assumption. fold s3.
    rewrite (setCReg_run s3) by assumption. reflexivity. }
  unfold s4, s3, s2.
  repeat split.
  - rewrite !creg_withCReg_other by (assumption || congruence).
    apply creg_withCReg_same; assumption.
  - rewrite !creg_withCReg_other by (assumption || congruence).
    apply creg_withCReg_same; assumption.
  - rewrite !creg_withCReg_other by (assumption || congruence).
    apply creg_withCReg_same; assumption.
  - apply creg_withCReg_same; assumption.
  - unfold s1. rewrite !creg_withCReg_other by (assumption || congruence).
    reflexivity.
Qed.

(** C3.  When the execution of an instruction throws the trap [t], the
    catch block stores [t.instrAdr] in IPSR, [t.arg0] in both IINSTR and
    IARG_0 and [t.arg1] in IARG_1, and returns.  It writes neither the
    PSR nor IVA nor a general register: the PSR after the trap is the
    PSR before it, not the content of IVA. *)
Theorem trap_delivery_leaves_psr (instr : Z) (s s' : T64Cpu) (t : T64Trap) :
  wfConsts C = true -> wfCpu s' ->
  instrExecuteBody instr s = Throw t s' ->
  exists s'', instrExecute instr s = Done tt s''
    /\ getControlReg s'' CTL_REG_IPSR = Some (instrAdr t)
    /\ getControlReg s'' CTL_REG_IINSTR = Some (arg0 t)
    /\ getControlReg s'' CTL_REG_IARG_0 = Some (arg0 t)
    /\ getControlReg s'' CTL_REG_IARG_1 = Some (arg1 t)
    /\ getControlReg s'' CTL_REG_IVA = getControlReg s' CTL_REG_IVA
    /\ psrReg s'' = psrReg s'
    /\ gRegFile s'' = gRegFile s'.
Proof.
  intros Hc Hw Hbody.
  destruct (trapDelivery_run t s' Hc Hw) as (s'' & Hrun & Hrest).
  exists s''. split; [|exact Hrest].
  unfold instrExecute, try_catch. rewrite Hbody. exact Hrun.
Qed.

(** *** ALU:ADD *)

Lemma greg_in_i64 s i : Forall in_i64 (gRegFile s) -> in_i64 (greg s i).
Proof.
  intros H. unfold greg.
  assert (H0 : in_i64 0) by (unfold in_i64, INT64_MIN, INT64_MAX; lia).
  destruct (i =? 0); [exact H0|].
  destruct (nth_in_or_default (Z.to_nat i) (gRegFile s) 0) as [Hin | ->];
    [|exact H0].
  rewrite Forall_forall in H. apply H. exact Hin.
Qed.

Lemma selectHandler_add instr :
  extractInstrOpCode instr = OPC_ADD -> selectHandler instr = AluAddOp.
Proof.
  intros Ho. unfold selectHandler, caseLabels. rewrite Ho. cbn [switchOn].
  change (OPC_GRP_ALU * 16 + OPC_ADD) with (0 + OPC_ADD).
  rewrite Z.add_0_l, Z.eqb_refl. reflexivity.
Qed.

Lemma instrAluAddOp_run (s : T64Cpu) (instr : Z) :
  wfCpu s ->
  extractInstrFieldU instr 19 3 = 0 \/ extractInstrFieldU instr 19 3 = 1 ->
  let valB := greg s (extractInstrRegB instr) in
  let src := addSource s instr in
  instrAluAddOp instr s =
  if willAddOverflow valB src
  then Throw (newT64Trap OVERFLOW_TRAP (psrReg s) (instrReg s) 0) s
  else Done tt (set_psrReg (withGReg s (extractInstrRegR instr)
                                     (to_i64 (valB + src)))
                           (addAdrOfs32 (psrReg s) 4)).
Proof.
  intros Hw Hopt valB src. unfold instrAluAddOp, bind.
  rewrite getRegB_run by assumption. fold valB.
  assert (Hsrc : match extractInstrFieldU instr 19 3 with
                 | 0 => getRegA instr
                 | 1 => ret (extractInstrSignedImm15 instr)
                 | _ => illegalInstrTrap
                 end s = Done src s).
  { unfold src, addSource.
    destruct Hopt as [-> | ->]; cbn [Z.eqb]; [apply getRegA_run; assumption|].
    reflexivity. }
  rewrite Hsrc. unfold addOverFlowCheck.
  destruct (willAddOverflow valB src); [reflexivity|].
  unfold ret. rewrite setRegR_run by assumption.
  rewrite nextInstr_run, withGReg_psr. reflexivity.
Qed.

(** C4.  An ALU group ADD whose general registers hold [T64Word] values
    throws if and only if the sum of the RegB value and the source
    operand (the RegA value, or the sign-extended imm15) lies outside
    the [T64Word] range, and the trap thrown is the overflow trap, thrown
    before any write: after [instrExecute] every general register and
    the PSR with its instruction address are as before.  Without
    overflow RegR receives the sum and the instruction address advances
    by 4. *)
Theorem alu_add_overflow_trap (s : T64Cpu) (instr : Z) :
  wfConsts C = true -> wfCpu s -> Forall in_i64 (gRegFile s) ->
  extractInstrOpGroup instr = OPC_GRP_ALU ->
  extractInstrOpCode instr = OPC_ADD ->
  extractInstrFieldU instr 19 3 = 0 \/ extractInstrFieldU instr 19 3 = 1 ->
  let valB := greg s (extractInstrRegB instr) in
  let src := addSource s instr in
  let overflow := newT64Trap OVERFLOW_TRAP (psrReg s) (instrReg s) 0 in
  ((exists t s', instrExecuteBody instr s = Throw t s')
   <-> ~ in_i64 (valB + src))
  /\ (~ in_i64 (valB + src) ->
      instrExecuteBody instr s = Throw overflow s
      /\ exists s'', instrExecute instr s = Done tt s''
                     /\ gRegFile s'' = gRegFile s
                     /\ psrReg s'' = psrReg s)
  /\ (in_i64 (valB + src) ->
      instrExecute instr s
      = Done tt (set_psrReg (withGReg s (extractInstrRegR instr) (valB + src))
                            (addAdrOfs32 (psrReg s) 4))).
Proof.
  intros Hc Hw Hregs _ Hop Hopt valB src overflow.
  assert (HB : in_i64 valB) by (apply greg_in_i64; assumption).
  assert (HS : in_i64 src).
  { unfold src, addSource. destruct (_ =? 0);
      [apply greg_in_i64; assumption | apply imm15_in_i64]. }
  pose proof (willAddOverflow_spec valB src HB HS) as Htight.
  assert (Hbody : instrExecuteBody instr s = instrAluAddOp instr s).
  { unfold instrExecuteBody. rewrite selectHandler_add by assumption. reflexivity. }
  pose proof (instrAluAddOp_run s instr Hw Hopt) as Hrun. cbv zeta in Hrun.
  fold valB src overflow in Hrun. rewrite <- Hbody in Hrun.
  destruct (willAddOverflow valB src) eqn:Eo.
  - assert (Hov : ~ in_i64 (valB + src)) by (apply Htight; reflexivity).
    repeat split.
    + intros _. exact Hov.
    + intros _. eauto.
    + exact Hrun.
    + destruct (trapDelivery_run overflow s Hc Hw)
        as (s'' & He & _ & _ & _ & _ & _ & Hp & Hg).
      exists s''. unfold instrExecute, try_catch. rewrite Hrun. auto.
    + intros Hin. contradiction.
  - assert (Hin : in_i64 (valB + src)).
    { destruct (Z_le_dec INT64_MIN (valB + src)) as [L|L];
      destruct (Z_le_dec (valB + src) INT64_MAX) as [U|U];
        try (split; assumption);
        exfalso; assert (false = true) as E
          by (apply Htight; unfold in_i64; lia);
        discriminate E. }
    repeat split.
    + intros (t & s' & Ht). rewrite Hrun in Ht. discriminate.
    + intros Hn. contradiction.
    + contradiction.
    + contradiction.
    + intros _. unfold instrExecute, try_catch. rewrite Hrun.
      rewrite to_i64_id by assumption. reflexivity.
Qed.

(** *** The instruction address after an ALU group handler *)

Lemma keepsPsr_ret {A} (a : A) : keepsPsr (ret a).
Proof. intros s Hw. split; [exact Hw | reflexivity]. Qed.

Lemma keepsPsr_throw {A} t : keepsPsr (@throw MS A t).
Proof. intros s Hw. split; [exact Hw | reflexivity]. Qed.

Lemma keepsPsr_bind {A B} (m : M A) (f : A -> M B) :
  keepsPsr m -> (forall a, keepsPsr (f a)) -> keepsPsr (bind m f).
Proof.
  intros Hm Hf s Hw. unfold bind. specialize (Hm s Hw).
  destruct (m s) as [a s1 | t s1 |]; auto.
  destruct Hm as [Hw1 Hp]. specialize (Hf a s1 Hw1).
  destruct (f a s1); auto; destruct Hf; split; congruence.
Qed.

Lemma keepsPsr_get : keepsPsr get.
Proof. intros s Hw. split; [exact Hw | reflexivity]. Qed.

Lemma keepsPsr_getGReg i : 0 <= i < 16 -> keepsPsr (getGReg i).
Proof.
  intros Hi s Hw. rewrite getGReg_run by assumption. split; [exact Hw | reflexivity].
Qed.

Lemma keepsPsr_setGReg i v : 0 <= i < 16 -> keepsPsr (setGReg i v).
Proof.
  intros Hi s Hw. rewrite setGReg_run by assumption.
  split; [apply withGReg_wf; exact Hw | apply withGReg_psr].
Qed.

Lemma keepsPsr_getRegR instr : keepsPsr (getRegR instr).
Proof. apply keepsPsr_getGReg, regField_range. Qed.

Lemma keepsPsr_getRegB instr : keepsPsr (getRegB instr).
Proof. apply keepsPsr_getGReg, regField_range. Qed.

Lemma keepsPsr_getRegA instr : keepsPsr (getRegA instr).
Proof. apply keepsPsr_getGReg, regField_range. Qed.

Lemma keepsPsr_setRegR instr v : keepsPsr (setRegR instr v).
Proof. apply keepsPsr_setGReg, regField_range. Qed.

Lemma keepsPsr_getCReg i : 0 <= i < 16 -> keepsPsr (getCReg i).
Proof.
  intros Hi s Hw. unfold getCReg, bind, get, lift.
  destruct Hw as [Hg Hc].
  rewrite arrGet_in by (rewrite Hc; lia).
  split; [split; assumption | reflexivity].
Qed.

Lemma keepsPsr_setCReg i v : 0 <= i < 16 -> keepsPsr (setCReg i v).
Proof.
  intros Hi s Hw. rewrite setCReg_run by assumption.
  split; [apply withCReg_wf; exact Hw | reflexivity].
Qed.

Lemma keepsPsr_getPsr : keepsPsr getPsr.
Proof. intros s Hw. split; [exact Hw | reflexivity]. Qed.

Lemma keepsPsr_overFlowTrap {A} : keepsPsr (@overFlowTrap C MS A).
Proof. intros s Hw. split; [exact Hw | reflexivity]. Qed.

Lemma keepsPsr_illegalInstrTrap {A} : keepsPsr (@illegalInstrTrap C MS A).
Proof. intros s Hw. split; [exact Hw | reflexivity]. Qed.

Lemma keepsPsr_when b m : keepsPsr m -> keepsPsr (when b m).
Proof. intros H. destruct b; [exact H | apply keepsPsr_ret]. Qed.

Lemma advances_nextInstr : advancesOrThrows nextInstr.
Proof. intros s Hw. rewrite nextInstr_run. split; [exact Hw | reflexivity]. Qed.

Lemma advances_bind {A} (m : M A) (f : A -> M unit) :
  keepsPsr m -> (forall a, advancesOrThrows (f a)) -> advancesOrThrows (bind m f).
Proof.
  intros Hm Hf s Hw. unfold bind. specialize (Hm s Hw).
  destruct (m s) as [a s1 | t s1 |]; auto.
  destruct Hm as [Hw1 Hp]. specialize (Hf a s1 Hw1).
  destruct (f a s1); auto; destruct Hf; split; congruence.
Qed.

Ltac keeps :=
  repeat match goal with
  | |- keepsPsr (ret _) => apply keepsPsr_ret
  | |- keepsPsr (throw _) => apply keepsPsr_throw
  | |- keepsPsr getPsr => apply keepsPsr_getPsr
  | |- keepsPsr get => apply keepsPsr_get
  | |- keepsPsr (getRegR _) => apply keepsPsr_getRegR
  | |- keepsPsr (getRegB _) => apply keepsPsr_getRegB
  | |- keepsPsr (getRegA _) => apply keepsPsr_getRegA
  | |- keepsPsr (setRegR _ _) => apply keepsPsr_setRegR
  | |- keepsPsr (getCReg _) => apply keepsPsr_getCReg; assumption
  | |- keepsPsr (setCReg _ _) => apply keepsPsr_setCReg; assumption
  | |- keepsPsr overFlowTrap => apply keepsPsr_overFlowTrap
  | |- keepsPsr illegalInstrTrap => apply keepsPsr_illegalInstrTrap
  | |- keepsPsr (when _ _) => apply keepsPsr_when
  | |- keepsPsr (bind _ _) => apply keepsPsr_bind; [ | intros ]
  | |- keepsPsr (if ?b then _ else _) => destruct b
  | |- keepsPsr (match ?x with _ => _ end) => destruct x
  end.

Ltac advances :=
  repeat match goal with
  | |- advancesOrThrows nextInstr => apply advances_nextInstr
  | |- advancesOrThrows (bind _ _) => apply advances_bind; [ keeps | intros ]
  | |- advancesOrThrows (if ?b then _ else _) => destruct b
  | |- advancesOrThrows (match ?x with _ => _ end) => destruct x
  end.

Lemma aluHandlers_advance h instr :
  wfConsts C = true ->
  In h aluHandlers -> h <> IllegalInstr -> advancesOrThrows (runHandler h instr).
Proof.
  intros Hc Hin Hn.
  destruct (creg_consts_wf Hc) as [(_ & _ & _ & _ & _ & Hshamt) _].
  unfold aluHandlers in Hin. cbn [In] in Hin.
  repeat (destruct Hin as [<- | Hin]); try contradiction; try congruence;
    cbn [runHandler];
    unfold instrAluAddOp, instrAluSubOp, instrAluAndOp, instrAluOrOp,
      instrAluXorOp, instrAluCmpOp, instrAluBitOp, instrAluShaOP,
      instrAluImmOp, instrAluLdoOp, logicTail, shamtOrField,
      addOverFlowCheck, subUnderFlowCheck;
    advances.
Qed.

(** One instruction of the ALU group or an illegal one is all that
    [instrExecute] can run: it returns, and the instruction address is
    the next one or, after a trap, unchanged. *)
Lemma instrExecute_psr (instr : Z) (s : T64Cpu) :
  wfConsts C = true -> wfCpu s ->
  exists s', instrExecute instr s = Done tt s'
             /\ (psrReg s' = addAdrOfs32 (psrReg s) 4 \/ psrReg s' = psrReg s).
Proof.
  intros Hc Hw.
  pose proof (selectHandler_alu_only instr Hc) as Hin.
  assert (Hrun : match instrExecuteBody instr s with
                 | Done _ s' => wfCpu s' /\ psrReg s' = addAdrOfs32 (psrReg s) 4
                 | Throw _ s' => wfCpu s' /\ psrReg s' = psrReg s
                 | Undefined => False
                 end).
  { unfold instrExecuteBody.
    destruct (Handler_eq_illegal (selectHandler instr)) as [E | E].
    - rewrite E. cbn [runHandler]. split; [exact Hw | reflexivity].
    - exact (aluHandlers_advance _ instr Hc Hin E s Hw). }
  unfold instrExecute, try_catch.
  destruct (instrExecuteBody instr s) as [[] s1 | t s1 |]; [| |contradiction].
  - exists s1. split; [reflexivity | left; apply Hrun].
  - destruct Hrun as [Hw1 Hp].
    destruct (trapDelivery_run t s1 Hc Hw1) as (s2 & Hd & _ & _ & _ & _ & _ & Hp2 & _).
    exists s2. split; [exact Hd | right; congruence].
Qed.

End CpuFacts.

(* ------------------------------------------------------------------------- *)
(** ** The assembler *)
(* ------------------------------------------------------------------------- *)

Module AsmFacts.
Import Asm AsmTerms.
Local Open Scope string_scope.

Section WithCommon.
Context {C : T64Common}.

(** With the complement sign as the current token, [parseFactor] calls
    itself on the same token: no amount of fuel is enough. *)
Lemma parseFactor_neg_diverges fuel st :
  atNeg st -> parseFactor fuel st = Diverge.
Proof.
  intros [Ht Hy]. induction fuel as [|fuel IH]; [reflexivity|].
  cbn [parseFactor]. unfold bind at 1. unfold getTok at 1, bind at 1, get, ret.
  rewrite Ht, Hy. cbn [Z.eqb TOK_NEG TOK_NUM typEqb Pos.eqb].
  unfold bind at 1. rewrite IH. reflexivity.
Qed.

Lemma parseTerm_neg_diverges fuel st :
  atNeg st -> parseTerm fuel st = Diverge.
Proof.
  intros H. destruct fuel as [|fuel]; [reflexivity|].
  cbn [parseTerm]. unfold bind at 1.
  rewrite parseFactor_neg_diverges by assumption. reflexivity.
Qed.

Lemma parseExpr_neg_diverges fuel st :
  atNeg st -> parseExpr fuel st = Diverge.
Proof.
  intros H. destruct fuel as [|fuel]; [reflexivity|].
  cbn [parseExpr]. unfold bind at 1. unfold getTok at 1, bind at 1, get, ret.
  destruct H as [Ht Hy]. rewrite Ht.
  cbn [Z.eqb TOK_NEG TOK_PLUS TOK_MINUS Pos.eqb].
  unfold bind at 1.
  rewrite parseTerm_neg_diverges by (split; assumption). reflexivity.
Qed.

Lemma acceptRegR_neg_diverges fuel st :
  atNeg st -> acceptRegR fuel st = Diverge.
Proof.
  intros H. unfold acceptRegR, acceptReg, bind.
  rewrite parseExpr_neg_diverges by assumption. reflexivity.
Qed.


Lemma parseLine_dispatch fuel s st parse :
  let st0 := stateOf (setupTokenizer s st) in
  isOk (setupTokenizer s st) = true ->
  typ (currentToken st0) = TYP_OP_CODE ->
  parserFor (to_u32 (tid (currentToken st0))) = Some parse ->
  parseLine fuel s st
  = parse fuel (to_u32 (tid (currentToken st0)))
          (set_instrCell st0 (to_u32 (val (currentToken st0)))).
Proof.
  intros st0 Hs Ht Hp. unfold parseLine. unfold bind at 1.
  subst st0. destruct (setupTokenizer s st) as [[] st0| | |]; try discriminate.
  cbn [stateOf] in *.
  unfold getTok. unfold bind at 1. unfold bind at 1. unfold get, ret.
  rewrite Ht. cbn [typEqb]. rewrite Hp.
  unfold bind, setInstr, modify. reflexivity.
Qed.

Lemma parseModeTypeInstr_neg_diverges fuel tok st :
  let st1 := stateOf (nextToken st) in
  let st2 := stateOf (parseInstrOptions tok st1) in
  isOk (nextToken st) = true ->
  isOk (parseInstrOptions tok st1) = true ->
  atNeg st2 ->
  parseModeTypeInstr fuel tok st = Diverge.
Proof.
  intros st1 st2 H1 H2 H3. unfold parseModeTypeInstr. unfold bind at 1.
  subst st2 st1. destruct (nextToken st) as [[] st1| | |]; try discriminate.
  cbn [stateOf] in *. unfold bind at 1.
  destruct (parseInstrOptions tok st1) as [fl st2| | |]; try discriminate.
  cbn [stateOf] in *. unfold bind at 1.
  rewrite acceptRegR_neg_diverges by assumption. reflexivity.
Qed.

(** C7.  [assembleInstr] does not return for every input line: on the
    line [ADD ~1] the expression parser, reaching the complement sign,
    calls [parseFactor] again without reading a token, and the call
    never comes back, whatever the recursion depth allowed.  No error
    code and no instruction word reach the caller. *)
Theorem assembleInstr_complement_never_returns (fuel : nat) :
  assembleInstr fuel "ADD ~1" initialAsmState = NoReturn.
Proof.
  unfold assembleInstr.
  rewrite parseLine_dispatch with (parse := parseModeTypeInstr);
    [ | reflexivity | reflexivity | reflexivity ].
  rewrite parseModeTypeInstr_neg_diverges;
    [ reflexivity | reflexivity | reflexivity | split; reflexivity ].
Qed.

(** *** Three lines the assembler accepts, and the words it builds *)

Lemma assembleInstr_ok fuel s st :
  isOk (parseLine fuel s st) = true ->
  assembleInstr fuel s st = Returns NO_ERR (stateOf (parseLine fuel s st)).
Proof.
  unfold assembleInstr. destruct (parseLine fuel s st); try discriminate.
  reflexivity.
Qed.

Lemma asm_BV_ok : isOk (parseLine 50 "BV (R2)" initialAsmState) = true.
Proof. reflexivity. Qed.

Lemma asm_BV_word :
  instrCell (stateOf (parseLine 50 "BV (R2)" initialAsmState)) = branchWord OPC_BV.
Proof. reflexivity. Qed.

Lemma asm_BR_ok : isOk (parseLine 50 "BR.W (R2)" initialAsmState) = true.
Proof. reflexivity. Qed.

Lemma asm_BR_word :
  instrCell (stateOf (parseLine 50 "BR.W (R2)" initialAsmState)) = branchWord OPC_BR.
Proof. reflexivity. Qed.

Lemma asm_CBR_ok : isOk (parseLine 50 "CBR.EQ R1, R2, 0x20" initialAsmState) = true.
Proof. reflexivity. Qed.

Lemma asm_CBR_word :
  instrCell (stateOf (parseLine 50 "CBR.EQ R1, R2, 0x20" initialAsmState)) = cbrWord OPC_CBR.
Proof. reflexivity. Qed.

End WithCommon.

Lemma branchWord_fields opc :
  0 <= opc < 16 ->
  extractInstrOpGroup (branchWord opc) = 2
  /\ extractInstrOpCode (branchWord opc) = opc
  /\ extractInstrFieldU (branchWord opc) 30 2 = 2
  /\ extractInstrFieldU (branchWord opc) 26 4 = opc
  /\ extractInstrFieldU (branchWord opc) 13 2 = 0
  /\ extractInstrRegR (branchWord opc) = 0
  /\ extractInstrRegB (branchWord opc) = 2
  /\ extractInstrRegA (branchWord opc) = 0.
Proof. intros H. each4 H; vm_compute; repeat split; reflexivity. Qed.

Lemma cbrWord_fields opc :
  0 <= opc < 16 ->
  extractInstrOpGroup (cbrWord opc) = 2
  /\ extractInstrOpCode (cbrWord opc) = opc
  /\ extractInstrFieldU (cbrWord opc) 19 3 = 0
  /\ extractInstrRegR (cbrWord opc) = 1
  /\ extractInstrRegB (cbrWord opc) = 2
  /\ extractInstrSignedImm15 (cbrWord opc) = 8.
Proof. intros H. each4 H; vm_compute; repeat split; reflexivity. Qed.

End AsmFacts.

(* ------------------------------------------------------------------------- *)
(** ** The disassembler, and the way back through the assembler *)
(* ------------------------------------------------------------------------- *)

Module DisAsmFacts.
Import Asm DisAsm AsmTerms AsmFacts.
Local Open Scope string_scope.

Section WithCommon.
Context {C : T64Common}.

Lemma switchOn_skip {A} key l (a : A) rest d :
  key <> l -> switchOn key ((l, a) :: rest) d = switchOn key rest d.
Proof. intros H. cbn [switchOn]. apply Z.eqb_neq in H. rewrite H. reflexivity. Qed.

Lemma switchOn_here {A} key l (a : A) rest d :
  key = l -> switchOn key ((l, a) :: rest) d = a.
Proof. intros H. cbn [switchOn]. apply Z.eqb_eq in H. rewrite H. reflexivity. Qed.

Lemma br_consts_wf : wfConsts C = true -> brDistinct.
Proof.
  intros H. use_wf H.
  repeat match goal with
  | D : distinctZ (OPC_B :: _) = true |- _ =>
      repeat (apply distinctZ_cons in D; destruct D as [? D])
  | D : distinctZ _ = true |- _ => clear D
  end.
  cbn [In] in *. unfold brDistinct. repeat split; intros E; intuition congruence.
Qed.

Ltac other_label HN :=
  first [ clear HN; lia
        | let E := fresh "E" in
          intros E; apply Z.add_reg_l in E; unfold brDistinct in HN;
          intuition congruence ].

Ltac pick_case HN :=
  unfold ALU, MEM, BR, SYS, OPC_GRP_ALU, OPC_GRP_MEM, OPC_GRP_BR, OPC_GRP_SYS;
  repeat (rewrite switchOn_skip by other_label HN);
  rewrite switchOn_here by reflexivity.

Lemma buildOpCodeStr_BV :
  wfConsts C = true -> buildOpCodeStr (branchWord OPC_BV) = "BR.W".
Proof.
  intros H. pose proof (br_consts_wf H) as HN. use_wf H.
  assert (Hv : 0 <= OPC_BV < 16) by assumption.
  destruct (branchWord_fields OPC_BV Hv) as (Fg & Fo & F30 & F26 & Fdw & FR & FB & FA).
  unfold buildOpCodeStr. rewrite Fg, Fo, to_u32_small by (clear HN; lia).
  pick_case HN. unfold brBvOpCodeStr. rewrite Fdw. reflexivity.
Qed.

Lemma buildOperandStr_BV rdx :
  wfConsts C = true -> buildOperandStr (branchWord OPC_BV) rdx = "(R2)".
Proof.
  intros H. pose proof (br_consts_wf H) as HN. use_wf H.
  assert (Hv : 0 <= OPC_BV < 16) by assumption.
  destruct (branchWord_fields OPC_BV Hv) as (Fg & Fo & F30 & F26 & Fdw & FR & FB & FA).
  unfold buildOperandStr. rewrite F30, F26, to_u32_small by (clear HN; lia).
  pick_case HN. rewrite FA, FB. unfold optReg. rewrite FR. reflexivity.
Qed.

Lemma formatInstr_BV rdx :
  wfConsts C = true -> formatInstr 64 (branchWord OPC_BV) rdx = Some "BR.W (R2)".
Proof.
  intros H. unfold formatInstr.
  rewrite (buildOpCodeStr_BV H), (buildOperandStr_BV rdx H). reflexivity.
Qed.

(** C6.  Disassembling an assembled word and assembling the text again
    does not always give the word back.  The line [BV (R2)] is accepted
    and yields a word of opcode family BV; [formatInstr] prints that
    word as [BR.W (R2)], the mnemonic of another family; the assembler
    accepts this text too and yields a word of opcode family BR, which
    is not the word the text was printed from. *)
Theorem roundtrip_BV_changes_word :
  wfConsts C = true ->
  exists st1 st2 : AsmState,
    assembleInstr 50 "BV (R2)" initialAsmState = Returns NO_ERR st1
    /\ formatInstr 64 (instrCell st1) 16 = Some "BR.W (R2)"
    /\ assembleInstr 50 "BR.W (R2)" initialAsmState = Returns NO_ERR st2
    /\ extractInstrOpCode (instrCell st1) = OPC_BV
    /\ extractInstrOpCode (instrCell st2) = OPC_BR
    /\ instrCell st2 <> instrCell st1.
Proof.
  intros H. destruct (br_consts_wf H) as (_ & _ & N3 & _).
  assert (Hv : 0 <= OPC_BV < 16) by (pose proof H as H'; use_wf H'; assumption).
  assert (Hr : 0 <= OPC_BR < 16) by (pose proof H as H'; use_wf H'; assumption).
  destruct (branchWord_fields OPC_BV Hv) as (_ & Fv & _).
  destruct (branchWord_fields OPC_BR Hr) as (_ & Fr & _).
  exists (stateOf (parseLine 50 "BV (R2)" initialAsmState)),
         (stateOf (parseLine 50 "BR.W (R2)" initialAsmState)).
  rewrite asm_BV_word, asm_BR_word.
  split; [apply assembleInstr_ok, asm_BV_ok|].
  split; [apply formatInstr_BV; exact H|].
  split; [apply assembleInstr_ok, asm_BR_ok|].
  split; [exact Fv|]. split; [exact Fr|].
  intros E. rewrite E in Fr. congruence.
Qed.

End WithCommon.
End DisAsmFacts.

(* ------------------------------------------------------------------------- *)
(** ** A conditional branch, from the assembler to the CPU *)
(* ------------------------------------------------------------------------- *)

Section Scenario.
Context {C : T64Common} {MS : T64MemSys}.
Import AsmTerms AsmFacts.
Local Open Scope string_scope.

Lemma instrBrCbrOp_taken (s : T64Cpu) (instr : Z) (v : Z) :
  wfCpu s ->
  extractInstrFieldU instr 19 3 = 0 ->
  greg s (extractInstrRegR instr) = v ->
  greg s (extractInstrRegB instr) = v ->
  instrBrCbrOp instr s
  = Done tt (set_psrReg s (addAdrOfs32 (psrReg s) (extractInstrSignedImm15 instr))).
Proof.
  intros Hw Ho Hr Hb. unfold instrBrCbrOp, bind.
  rewrite getRegR_run, getRegB_run by assumption.
  unfold condBranch. rewrite Ho, Hr, Hb. cbn [evalCond]. rewrite Z.eqb_refl.
  reflexivity.
Qed.

(** C8.  The branch scenario does not end at 0x120.  The assembler
    accepts [CBR.EQ R1, R2, 0x20] and stores 0x20 / 4 = 8 in imm15 of a
    word of the branch group.  The CBR handler adds imm15 as it is, not
    times 4, so run on that word with R1 = R2 = 3 at 0x100 it ends at
    0x108; and [instrExecute], which looks at the opcode field only,
    does not reach the CBR handler at all: it runs a handler of the ALU
    group or the illegal instruction trap, and returns with the
    instruction address at 0x104 or 0x100. *)
Theorem cbr_scenario_misses_target (s : T64Cpu) :
  wfConsts C = true -> wfCpu s -> psrReg s = 256 ->
  getGeneralReg s 1 = Some 3 -> getGeneralReg s 2 = Some 3 ->
  exists (st : Asm.AsmState) (s' : T64Cpu),
    Asm.assembleInstr 50 "CBR.EQ R1, R2, 0x20" Asm.initialAsmState
    = Asm.Returns Asm.NO_ERR st
    /\ extractInstrOpGroup (Asm.instrCell st) = OPC_GRP_BR
    /\ extractInstrOpCode (Asm.instrCell st) = OPC_CBR
    /\ extractInstrSignedImm15 (Asm.instrCell st) = 8
    /\ instrBrCbrOp (Asm.instrCell st) s = Done tt (set_psrReg s 264)
    /\ In (selectHandler (Asm.instrCell st)) aluHandlers
    /\ instrExecute (Asm.instrCell st) s = Done tt s'
    /\ (psrReg s' = 260 \/ psrReg s' = 256)
    /\ psrReg s' <> 288.
Proof.
  intros Hc Hw Hpsr H1 H2.
  assert (Hk : 0 <= OPC_CBR < 16) by (pose proof Hc as H'; use_wf H'; assumption).
  destruct (cbrWord_fields OPC_CBR Hk) as (Fg & Fo & Fopt & FR & FB & Fi).
  destruct (instrExecute_psr (cbrWord OPC_CBR) s Hc Hw) as (s' & Hrun & Hp).
  rewrite Hpsr in Hp. change (addAdrOfs32 256 4) with 260 in Hp.
  exists (stateOf (Asm.parseLine 50 "CBR.EQ R1, R2, 0x20" Asm.initialAsmState)), s'.
  rewrite asm_CBR_word.
  split; [apply assembleInstr_ok, asm_CBR_ok|].
  split; [exact Fg|]. split; [exact Fo|]. split; [exact Fi|].
  split.
  { rewrite (instrBrCbrOp_taken s _ 3 Hw Fopt).
    - rewrite Fi, Hpsr. reflexivity.
    - rewrite FR. rewrite getGeneralReg_greg in H1 by (assumption || lia). congruence.
    - rewrite FB. rewrite getGeneralReg_greg in H2 by (assumption || lia). congruence. }
  split; [apply selectHandler_alu_only; exact Hc|].
  split; [exact Hrun|]. split; [exact Hp|]. lia.
Qed.

End Scenario.

(* ------------------------------------------------------------------------- *)
(** ** The statements on concrete machines *)
(* ------------------------------------------------------------------------- *)

Local Open Scope string_scope.

Lemma sampleCommon_wf : wfConsts sampleCommon = true.
Proof. reflexivity. Qed.

Lemma dispatch_ignores_group_witness :
  @selectHandler sampleCommon 1342177280 = AluAddOp
  /\ @selectHandler sampleCommon 1342177280 <> MemAddOp
  /\ extractInstrOpGroup 1342177280 * 16 + extractInstrOpCode 1342177280
     = OPC_GRP_MEM * 16 + @OPC_ADD sampleCommon
  /\ (forall instr' : Z,
        extractInstrOpCode instr' = extractInstrOpCode 1342177280 ->
        @selectHandler sampleCommon instr' = @selectHandler sampleCommon 1342177280).
Proof.
  apply (@dispatch_ignores_group sampleCommon 1342177280); reflexivity.
Defined.

Lemma overflowCpu_regs : Forall in_i64 (gRegFile overflowCpu).
Proof.
  repeat (constructor; [unfold in_i64, INT64_MIN, INT64_MAX; lia|]). constructor.
Defined.

Lemma trap_delivery_leaves_psr_witness :
  exists s'' : @T64Cpu noMemSys,
    @instrExecute sampleCommon noMemSys 277381121 overflowCpu = Done tt s''
    /\ getControlReg s'' (@CTL_REG_IPSR sampleCommon) = Some 256
    /\ getControlReg s'' (@CTL_REG_IINSTR sampleCommon) = Some 0
    /\ getControlReg s'' (@CTL_REG_IARG_0 sampleCommon) = Some 0
    /\ getControlReg s'' (@CTL_REG_IARG_1 sampleCommon) = Some 0
    /\ getControlReg s'' (@CTL_REG_IVA sampleCommon)
       = getControlReg overflowCpu (@CTL_REG_IVA sampleCommon)
    /\ psrReg s'' = psrReg overflowCpu
    /\ gRegFile s'' = gRegFile overflowCpu
    /\ psrReg s'' = 256
    /\ getControlReg s'' (@CTL_REG_IVA sampleCommon) = Some 0.
Proof.
  destruct (@trap_delivery_leaves_psr sampleCommon noMemSys 277381121 overflowCpu
              overflowCpu (mkT64Trap OVERFLOW_TRAP 256 0 0)
              eq_refl (conj eq_refl eq_refl) eq_refl)
    as (s'' & Hrun & H1 & H2 & H3 & H4 & H5 & H6 & H7).
  exists s''. repeat split; assumption.
Defined.

Lemma alu_add_overflow_trap_witness :
  @instrExecuteBody sampleCommon noMemSys 277381121 overflowCpu
  = Throw (mkT64Trap OVERFLOW_TRAP 256 0 0) overflowCpu
  /\ exists s'' : @T64Cpu noMemSys,
       @instrExecute sampleCommon noMemSys 277381121 overflowCpu = Done tt s''
       /\ gRegFile s'' = gRegFile overflowCpu
       /\ psrReg s'' = psrReg overflowCpu.
Proof.
  apply (@alu_add_overflow_trap sampleCommon noMemSys overflowCpu 277381121);
    [ reflexivity | split; reflexivity | exact overflowCpu_regs
    | reflexivity | reflexivity | right; reflexivity | ].
  unfold in_i64, INT64_MIN, INT64_MAX. vm_compute. intros [_ H]. apply H. reflexivity.
Defined.

Lemma immop_mode2_mode3_keep_RegR_witness :
  instrAluImmOp 677380101 cbrCpu
  = Done tt (set_psrReg cbrCpu 260)
  /\ (forall s', instrAluImmOp 677380101 cbrCpu = Done tt s' ->
        getGeneralReg s' 1 = getGeneralReg cbrCpu 1)
  /\ getGeneralReg cbrCpu 1 = Some 3
  /\ depositField 3 32 20 (extractInstrImm20 677380101) = 21474836483.
Proof.
  assert (Hw : wfCpu cbrCpu) by (split; reflexivity).
  assert (Hm : extractInstrFieldU 677380101 20 2 = 2
               \/ extractInstrFieldU 677380101 20 2 = 3) by (left; reflexivity).
  destruct (@immop_mode2_mode3_keep_RegR noMemSys cbrCpu 677380101 Hw Hm)
    as [Hrun Hreg].
  split; [exact Hrun|]. split; [exact Hreg|]. split; reflexivity.
Defined.

(** With the opcode numbering of [sampleCommon]: the text printed for
    the word of [LDIL.M R1, 5] names no opcode of the assembler. *)
Lemma roundtrip_LDIL_text_rejected :
  exists st1 st2 : Asm.AsmState,
    @Asm.assembleInstr sampleCommon 50 "LDIL.M R1, 5" Asm.initialAsmState
    = Asm.Returns Asm.NO_ERR st1
    /\ @DisAsm.formatInstr sampleCommon 64 (Asm.instrCell st1) 16
       = Some "LDI.S R1,5"
    /\ @Asm.assembleInstr sampleCommon 50 "LDI.S R1,5" Asm.initialAsmState
       = Asm.Returns Asm.ERR_EXPECTED_OPCODE st2
    /\ Asm.instrCell st2 = 0.
Proof.
  eexists. eexists.
  split; [vm_compute; reflexivity|].
  split; [vm_compute; reflexivity|].
  split; vm_compute; reflexivity.
Qed.

Lemma roundtrip_BV_changes_word_witness :
  exists st1 st2 : Asm.AsmState,
    @Asm.assembleInstr sampleCommon 50 "BV (R2)" Asm.initialAsmState
    = Asm.Returns Asm.NO_ERR st1
    /\ @DisAsm.formatInstr sampleCommon 64 (Asm.instrCell st1) 16 = Some "BR.W (R2)"
    /\ @Asm.assembleInstr sampleCommon 50 "BR.W (R2)" Asm.initialAsmState
       = Asm.Returns Asm.NO_ERR st2
    /\ extractInstrOpCode (Asm.instrCell st1) = @OPC_BV sampleCommon
    /\ extractInstrOpCode (Asm.instrCell st2) = @OPC_BR sampleCommon
    /\ Asm.instrCell st2 <> Asm.instrCell st1.
Proof.
  apply (@DisAsmFacts.roundtrip_BV_changes_word sampleCommon). reflexivity.
Defined.

Lemma cbr_scenario_misses_target_witness :
  exists (st : @Asm.AsmState) (s' : @T64Cpu noMemSys),
    @Asm.assembleInstr sampleCommon 50 "CBR.EQ R1, R2, 0x20" Asm.initialAsmState
    = Asm.Returns Asm.NO_ERR st
    /\ extractInstrOpGroup (Asm.instrCell st) = OPC_GRP_BR
    /\ extractInstrOpCode (Asm.instrCell st) = @OPC_CBR sampleCommon
    /\ extractInstrSignedImm15 (Asm.instrCell st) = 8
    /\ instrBrCbrOp (Asm.instrCell st) cbrCpu = Done tt (set_psrReg cbrCpu 264)
    /\ In (@selectHandler sampleCommon (Asm.instrCell st)) aluHandlers
    /\ @instrExecute sampleCommon noMemSys (Asm.instrCell st) cbrCpu = Done tt s'
    /\ (psrReg s' = 260 \/ psrReg s' = 256)
    /\ psrReg s' <> 288.
Proof.
  apply (@cbr_scenario_misses_target sampleCommon noMemSys cbrCpu);
    [ reflexivity | split; reflexivity | reflexivity | reflexivity | reflexivity ].
Defined.


(** * Bit fields, overflow tests and address arithmetic of T64-Util.h *)

Module UtilFacts.
Local Open Scope Z_scope.

Lemma ones_shiftl n : 0 <= n -> Z.shiftl 1 n - 1 = Z.ones n.
Proof. intros H. rewrite Z.shiftl_1_l, Z.ones_equiv. lia. Qed.

Lemma to_u32_testbit z n :
  0 <= n -> Z.testbit (to_u32 z) n = (n <? 32) && Z.testbit z n.
Proof.
  intros Hn. unfold to_u32. destruct (Z.ltb_spec n 32).
  - rewrite Z.mod_pow2_bits_low by lia. reflexivity.
  - rewrite Z.mod_pow2_bits_high by lia. reflexivity.
Qed.

Lemma to_u64_testbit z n :
  0 <= n -> Z.testbit (to_u64 z) n = (n <? 64) && Z.testbit z n.
Proof.
  intros Hn. unfold to_u64. destruct (Z.ltb_spec n 64).
  - rewrite Z.mod_pow2_bits_low by lia. reflexivity.
  - rewrite Z.mod_pow2_bits_high by lia. reflexivity.
Qed.

Lemma to_i64_mod z : to_i64 z mod 2 ^ 64 = z mod 2 ^ 64.
Proof.
  unfold to_i64.
  rewrite Zminus_mod, Zmod_mod, <- Zminus_mod. f_equal. lia.
Qed.

Lemma to_i64_testbit_low z n :
  0 <= n < 64 -> Z.testbit (to_i64 z) n = Z.testbit z n.
Proof.
  intros Hn.
  rewrite <- (Z.mod_pow2_bits_low (to_i64 z) 64 n) by lia.
  rewrite to_i64_mod. apply Z.mod_pow2_bits_low. lia.
Qed.

Lemma to_i32_mod z : to_i32 z mod 2 ^ 32 = z mod 2 ^ 32.
Proof.
  unfold to_i32.
  rewrite Zminus_mod, Zmod_mod, <- Zminus_mod. f_equal. lia.
Qed.

Lemma to_i32_testbit_low z n :
  0 <= n < 32 -> Z.testbit (to_i32 z) n = Z.testbit z n.
Proof.
  intros Hn.
  rewrite <- (Z.mod_pow2_bits_low (to_i32 z) 32 n) by lia.
  rewrite to_i32_mod. apply Z.mod_pow2_bits_low. lia.
Qed.

Lemma ones_testbit len m :
  0 <= len -> Z.testbit (Z.ones len) m = (0 <=? m) && (m <? len).
Proof.
  intros Hl. destruct (Z.leb_spec 0 m); cbn [andb].
  - destruct (Z.ltb_spec m len).
    + apply Z.ones_spec_low. lia.
    + apply Z.ones_spec_high. lia.
  - apply Z.testbit_neg_r. lia.
Qed.

Lemma depositInstrField_testbit instr pos len v m :
  0 <= pos -> 0 <= len -> 0 <= m ->
  Z.testbit (depositInstrField instr pos len v) m
  = (m <? 32) && (if (pos <=? m) && (m <? pos + len)
                  then Z.testbit v (m - pos) else Z.testbit instr m).
Proof.
  intros Hp Hl Hm. unfold depositInstrField.
  rewrite ones_shiftl by assumption.
  rewrite to_u32_testbit by assumption.
  destruct (Z.ltb_spec m 32); cbn [andb]; [|reflexivity].
  rewrite Z.lor_spec, !Z.land_spec, !to_u32_testbit by assumption.
  rewrite Z.lnot_spec by assumption.
  rewrite to_u32_testbit by assumption.
  rewrite !Z.shiftl_spec by assumption.
  rewrite ones_testbit by assumption.
  destruct (Z.ltb_spec m 32); [|lia]. cbn [andb].
  destruct (Z.leb_spec pos m); destruct (Z.ltb_spec m (pos + len));
    destruct (Z.leb_spec 0 (m - pos)); destruct (Z.ltb_spec (m - pos) len);
    try lia; cbn [andb negb orb];
    rewrite ?andb_true_r, ?andb_false_r, ?orb_false_r, ?orb_false_l; reflexivity.
Qed.

Lemma extractInstrFieldU_testbit w pos len n :
  0 <= pos -> 0 <= len <= 30 -> pos + len <= 32 -> 0 <= n ->
  Z.testbit (extractInstrFieldU w pos len) n
  = (n <? len) && Z.testbit w (n + pos).
Proof.
  intros Hp Hl Hpl Hn. unfold extractInstrFieldU.
  destruct (Z.gtb_spec pos 31).
  { assert (len = 0) by lia. subst len.
    rewrite Z.testbit_0_l. destruct (Z.ltb_spec n 0); [lia|reflexivity]. }
  destruct (Z.gtb_spec (pos + len) 32); [lia|].
  rewrite ones_shiftl by lia.
  assert (Hr : 0 <= Z.land (Z.shiftr w pos) (Z.ones len) < 2 ^ len).
  { rewrite Z.land_ones by lia. apply Z.mod_pos_bound.
    apply Z.pow_pos_nonneg; lia. }
  assert (2 ^ len <= 2 ^ 30) by (apply Z.pow_le_mono_r; lia).
  unfold to_i32. rewrite Z.mod_small by lia.
  replace (Z.land (Z.shiftr w pos) (Z.ones len) + 2 ^ 31 - 2 ^ 31)
    with (Z.land (Z.shiftr w pos) (Z.ones len)) by lia.
  rewrite Z.land_spec, Z.shiftr_spec, ones_testbit by lia.
  destruct (Z.leb_spec 0 n); [|lia]. cbn [andb].
  apply andb_comm.
Qed.

Lemma depositInstrField_extract_same (instr pos len v : Z) :
  0 <= pos -> 0 < len <= 30 -> pos + len <= 32 ->
  extractInstrFieldU (depositInstrField instr pos len v) pos len = v mod 2 ^ len.
Proof.
  intros Hp Hl Hpl. apply Z.bits_inj'. intros n Hn.
  rewrite extractInstrFieldU_testbit by lia.
  destruct (Z.ltb_spec n len); cbn [andb].
  - rewrite depositInstrField_testbit by lia.
    rewrite Z.mod_pow2_bits_low by lia.
    destruct (Z.ltb_spec (n + pos) 32); [|lia].
    destruct (Z.leb_spec pos (n + pos)); [|lia].
    destruct (Z.ltb_spec (n + pos) (pos + len)); [|lia].
    cbn [andb]. f_equal. lia.
  - rewrite Z.mod_pow2_bits_high by lia. reflexivity.
Qed.

Lemma depositInstrField_extract_other (instr pos len v pos' len' : Z) :
  0 <= pos -> 0 < len <= 30 -> pos + len <= 32 ->
  0 <= pos' -> 0 <= len' <= 30 -> pos' + len' <= 32 ->
  pos' + len' <= pos \/ pos + len <= pos' ->
  extractInstrFieldU (depositInstrField instr pos len v) pos' len'
  = extractInstrFieldU instr pos' len'.
Proof.
  intros Hp Hl Hpl Hp' Hl' Hpl' Hd. apply Z.bits_inj'. intros n Hn.
  rewrite !extractInstrFieldU_testbit by lia.
  destruct (Z.ltb_spec n len'); cbn [andb]; [|reflexivity].
  rewrite depositInstrField_testbit by lia.
  destruct (Z.ltb_spec (n + pos') 32); [|lia]. cbn [andb].
  destruct (Z.leb_spec pos (n + pos'));
    destruct (Z.ltb_spec (n + pos') (pos + len)); cbn [andb]; try reflexivity.
  lia.
Qed.

Lemma depositInstrField_field instr pos len v :
  0 <= pos -> 0 < len -> pos + len <= 32 ->
  Z.land (Z.shiftr (depositInstrField instr pos len v) pos) (Z.shiftl 1 len - 1)
  = v mod 2 ^ len.
Proof.
  intros Hp Hl Hpl. rewrite ones_shiftl by lia.
  apply Z.bits_inj'. intros n Hn.
  rewrite Z.land_spec, Z.shiftr_spec, ones_testbit by lia.
  destruct (Z.leb_spec 0 n); [|lia]. cbn [andb].
  destruct (Z.ltb_spec n len).
  - rewrite depositInstrField_testbit by lia.
    rewrite Z.mod_pow2_bits_low by lia.
    destruct (Z.ltb_spec (n + pos) 32); [|lia].
    destruct (Z.leb_spec pos (n + pos)); [|lia].
    destruct (Z.ltb_spec (n + pos) (pos + len)); [|lia].
    cbn [andb]. rewrite andb_true_r. f_equal. lia.
  - rewrite Z.mod_pow2_bits_high by lia. apply andb_false_r.
Qed.

Lemma to_i32_eq z z' k :
  z = z' + k * 2 ^ 32 -> - 2 ^ 31 <= z' < 2 ^ 31 -> to_i32 z = z'.
Proof.
  intros -> H. unfold to_i32.
  replace (z' + k * 2 ^ 32 + 2 ^ 31) with (z' + 2 ^ 31 + k * 2 ^ 32) by lia.
  rewrite Z.mod_add by lia. rewrite Z.mod_small by lia. lia.
Qed.

Lemma isInRangeForInstrBitFieldS_spec v len :
  0 < len <= 31 -> - 2 ^ 31 <= v < 2 ^ 31 ->
  isInRangeForInstrBitFieldS v len = true
  <-> - 2 ^ (len - 1) <= v < 2 ^ (len - 1).
Proof.
  intros Hl Hv. unfold isInRangeForInstrBitFieldS.
  rewrite (to_i32_eq v v 0) by lia.
  rewrite Z.rem_small by lia. rewrite Z.shiftl_1_l.
  rewrite andb_true_iff, Z.leb_le, Z.geb_le. lia.
Qed.

(** [depositInstrField], [extractInstrFieldS], [isInRangeForInstrBitFieldS]
    (T64-Util.h): a signed value that the range check accepts for a field of
    [len] bits is read back unchanged, sign included, after it was deposited
    in that field of an instruction word. *)
Theorem signed_field_round_trip (instr pos len v : Z) :
  0 <= pos -> 0 < len <= 30 -> pos + len <= 32 ->
  - 2 ^ 31 <= v < 2 ^ 31 ->
  isInRangeForInstrBitFieldS v len = true ->
  extractInstrFieldS (depositInstrField instr pos len v) pos len = v.
Proof.
  intros Hp Hl Hpl Hv Hr.
  apply isInRangeForInstrBitFieldS_spec in Hr; [|lia|assumption].
  unfold extractInstrFieldS. destruct (Z.eqb_spec len 0); [lia|].
  cbv zeta. rewrite depositInstrField_field by lia.
  assert (Hk : 0 < 2 ^ (32 - len)) by (apply Z.pow_pos_nonneg; lia).
  assert (Hh : 0 < 2 ^ (len - 1)) by (apply Z.pow_pos_nonneg; lia).
  assert (E2 : 2 ^ len = 2 * 2 ^ (len - 1)).
  { replace len with (1 + (len - 1)) at 1 by lia. rewrite Z.pow_add_r by lia. reflexivity. }
  assert (E32 : 2 ^ 32 = 2 ^ len * 2 ^ (32 - len)).
  { rewrite <- Z.pow_add_r by lia. f_equal. lia. }
  rewrite Z.shiftl_mul_pow2, Z.shiftr_div_pow2 by lia.
  assert (E31 : 2 ^ 31 = 2 ^ (len - 1) * 2 ^ (32 - len)).
  { rewrite <- Z.pow_add_r by lia. f_equal. lia. }
  destruct (Z_lt_le_dec v 0) as [Hneg | Hpos].
  - assert (Hm : v mod 2 ^ len = v + 2 ^ len).
    { symmetry. apply Z.mod_unique with (q := -1); lia. }
    rewrite Hm.
    rewrite (to_i32_eq _ (v * 2 ^ (32 - len)) 1).
    + apply Z.div_mul. lia.
    + rewrite E32. ring.
    + rewrite E31. nia.
  - rewrite Z.mod_small by lia.
    rewrite (to_i32_eq _ (v * 2 ^ (32 - len)) 0).
    + apply Z.div_mul. lia.
    + ring.
    + rewrite E31. nia.
Qed.

Lemma depositField_testbit w pos len v m :
  0 <= pos -> 0 <= len -> 0 <= m < 64 ->
  Z.testbit (depositField w pos len v) m
  = if (pos <=? m) && (m <? pos + len)
    then Z.testbit v (m - pos) else Z.testbit w m.
Proof.
  intros Hp Hl Hm. unfold depositField.
  rewrite ones_shiftl by assumption.
  rewrite Z.lor_spec, !Z.land_spec, Z.lnot_spec by lia.
  rewrite !to_i64_testbit_low by lia.
  rewrite !Z.shiftl_spec by lia.
  destruct (Z.leb_spec pos m).
  - rewrite to_u64_testbit by lia. rewrite ones_testbit by lia.
    destruct (Z.ltb_spec (m - pos) 64); [|lia].
    destruct (Z.leb_spec 0 (m - pos)); [|lia].
    destruct (Z.ltb_spec (m - pos) len); destruct (Z.ltb_spec m (pos + len));
      try lia; cbn [andb negb orb];
      rewrite ?andb_true_r, ?andb_false_r, ?orb_false_r, ?orb_false_l; reflexivity.
  - rewrite (Z.testbit_neg_r _ (m - pos)) by lia.
    rewrite (Z.testbit_neg_r v (m - pos)) by lia.
    cbn [andb negb orb]. rewrite andb_true_r, orb_false_r. reflexivity.
Qed.

Lemma field_mask64 len :
  0 <= len <= 63 -> to_i64 (to_i64 (Z.shiftl 1 len) - 1) = Z.ones len.
Proof.
  intros Hl. destruct (Z.eq_dec len 63) as [-> | Hn]; [reflexivity|].
  assert (Hlt : 2 ^ len <= 2 ^ 62) by (apply Z.pow_le_mono_r; lia).
  assert (Hpos : 0 < 2 ^ len) by (apply Z.pow_pos_nonneg; lia).
  rewrite Z.shiftl_1_l.
  rewrite (to_i64_id (2 ^ len)) by (unfold in_i64, INT64_MIN, INT64_MAX; lia).
  rewrite to_i64_id by (unfold in_i64, INT64_MIN, INT64_MAX; lia).
  rewrite Z.ones_equiv. lia.
Qed.

Lemma extractField64_testbit w pos len n :
  0 <= pos -> 0 <= len <= 63 -> pos + len <= 64 -> 0 <= n ->
  Z.testbit (extractField64 w pos len) n
  = (n <? len) && Z.testbit w (n + pos).
Proof.
  intros Hp Hl Hpl Hn. unfold extractField64.
  destruct (Z.gtb_spec pos 63).
  { assert (len = 0) by lia. subst len.
    rewrite Z.testbit_0_l. destruct (Z.ltb_spec n 0); [lia|reflexivity]. }
  destruct (Z.gtb_spec (pos + len) 64); [lia|].
  rewrite field_mask64 by lia.
  rewrite Z.land_spec, Z.shiftr_spec, ones_testbit by lia.
  destruct (Z.leb_spec 0 n); [|lia]. cbn [andb].
  apply andb_comm.
Qed.

Lemma depositField_extract_same (w pos len v : Z) :
  0 <= pos -> 0 < len <= 62 -> pos + len <= 64 ->
  extractField64 (depositField w pos len v) pos len = v mod 2 ^ len.
Proof.
  intros Hp Hl Hpl. apply Z.bits_inj'. intros n Hn.
  rewrite extractField64_testbit by lia.
  destruct (Z.ltb_spec n len); cbn [andb].
  - rewrite depositField_testbit by lia.
    rewrite Z.mod_pow2_bits_low by lia.
    destruct (Z.leb_spec pos (n + pos)); [|lia].
    destruct (Z.ltb_spec (n + pos) (pos + len)); [|lia].
    cbn [andb]. f_equal. lia.
  - rewrite Z.mod_pow2_bits_high by lia. reflexivity.
Qed.

Lemma depositField_extract_other (w pos len v pos' len' : Z) :
  0 <= pos -> 0 < len <= 62 -> pos + len <= 64 ->
  0 <= pos' -> 0 <= len' <= 62 -> pos' + len' <= 64 ->
  pos' + len' <= pos \/ pos + len <= pos' ->
  extractField64 (depositField w pos len v) pos' len' = extractField64 w pos' len'.
Proof.
  intros Hp Hl Hpl Hp' Hl' Hpl' Hd. apply Z.bits_inj'. intros n Hn.
  rewrite !extractField64_testbit by lia.
  destruct (Z.ltb_spec n len'); cbn [andb]; [|reflexivity].
  rewrite depositField_testbit by lia.
  destruct (Z.leb_spec pos (n + pos'));
    destruct (Z.ltb_spec (n + pos') (pos + len)); cbn [andb]; try reflexivity.
  lia.
Qed.

(** [depositInstrField], [extractInstrFieldU] (T64-Util.h): a field written
    into an instruction word reads back as the low [len] bits of the value
    written, and every field that does not overlap it reads as before. *)
Theorem instr_field_round_trip (instr pos len v pos' len' : Z) :
  0 <= pos -> 0 < len <= 30 -> pos + len <= 32 ->
  extractInstrFieldU (depositInstrField instr pos len v) pos len = v mod 2 ^ len
  /\ (0 <= pos' -> 0 <= len' <= 30 -> pos' + len' <= 32 ->
      pos' + len' <= pos \/ pos + len <= pos' ->
      extractInstrFieldU (depositInstrField instr pos len v) pos' len'
      = extractInstrFieldU instr pos' len').
Proof.
  intros Hp Hl Hpl. split.
  - apply depositInstrField_extract_same; assumption.
  - intros. apply depositInstrField_extract_other; assumption.
Qed.

(** [depositField], [extractField64] (T64-Util.h): the same for a field of a
    64-bit word: the field written reads back as the low [len] bits of the
    value, and a field that does not overlap it is left as it was. *)
Theorem word_field_round_trip (w pos len v pos' len' : Z) :
  0 <= pos -> 0 < len <= 62 -> pos + len <= 64 ->
  extractField64 (depositField w pos len v) pos len = v mod 2 ^ len
  /\ (0 <= pos' -> 0 <= len' <= 62 -> pos' + len' <= 64 ->
      pos' + len' <= pos \/ pos + len <= pos' ->
      extractField64 (depositField w pos len v) pos' len' = extractField64 w pos' len').
Proof.
  intros Hp Hl Hpl. split.
  - apply depositField_extract_same; assumption.
  - intros. apply depositField_extract_other; assumption.
Qed.

Ltac i64 := unfold in_i64, INT64_MAX, INT64_MIN in *.

Lemma willSubOverflow_cases (a b : Z) :
  in_i64 a -> in_i64 b ->
  (willSubOverflow a b = true <-> a - b < INT64_MIN \/ INT64_MAX < a - b)
  /\ (willSubOverflow a b = false <-> INT64_MIN <= a - b <= INT64_MAX).
Proof.
  intros Ha Hb. unfold willSubOverflow.
  destruct (Z.ltb_spec b 0) as [Hneg | Hnn]; cbn [andb].
  - rewrite to_i64_id by (i64; lia).
    destruct (Z.gtb_spec a (INT64_MAX + b)).
    + i64. split; split; intros; try reflexivity; try lia; discriminate.
    + destruct (Z.gtb_spec b 0); [lia|].
      cbn [andb]. i64. split; split; intros; try reflexivity; try lia; discriminate.
  - destruct (Z.gtb_spec b 0) as [Hpos | Hz]; cbn [andb].
    + rewrite to_i64_id by (i64; lia).
      destruct (Z.ltb_spec a (INT64_MIN + b)).
      * i64. split; split; intros; try reflexivity; try lia; discriminate.
      * i64. split; split; intros; try reflexivity; try lia; discriminate.
    + i64. split; split; intros; try reflexivity; try lia; discriminate.
Qed.

Lemma willSubOverflow_spec (a b : Z) :
  in_i64 a -> in_i64 b -> (willSubOverflow a b = true <-> ~ in_i64 (a - b)).
Proof.
  intros Ha Hb. destruct (willSubOverflow_cases a b Ha Hb) as [H1 H2].
  rewrite H1. unfold in_i64. lia.
Qed.

(** [willSubOverflow] (T64-Util.h) answers true exactly when the difference
    of two 64-bit operands lies outside the signed 64-bit range, and false
    exactly when it lies inside. *)
Theorem willSubOverflow_tight (a b : Z) :
  in_i64 a -> in_i64 b ->
  (willSubOverflow a b = true <-> a - b < INT64_MIN \/ INT64_MAX < a - b)
  /\ (willSubOverflow a b = false <-> INT64_MIN <= a - b <= INT64_MAX).
Proof. exact (willSubOverflow_cases a b). Qed.

Lemma quot_in_i64 a b :
  in_i64 a -> in_i64 b -> b <> 0 -> ~ (a = INT64_MIN /\ b = -1) ->
  in_i64 (Z.quot a b).
Proof.
  i64. intros Ha Hb Hb0 Hn.
  pose proof (Z.quot_rem' a b) as E.
  pose proof (Z.rem_bound_abs a b Hb0) as R.
  assert (S : 0 <= Z.rem a b * a) by (apply Z.rem_sign_mul; assumption).
  generalize dependent (Z.rem a b). generalize dependent (Z.quot a b).
  intros q r E R S. nia.
Qed.

Lemma willDivOverflow_cases (a b : Z) :
  in_i64 a -> in_i64 b ->
  (willDivOverflow a b = false <-> b <> 0 /\ in_i64 (Z.quot a b))
  /\ (willDivOverflow a b = true <-> b = 0 \/ (a = INT64_MIN /\ b = -1)).
Proof.
  intros Ha Hb. unfold willDivOverflow.
  destruct (Z.eqb_spec b 0) as [-> | Hb0].
  { split; split; intros; try reflexivity; try discriminate; intuition lia. }
  destruct (Z.eqb_spec a INT64_MIN) as [-> | Ha0]; cbn [andb].
  - destruct (Z.eqb_spec b (-1)) as [-> | Hb1].
    + split; split; intros; try reflexivity; try discriminate; try tauto.
      destruct H as [_ H]. vm_compute in H. destruct H as [_ H]. exfalso; apply H; reflexivity.
    + split; split; intros; try reflexivity; try discriminate.
      * split; [assumption|]. apply quot_in_i64; try assumption. intros [_ E]; lia.
      * intuition lia.
  - split; split; intros; try reflexivity; try discriminate.
    + split; [assumption|]. apply quot_in_i64; try assumption. intros [E _]; lia.
    + intuition lia.
Qed.

(** [willDivOverflow] (T64-Util.h) answers true exactly for a zero divisor
    and for INT64_MIN divided by -1; in every other case the truncated
    quotient is a signed 64-bit number. *)
Theorem willDivOverflow_spec (a b : Z) :
  in_i64 a -> in_i64 b ->
  (willDivOverflow a b = false <-> b <> 0 /\ in_i64 (Z.quot a b))
  /\ (willDivOverflow a b = true <-> b = 0 \/ (a = INT64_MIN /\ b = -1)).
Proof. exact (willDivOverflow_cases a b). Qed.

Lemma quot_pos_pos m d : 0 <= m -> 0 < d -> d * (Z.quot m d) <= m < d * (Z.quot m d) + d.
Proof.
  intros Hm Hd. rewrite Z.quot_div_nonneg by lia.
  pose proof (Z.div_mod m d ltac:(lia)). pose proof (Z.mod_pos_bound m d Hd). lia.
Qed.

Lemma quot_neg_pos m d : m <= 0 -> 0 < d -> d * (Z.quot m d) - d < m <= d * (Z.quot m d).
Proof.
  intros Hm Hd.
  assert (E : Z.quot m d = - Z.quot (- m) d).
  { rewrite <- Z.quot_opp_l by lia. f_equal. lia. }
  rewrite E. pose proof (quot_pos_pos (- m) d ltac:(lia) Hd). lia.
Qed.

Lemma quot_pos_neg m d : 0 <= m -> d < 0 -> d * (Z.quot m d) <= m < d * (Z.quot m d) - d.
Proof.
  intros Hm Hd.
  assert (E : Z.quot m d = - Z.quot m (- d)).
  { rewrite <- Z.quot_opp_r by lia. f_equal. lia. }
  rewrite E. pose proof (quot_pos_pos m (- d) Hm ltac:(lia)). lia.
Qed.

Lemma gt_quot_pos a m d : 0 <= m -> 0 < d -> (a > Z.quot m d <-> a * d > m).
Proof.
  intros Hm Hd. pose proof (quot_pos_pos m d Hm Hd).
  generalize dependent (Z.quot m d). intros q H. nia.
Qed.

Lemma lt_quot_neg_pos a m d : m <= 0 -> 0 < d -> (a < Z.quot m d <-> a * d < m).
Proof.
  intros Hm Hd. pose proof (quot_neg_pos m d Hm Hd).
  generalize dependent (Z.quot m d). intros q H. nia.
Qed.

Lemma lt_quot_pos_neg a m d : 0 <= m -> d < 0 -> (a < Z.quot m d <-> a * d > m).
Proof.
  intros Hm Hd. pose proof (quot_pos_neg m d Hm Hd).
  generalize dependent (Z.quot m d). intros q H. nia.
Qed.

Lemma willMultOverflow_cases (a b : Z) :
  in_i64 a -> in_i64 b ->
  (willMultOverflow a b = true <-> a * b < INT64_MIN \/ INT64_MAX < a * b).
Proof.
  intros Ha Hb. unfold willMultOverflow.
  destruct (Z.eqb_spec a 0) as [-> | Ha0];
    [cbn [orb]; i64; split; [discriminate | lia]|].
  destruct (Z.eqb_spec b 0) as [-> | Hb0];
    [cbn [orb]; i64; split; [discriminate | lia]|].
  cbn [orb].
  destruct (Z.eqb_spec a INT64_MIN) as [Ea | Ham];
    destruct (Z.eqb_spec b (-1)) as [Eb | Hb1]; cbn [andb];
    [ subst a b; i64; split; [intros _; lia | reflexivity] | | | ];
  (destruct (Z.eqb_spec b INT64_MIN) as [Eb' | Hbm];
   destruct (Z.eqb_spec a (-1)) as [Ea' | Ha1]; cbn [andb];
    [ subst a; subst b; i64; split; [intros _; lia | reflexivity] | | | ]);
  try (exfalso; i64; lia);
  (destruct (Z.gtb_spec a 0); destruct (Z.gtb_spec b 0)).
  all: try (exfalso; i64; lia).
  all: rewrite ?Z.gtb_ltb, Z.ltb_lt.
  all: first
   [ rewrite <- Z.gt_lt_iff, gt_quot_pos by (i64; lia); i64; nia
   | rewrite lt_quot_neg_pos by (i64; lia); i64; nia
   | rewrite lt_quot_pos_neg by (i64; lia); i64; nia ].
Qed.

Lemma willMultOverflow_spec (a b : Z) :
  in_i64 a -> in_i64 b -> (willMultOverflow a b = true <-> ~ in_i64 (a * b)).
Proof.
  intros Ha Hb. rewrite (willMultOverflow_cases a b Ha Hb). unfold in_i64. lia.
Qed.

(** [willMultOverflow] (T64-Util.h), written with divisions of the range
    limits, answers true exactly when the exact product of two 64-bit
    operands lies outside the signed 64-bit range. *)
Theorem willMultOverflow_tight (a b : Z) :
  in_i64 a -> in_i64 b ->
  (willMultOverflow a b = true <-> a * b < INT64_MIN \/ INT64_MAX < a * b)
  /\ (willMultOverflow a b = false <-> INT64_MIN <= a * b <= INT64_MAX).
Proof.
  intros Ha Hb. pose proof (willMultOverflow_cases a b Ha Hb) as H.
  split; [exact H|].
  destruct (willMultOverflow a b).
  - split; [discriminate|]. intros Hin. exfalso.
    assert (X : a * b < INT64_MIN \/ INT64_MAX < a * b) by (apply H; reflexivity).
    lia.
  - split; [|reflexivity]. intros _.
    destruct (Z_le_dec INT64_MIN (a * b)); destruct (Z_le_dec (a * b) INT64_MAX);
      try lia;
      exfalso; assert (false = true) as E by (apply H; lia); discriminate E.
Qed.

Lemma to_i64_decomp z : exists k, to_i64 z = z + k * 2 ^ 64.
Proof.
  exists (- ((z + 2 ^ 63) / 2 ^ 64)). unfold to_i64.
  rewrite Z.mod_eq by lia. lia.
Qed.

Lemma willShiftLeftOverflow_cases (val shift : Z) :
  in_i64 val ->
  (shift < 0 \/ 63 <= shift -> willShiftLeftOverflow val shift = true)
  /\ (0 <= shift < 63 ->
      (willShiftLeftOverflow val shift = true
       <-> val * 2 ^ shift < INT64_MIN \/ INT64_MAX < val * 2 ^ shift)).
Proof.
  intros Hv. unfold willShiftLeftOverflow. split.
  - intros [H | H].
    + destruct (Z.ltb_spec shift 0); [reflexivity | lia].
    + destruct (Z.geb_spec shift 63); [rewrite orb_true_r; reflexivity | lia].
  - intros Hs.
    destruct (Z.ltb_spec shift 0); [lia|].
    destruct (Z.geb_spec shift 63); [lia|]. cbn [orb].
    destruct (Z.eqb_spec shift 0) as [-> | Hs0].
    { rewrite Z.pow_0_r, Z.mul_1_r. i64. split; [discriminate | lia]. }
    cbv zeta. rewrite Z.shiftl_mul_pow2, Z.shiftr_div_pow2 by lia.
    assert (Hp : 0 < 2 ^ shift) by (apply Z.pow_pos_nonneg; lia).
    assert (E64 : 2 ^ 64 = 2 ^ (64 - shift) * 2 ^ shift).
    { rewrite <- Z.pow_add_r by lia. f_equal. lia. }
    assert (Hq : 1 < 2 ^ (64 - shift)).
    { apply Z.pow_gt_1; lia. }
    destruct (to_i64_decomp (val * 2 ^ shift)) as [k Ek].
    pose proof (to_i64_range (val * 2 ^ shift)) as Hr.
    rewrite Ek in *.
    replace (val * 2 ^ shift + k * 2 ^ 64)
      with ((val + k * 2 ^ (64 - shift)) * 2 ^ shift) by (rewrite E64; ring).
    rewrite Z.div_mul by lia.
    rewrite negb_true_iff, Z.eqb_neq.
    assert (Ek0 : k = 0 <-> INT64_MIN <= val * 2 ^ shift <= INT64_MAX).
    { i64. change (2 ^ 64) with 18446744073709551616 in *. lia. }
    split.
    + intros Hn. assert (k <> 0) by (intros ->; lia). i64. lia.
    + intros Ho E. assert (k * 2 ^ (64 - shift) = 0) by lia.
      assert (k = 0) by nia. i64. lia.
Qed.

Lemma willShiftLeftOverflow_small (val shift : Z) :
  in_i64 val -> 0 <= shift < 63 ->
  (willShiftLeftOverflow val shift = true <-> ~ in_i64 (val * 2 ^ shift)).
Proof.
  intros Hv Hs. destruct (willShiftLeftOverflow_cases val shift Hv) as [_ H].
  rewrite (H Hs). unfold in_i64. lia.
Qed.

(** [willShiftLeftOverflow] (T64-Util.h): a shift amount below 0 or above
    62 is always reported as an overflow; for an amount from 0 to 62 the
    answer is true exactly when [val * 2 ^ shift] lies outside the signed
    64-bit range. *)
Theorem willShiftLeftOverflow_spec (val shift : Z) :
  in_i64 val ->
  (shift < 0 \/ 63 <= shift -> willShiftLeftOverflow val shift = true)
  /\ (0 <= shift < 63 ->
      (willShiftLeftOverflow val shift = true
       <-> val * 2 ^ shift < INT64_MIN \/ INT64_MAX < val * 2 ^ shift)).
Proof. exact (willShiftLeftOverflow_cases val shift). Qed.

Lemma land_high_mask u :
  0 <= u < 2 ^ 64 -> Z.land u 18446744069414584320 = 2 ^ 32 * (u / 2 ^ 32).
Proof.
  intros Hu. apply Z.bits_inj'. intros n Hn.
  change 18446744069414584320 with (Z.shiftl (Z.ones 32) 32).
  rewrite Z.land_spec, Z.shiftl_spec, ones_testbit by lia.
  rewrite Z.mul_comm, <- Z.shiftl_mul_pow2, <- Z.shiftr_div_pow2 by lia.
  rewrite Z.shiftl_spec by lia.
  destruct (Z.leb_spec 0 (n - 32)); cbn [andb].
  - rewrite Z.shiftr_spec by lia. replace (n - 32 + 32) with n by lia.
    destruct (Z.ltb_spec (n - 32) 32); [apply andb_true_r|].
    rewrite andb_false_r. symmetry.
    rewrite <- (Z.mod_small u (2 ^ 64)) by lia.
    apply Z.mod_pow2_bits_high. lia.
  - rewrite andb_false_r. symmetry. apply Z.testbit_neg_r. lia.
Qed.

Lemma lor_disjoint_add hi lo :
  0 <= lo < 2 ^ 32 -> Z.lor (2 ^ 32 * hi) lo = 2 ^ 32 * hi + lo.
Proof.
  intros Hl.
  assert (D : Z.land (2 ^ 32 * hi) lo = 0).
  { apply Z.bits_inj'; intros n Hn; rewrite Z.land_spec, Z.bits_0.
    rewrite Z.mul_comm, <- Z.shiftl_mul_pow2 by lia.
    rewrite Z.shiftl_spec by lia.
    destruct (Z.ltb_spec n 32);
      [rewrite (Z.testbit_neg_r hi) by lia; reflexivity|].
    rewrite <- (Z.mod_small lo (2 ^ 32)) by lia.
    rewrite Z.mod_pow2_bits_high by lia; apply andb_false_r. }
  rewrite <- Z.lxor_lor by exact D. symmetry. apply Z.add_nocarry_lxor. exact D.
Qed.

Lemma addAdrOfs32_closed (adr ofs : Z) :
  in_i64 adr ->
  addAdrOfs32 adr ofs = 2 ^ 32 * (adr / 2 ^ 32) + (adr + ofs) mod 2 ^ 32.
Proof.
  intros Ha. unfold addAdrOfs32. cbv zeta. unfold to_u64, to_u32.
  set (u := adr mod 2 ^ 64).
  assert (Hu : 0 <= u < 2 ^ 64) by (apply Z.mod_pos_bound; lia).
  rewrite land_high_mask by assumption.
  set (newLo := (u mod 2 ^ 32 + ofs mod 2 ^ 32) mod 2 ^ 32).
  assert (Hn : 0 <= newLo < 2 ^ 32) by (apply Z.mod_pos_bound; lia).
  rewrite lor_disjoint_add by assumption.
  assert (El : newLo = (adr + ofs) mod 2 ^ 32).
  { unfold newLo, u.
    change (2 ^ 64) with (2 ^ 32 * 2 ^ 32).
    rewrite Z.rem_mul_r by lia.
    rewrite Z.mul_comm, Z.mod_add by lia. rewrite Z.mod_mod by lia.
    rewrite <- Z.add_mod by lia. reflexivity. }
  rewrite <- El.
  assert (Eh : u / 2 ^ 32 = (adr / 2 ^ 32) mod 2 ^ 32).
  { unfold u. change (2 ^ 64) with (2 ^ 32 * 2 ^ 32).
    rewrite Z.rem_mul_r by lia.
    rewrite Z.mul_comm, Z.div_add by lia.
    rewrite Z.div_small by (apply Z.mod_pos_bound; lia). lia. }
  rewrite Eh.
  unfold in_i64, INT64_MIN, INT64_MAX in Ha.
  assert (Hq : - 2 ^ 31 <= adr / 2 ^ 32 < 2 ^ 31).
  { split; [apply Z.div_le_lower_bound; lia | apply Z.div_lt_upper_bound; lia]. }
  pose proof (Z.div_mod (adr / 2 ^ 32) (2 ^ 32) ltac:(lia)) as D.
  pose proof (Z.mod_pos_bound (adr / 2 ^ 32) (2 ^ 32) ltac:(lia)) as B.
  set (A := adr / 2 ^ 32) in *. set (k := A / 2 ^ 32) in *.
  assert (Hk : k = 0 \/ k = -1) by lia.
  unfold to_i64.
  replace (2 ^ 32 * (A mod 2 ^ 32) + newLo + 2 ^ 63)
    with (2 ^ 32 * A + newLo + 2 ^ 63 + (- k) * 2 ^ 64) by lia.
  rewrite Z.mod_add by lia. rewrite Z.mod_small by lia. lia.
Qed.

Lemma addAdrOfs32_region (adr ofs : Z) :
  in_i64 adr ->
  in_i64 (addAdrOfs32 adr ofs)
  /\ addAdrOfs32 adr ofs / 2 ^ 32 = adr / 2 ^ 32
  /\ addAdrOfs32 adr ofs mod 2 ^ 32 = (adr + ofs) mod 2 ^ 32.
Proof.
  intros Ha. rewrite addAdrOfs32_closed by assumption.
  pose proof (Z.mod_pos_bound (adr + ofs) (2 ^ 32) ltac:(lia)) as B.
  assert (Hq : - 2 ^ 31 <= adr / 2 ^ 32 < 2 ^ 31).
  { unfold in_i64, INT64_MIN, INT64_MAX in Ha.
    split; [apply Z.div_le_lower_bound; lia | apply Z.div_lt_upper_bound; lia]. }
  split; [unfold in_i64, INT64_MIN, INT64_MAX; lia|].
  split.
  - rewrite Z.add_comm, Z.mul_comm, Z.div_add by lia.
    rewrite Z.div_small by assumption. lia.
  - rewrite Z.add_comm, Z.mul_comm, Z.mod_add by lia.
    apply Z.mod_mod. lia.
Qed.

Lemma addAdrOfs32_assoc (adr a b : Z) :
  in_i64 adr ->
  addAdrOfs32 (addAdrOfs32 adr a) b = addAdrOfs32 adr (a + b)
  /\ addAdrOfs32 adr 0 = adr.
Proof.
  intros Ha.
  destruct (addAdrOfs32_region adr a Ha) as (Hr & Hd & Hm).
  split.
  - rewrite (addAdrOfs32_closed (addAdrOfs32 adr a)) by assumption.
    rewrite (addAdrOfs32_closed adr (a + b)) by assumption.
    rewrite Hd. f_equal.
    rewrite Z.add_mod, Hm by lia. rewrite <- Z.add_mod by lia.
    f_equal. lia.
  - rewrite addAdrOfs32_closed by assumption. rewrite Z.add_0_r.
    symmetry. apply Z.div_mod. lia.
Qed.

Lemma isAlignedDataAdr_true (adr align : Z) :
  isAlignedDataAdr adr align = true
  <-> (align = 1 \/ align = 2 \/ align = 4 \/ align = 8) /\ adr mod align = 0.
Proof.
  unfold isAlignedDataAdr.
  destruct (Z.eqb_spec align 1) as [-> | H1]; cbn [orb].
  { change (1 - 1) with (Z.ones 0). rewrite Z.land_ones by lia.
    rewrite Z.eqb_eq. change (2 ^ 0) with 1. intuition lia. }
  destruct (Z.eqb_spec align 2) as [-> | H2]; cbn [orb].
  { change (2 - 1) with (Z.ones 1). rewrite Z.land_ones by lia.
    rewrite Z.eqb_eq. change (2 ^ 1) with 2. intuition lia. }
  destruct (Z.eqb_spec align 4) as [-> | H4]; cbn [orb].
  { change (4 - 1) with (Z.ones 2). rewrite Z.land_ones by lia.
    rewrite Z.eqb_eq. change (2 ^ 2) with 4. intuition lia. }
  destruct (Z.eqb_spec align 8) as [-> | H8]; cbn [orb].
  { change (8 - 1) with (Z.ones 3). rewrite Z.land_ones by lia.
    rewrite Z.eqb_eq. change (2 ^ 3) with 8. intuition lia. }
  split; [discriminate | intuition lia].
Qed.

(** [isAlignedDataAdr] (T64-Util.h) accepts an address exactly when the
    access length is 1, 2, 4 or 8 and divides the address; every other
    length, 0 included, is rejected whatever the address. *)
Theorem isAlignedDataAdr_spec (adr align : Z) :
  (isAlignedDataAdr adr align = true
   <-> (align = 1 \/ align = 2 \/ align = 4 \/ align = 8) /\ adr mod align = 0)
  /\ (align <> 1 -> align <> 2 -> align <> 4 -> align <> 8 ->
      isAlignedDataAdr adr align = false).
Proof.
  split; [apply isAlignedDataAdr_true|].
  intros H1 H2 H4 H8.
  destruct (isAlignedDataAdr adr align) eqn:E; [|reflexivity].
  apply isAlignedDataAdr_true in E. lia.
Qed.

(** [addAdrOfs32] (T64-Util.h) adds an offset inside the 32-bit offset part
    of an address: the upper 32 bits are kept, the lower 32 bits are the sum
    modulo 2^32, the result is again a 64-bit value, adding 0 changes
    nothing, and adding [a] then [b] is adding [a + b]. *)
Theorem addAdrOfs32_offset_arithmetic (adr a b : Z) :
  in_i64 adr ->
  in_i64 (addAdrOfs32 adr a)
  /\ addAdrOfs32 adr a / 2 ^ 32 = adr / 2 ^ 32
  /\ addAdrOfs32 adr a mod 2 ^ 32 = (adr + a) mod 2 ^ 32
  /\ addAdrOfs32 (addAdrOfs32 adr a) b = addAdrOfs32 adr (a + b)
  /\ addAdrOfs32 adr 0 = adr.
Proof.
  intros Ha.
  destruct (addAdrOfs32_region adr a Ha) as (H1 & H2 & H3).
  destruct (addAdrOfs32_assoc adr a b Ha) as (H4 & H5).
  exact (conj H1 (conj H2 (conj H3 (conj H4 H5)))).
Qed.

Lemma to_i64_eq z z' k :
  z = z' + k * 2 ^ 64 -> in_i64 z' -> to_i64 z = z'.
Proof.
  intros -> H. unfold in_i64, INT64_MIN, INT64_MAX in H. unfold to_i64.
  replace (z' + k * 2 ^ 64 + 2 ^ 63) with (z' + 2 ^ 63 + k * 2 ^ 64) by lia.
  rewrite Z.mod_add by lia. rewrite Z.mod_small by lia. lia.
Qed.


Lemma signedField_cases x len :
  0 < len ->
  let f := x mod 2 ^ len in
  signedField x len = if f <? 2 ^ (len - 1) then f else f - 2 ^ len.
Proof.
  intros Hl f. unfold signedField.
  assert (Hh : 0 < 2 ^ (len - 1)) by (apply Z.pow_pos_nonneg; lia).
  assert (E2 : 2 ^ len = 2 * 2 ^ (len - 1)).
  { replace len with (1 + (len - 1)) at 1 by lia. rewrite Z.pow_add_r by lia. reflexivity. }
  pose proof (Z.mod_pos_bound x (2 ^ len) ltac:(lia)) as B. fold f in B.
  pose proof (Z.div_mod x (2 ^ len) ltac:(lia)) as D. fold f in D.
  destruct (Z.ltb_spec f (2 ^ (len - 1))).
  - assert (E : (x + 2 ^ (len - 1)) mod 2 ^ len = f + 2 ^ (len - 1)).
    { symmetry. apply Z.mod_unique with (q := x / 2 ^ len); lia. }
    lia.
  - assert (E : (x + 2 ^ (len - 1)) mod 2 ^ len = f - 2 ^ (len - 1)).
    { symmetry. apply Z.mod_unique with (q := x / 2 ^ len + 1); lia. }
    lia.
Qed.

Lemma extractSignedField64_value (arg pos len : Z) :
  0 <= pos <= 63 -> 0 < len < 64 ->
  extractSignedField64 arg pos len = signedField (arg / 2 ^ pos) len.
Proof.
  intros Hp Hl. unfold extractSignedField64. cbv zeta.
  destruct (Z.ltb_spec len 64); [|lia].
  assert (Hh : 0 < 2 ^ (len - 1)) by (apply Z.pow_pos_nonneg; lia).
  assert (E2 : 2 ^ len = 2 * 2 ^ (len - 1)).
  { replace len with (1 + (len - 1)) at 1 by lia. rewrite Z.pow_add_r by lia. reflexivity. }
  assert (Hk : 0 < 2 ^ (64 - len)) by (apply Z.pow_pos_nonneg; lia).
  assert (E64 : 2 ^ 64 = 2 ^ len * 2 ^ (64 - len)).
  { rewrite <- Z.pow_add_r by lia. f_equal. lia. }
  assert (E63 : 2 ^ 63 = 2 ^ (len - 1) * 2 ^ (64 - len)).
  { rewrite <- Z.pow_add_r by lia. f_equal. lia. }
  assert (Hlen : 2 ^ len <= 2 ^ 63) by (apply Z.pow_le_mono_r; lia).
  rewrite ones_shiftl by lia.
  assert (Eo : to_u64 (Z.ones len) = Z.ones len).
  { unfold to_u64. apply Z.mod_small. rewrite Z.ones_equiv. lia. }
  rewrite Eo. rewrite Z.land_ones by lia.
  rewrite !Z.shiftr_div_pow2 by lia.
  set (x := arg / 2 ^ pos).
  assert (Ef : to_u64 x mod 2 ^ len = x mod 2 ^ len).
  { unfold to_u64. rewrite E64. rewrite Z.rem_mul_r by lia.
    rewrite Z.mul_comm, Z.mod_add by lia. apply Z.mod_mod. lia. }
  rewrite Ef.
  pose proof (Z.mod_pos_bound x (2 ^ len) ltac:(lia)) as B.
  rewrite (to_i64_id (x mod 2 ^ len)) by (unfold in_i64, INT64_MIN, INT64_MAX; lia).
  rewrite signedField_cases by lia. cbv zeta.
  rewrite Z.shiftl_mul_pow2 by lia.
  set (f := x mod 2 ^ len) in *.
  destruct (Z.ltb_spec f (2 ^ (len - 1))).
  - rewrite (to_i64_eq _ (f * 2 ^ (64 - len)) 0).
    + apply Z.div_mul. lia.
    + ring.
    + unfold in_i64, INT64_MIN, INT64_MAX.
      change 9223372036854775807 with (2 ^ 63 - 1). rewrite E63. nia.
  - rewrite (to_i64_eq _ ((f - 2 ^ len) * 2 ^ (64 - len)) 1).
    + apply Z.div_mul. lia.
    + rewrite E64. ring.
    + unfold in_i64, INT64_MIN, INT64_MAX.
      change 9223372036854775807 with (2 ^ 63 - 1).
      change (-9223372036854775808) with (- 2 ^ 63). rewrite E63. nia.
Qed.

Lemma signedField_range x len :
  0 < len ->
  - 2 ^ (len - 1) <= signedField x len < 2 ^ (len - 1)
  /\ signedField x len mod 2 ^ len = x mod 2 ^ len.
Proof.
  intros Hl.
  assert (Hh : 0 < 2 ^ (len - 1)) by (apply Z.pow_pos_nonneg; lia).
  assert (E2 : 2 ^ len = 2 * 2 ^ (len - 1)).
  { replace len with (1 + (len - 1)) at 1 by lia. rewrite Z.pow_add_r by lia. reflexivity. }
  pose proof (signedField_cases x len Hl) as C. cbv zeta in C.
  pose proof (Z.mod_pos_bound x (2 ^ len) ltac:(lia)) as B.
  destruct (Z.ltb_spec (x mod 2 ^ len) (2 ^ (len - 1))); rewrite C.
  - split; [lia|]. apply Z.mod_mod. lia.
  - split; [lia|].
    replace (x mod 2 ^ len - 2 ^ len) with (x mod 2 ^ len + (-1) * 2 ^ len) by lia.
    rewrite Z.mod_add by lia. apply Z.mod_mod. lia.
Qed.

Lemma lor_neg_pow2 x p :
  0 <= p -> Z.lor x (- 2 ^ p) = x mod 2 ^ p - 2 ^ p.
Proof.
  intros Hp.
  assert (Hpos : 0 < 2 ^ p) by (apply Z.pow_pos_nonneg; lia).
  assert (En : - 2 ^ p = Z.lnot (Z.ones p)).
  { unfold Z.lnot. rewrite Z.ones_equiv. lia. }
  assert (D : Z.land (x mod 2 ^ p) (- 2 ^ p) = 0).
  { rewrite En. apply Z.bits_inj'. intros n Hn.
    rewrite Z.land_spec, Z.lnot_spec, ones_testbit, Z.bits_0 by lia.
    destruct (Z.leb_spec 0 n); [|lia].
    destruct (Z.ltb_spec n p); cbn [andb negb]; [apply andb_false_r|].
    rewrite Z.mod_pow2_bits_high by lia. reflexivity. }
  replace (x mod 2 ^ p - 2 ^ p) with (x mod 2 ^ p + - 2 ^ p) by lia.
  rewrite Z.add_nocarry_lxor by exact D. rewrite Z.lxor_lor by exact D.
  rewrite En. apply Z.bits_inj'. intros n Hn.
  rewrite !Z.lor_spec, Z.lnot_spec, ones_testbit by lia.
  destruct (Z.leb_spec 0 n); [|lia].
  destruct (Z.ltb_spec n p); cbn [andb negb].
  - rewrite Z.mod_pow2_bits_low by lia. reflexivity.
  - rewrite !orb_true_r. reflexivity.
Qed.

(** [signExtend] (T64-Util.h) with sign bit position [pos] up to 62 returns
    the low [pos + 1] bits of the data read as a two's complement number: the
    result lies in [-2^pos, 2^pos) and agrees with the data modulo
    2^(pos+1). *)
Theorem signExtend_spec (data pos : Z) :
  0 <= pos <= 62 ->
  signExtend data pos = signedField data (pos + 1)
  /\ - 2 ^ pos <= signExtend data pos < 2 ^ pos
  /\ signExtend data pos mod 2 ^ (pos + 1) = data mod 2 ^ (pos + 1).
Proof.
  intros Hp.
  assert (Hpos : 0 < 2 ^ pos) by (apply Z.pow_pos_nonneg; lia).
  assert (Hle : 2 ^ pos <= 2 ^ 62) by (apply Z.pow_le_mono_r; lia).
  assert (E : signExtend data pos = signedField data (pos + 1)).
  { unfold signExtend. cbv zeta. rewrite Z.shiftl_1_l.
    rewrite (to_i64_id (2 ^ pos)) by (unfold in_i64, INT64_MIN, INT64_MAX; lia).
    rewrite to_i64_id by (unfold in_i64, INT64_MIN, INT64_MAX; lia).
    assert (En : Z.lnot (2 ^ pos - 1) = - 2 ^ pos) by (unfold Z.lnot; lia).
    rewrite En.
    assert (Ep : Z.lnot (- 2 ^ pos) = Z.ones pos).
    { unfold Z.lnot. rewrite Z.ones_equiv. lia. }
    rewrite Ep, Z.land_ones, lor_neg_pow2 by lia.
    assert (Eb : Z.land data (2 ^ pos) = 2 ^ pos * ((data / 2 ^ pos) mod 2)).
    { apply Z.bits_inj'. intros n Hn.
      rewrite Z.land_spec, Z.pow2_bits_eqb by lia.
      rewrite Z.mul_comm, <- Z.shiftl_mul_pow2 by lia.
      rewrite Z.shiftl_spec by lia.
      destruct (Z.eqb_spec pos n) as [<- | Hne].
      - rewrite Z.sub_diag, andb_true_r.
        change ((data / 2 ^ pos) mod 2) with ((data / 2 ^ pos) mod 2 ^ 1).
        rewrite Z.mod_pow2_bits_low by lia.
        rewrite <- Z.shiftr_div_pow2, Z.shiftr_spec by lia. reflexivity.
      - rewrite andb_false_r. symmetry.
        destruct (Z.ltb_spec n pos); [apply Z.testbit_neg_r; lia|].
        change ((data / 2 ^ pos) mod 2) with ((data / 2 ^ pos) mod 2 ^ 1).
        apply Z.mod_pow2_bits_high. lia. }
    rewrite Eb.
    rewrite signedField_cases by lia. cbv zeta.
    replace (pos + 1 - 1) with pos by lia.
    assert (E2 : 2 ^ (pos + 1) = 2 ^ pos * 2) by (rewrite Z.pow_add_r by lia; reflexivity).
    rewrite E2. rewrite Z.rem_mul_r by lia.
    pose proof (Z.mod_pos_bound data (2 ^ pos) ltac:(lia)) as B.
    pose proof (Z.mod_pos_bound (data / 2 ^ pos) 2 ltac:(lia)) as B2.
    destruct (Z.eqb_spec (2 ^ pos * ((data / 2 ^ pos) mod 2)) 0) as [E0 | E1];
      cbn [negb].
    - assert ((data / 2 ^ pos) mod 2 = 0) by nia.
      destruct (Z.ltb_spec (data mod 2 ^ pos + 2 ^ pos * ((data / 2 ^ pos) mod 2)) (2 ^ pos));
        nia.
    - assert ((data / 2 ^ pos) mod 2 = 1) by nia.
      destruct (Z.ltb_spec (data mod 2 ^ pos + 2 ^ pos * ((data / 2 ^ pos) mod 2)) (2 ^ pos));
        nia. }
  rewrite E. pose proof (signedField_range data (pos + 1) ltac:(lia)) as R.
  replace (pos + 1 - 1) with pos in R by lia. tauto.
Qed.

Lemma extractField64_value w pos len :
  0 <= pos -> 0 <= len <= 63 -> pos + len <= 64 ->
  extractField64 w pos len = (w / 2 ^ pos) mod 2 ^ len.
Proof.
  intros Hp Hl Hpl. apply Z.bits_inj'. intros n Hn.
  rewrite extractField64_testbit by lia.
  destruct (Z.ltb_spec n len); cbn [andb].
  - rewrite Z.mod_pow2_bits_low by lia.
    rewrite <- Z.shiftr_div_pow2, Z.shiftr_spec by lia. reflexivity.
  - rewrite Z.mod_pow2_bits_high by lia. reflexivity.
Qed.

(** [vAdrRegionId], [vAdrRegionOfs], [vAdrPageNum], [vAdrPageOfs]
    (T64-Util.h) split the low 52 bits of a virtual address twice: into a
    20-bit region and a 32-bit offset, and into a 40-bit page number and a
    12-bit page offset; bits 52 and up take no part. *)
Theorem vAdr_decomposition (vAdr : Z) :
  vAdrRegionId vAdr * 2 ^ 32 + vAdrRegionOfs vAdr = vAdr mod 2 ^ 52
  /\ vAdrPageNum vAdr * 2 ^ 12 + vAdrPageOfs vAdr = vAdr mod 2 ^ 52
  /\ 0 <= vAdrRegionId vAdr < 2 ^ 20
  /\ 0 <= vAdrRegionOfs vAdr < 2 ^ 32
  /\ 0 <= vAdrPageNum vAdr < 2 ^ 40
  /\ 0 <= vAdrPageOfs vAdr < 2 ^ 12.
Proof.
  unfold vAdrRegionId, vAdrRegionOfs, vAdrPageNum, vAdrPageOfs.
  rewrite !extractField64_value by lia.
  rewrite Z.pow_0_r, Z.div_1_r.
  repeat split; try (apply Z.mod_pos_bound; lia).
  - change (2 ^ 52) with (2 ^ 32 * 2 ^ 20). rewrite Z.rem_mul_r by lia. lia.
  - change (2 ^ 52) with (2 ^ 12 * 2 ^ 40). rewrite Z.rem_mul_r by lia. lia.
Qed.

(** [roundup], [rounddown] (T64-Util.h): a rounding unit of 0 returns the
    argument; for a positive unit and a non-negative argument [rounddown] is
    the largest multiple not above it and [roundup] the smallest multiple not
    below it (as long as [arg + round] does not overflow); for a negative
    argument [rounddown] rounds towards zero, so its result is not below the
    argument. *)
Theorem rounding_spec (arg round : Z) :
  in_i64 arg ->
  roundup arg 0 = arg /\ rounddown arg 0 = arg
  /\ (0 < round -> 0 <= arg ->
      rounddown arg round = round * (arg / round)
      /\ rounddown arg round <= arg < rounddown arg round + round)
  /\ (0 < round -> 0 <= arg -> arg + round <= INT64_MAX ->
      roundup arg round = round * ((arg + round - 1) / round)
      /\ arg <= roundup arg round < arg + round)
  /\ (0 < round -> arg < 0 -> arg <= rounddown arg round <= 0).
Proof.
  intros Ha. unfold in_i64, INT64_MIN, INT64_MAX in *.
  split; [reflexivity|]. split; [reflexivity|].
  split; [|split].
  - intros Hr Hn. unfold rounddown.
    destruct (Z.eqb_spec round 0); [lia|].
    rewrite Z.quot_div_nonneg by lia.
    pose proof (Z.div_mod arg round ltac:(lia)) as D.
    pose proof (Z.mod_pos_bound arg round Hr) as B.
    assert (Hq : 0 <= arg / round) by (apply Z.div_pos; lia).
    generalize dependent (arg mod round). generalize dependent (arg / round).
    intros q Hq m D B.
    assert (0 <= q * round <= arg) by nia.
    rewrite to_i64_id by (unfold in_i64, INT64_MIN, INT64_MAX; lia).
    split; [ring | nia].
  - intros Hr Hn Hs. unfold roundup.
    destruct (Z.eqb_spec round 0); [lia|].
    rewrite (to_i64_id (arg + round)) by (unfold in_i64, INT64_MIN, INT64_MAX; lia).
    rewrite (to_i64_id (arg + round - 1)) by (unfold in_i64, INT64_MIN, INT64_MAX; lia).
    rewrite Z.quot_div_nonneg by lia.
    pose proof (Z.div_mod (arg + round - 1) round ltac:(lia)) as D.
    pose proof (Z.mod_pos_bound (arg + round - 1) round Hr) as B.
    assert (Hq : 0 <= (arg + round - 1) / round) by (apply Z.div_pos; lia).
    generalize dependent ((arg + round - 1) mod round).
    generalize dependent ((arg + round - 1) / round).
    intros q Hq m D B.
    assert (0 <= q * round <= arg + round - 1) by nia.
    rewrite to_i64_id by (unfold in_i64, INT64_MIN, INT64_MAX; lia).
    split; [ring | nia].
  - intros Hr Hn. unfold rounddown.
    destruct (Z.eqb_spec round 0); [lia|].
    pose proof (quot_neg_pos arg round ltac:(lia) Hr) as Q.
    generalize dependent (Z.quot arg round). intros q Q.
    assert (Hq : q < 1) by (apply Z.mul_lt_mono_pos_l with round; lia).
    assert (q * round <= 0) by (apply Z.mul_nonpos_nonneg; lia).
    assert (arg <= q * round) by lia.
    rewrite to_i64_id by (unfold in_i64, INT64_MIN, INT64_MAX; lia).
    lia.
Qed.

(** [extractSignedField64] (T64-Util.h), for a start position [pos] from 0
    to 63, where the shift of the C++ code is defined, returns the [len] bits
    of the word that start at bit [pos], read as a two's complement number of
    [len] bits. *)
Theorem extractSignedField64_spec (arg pos len : Z) :
  0 <= pos <= 63 -> 0 < len < 64 ->
  extractSignedField64 arg pos len = signedField (arg / 2 ^ pos) len
  /\ - 2 ^ (len - 1) <= extractSignedField64 arg pos len < 2 ^ (len - 1)
  /\ extractSignedField64 arg pos len mod 2 ^ len = (arg / 2 ^ pos) mod 2 ^ len.
Proof.
  intros Hp Hl. rewrite (extractSignedField64_value arg pos len Hp Hl).
  pose proof (signedField_range (arg / 2 ^ pos) len ltac:(lia)) as R.
  tauto.
Qed.

Lemma to_i64_congr z z' : z mod 2 ^ 64 = z' mod 2 ^ 64 -> to_i64 z = to_i64 z'.
Proof.
  intros E. unfold to_i64.
  rewrite <- (Zplus_mod_idemp_l z), <- (Zplus_mod_idemp_l z'), E. reflexivity.
Qed.

Lemma mod_pow2_bits_eq a b n :
  0 <= n ->
  (forall m, 0 <= m < n -> Z.testbit a m = Z.testbit b m) ->
  a mod 2 ^ n = b mod 2 ^ n.
Proof.
  intros Hn H. apply Z.bits_inj'. intros m Hm.
  destruct (Z.ltb_spec m n).
  - rewrite !Z.mod_pow2_bits_low by lia. apply H. lia.
  - rewrite !Z.mod_pow2_bits_high by lia. reflexivity.
Qed.

Lemma add_shiftl_testbit H L k m :
  0 <= k -> 0 <= L < 2 ^ k -> 0 <= m ->
  Z.testbit (H * 2 ^ k + L) m
  = if m <? k then Z.testbit L m else Z.testbit H (m - k).
Proof.
  intros Hk HL Hm.
  assert (D : Z.land (H * 2 ^ k) L = 0).
  { apply Z.bits_inj'; intros n Hn. rewrite Z.land_spec, Z.bits_0.
    rewrite <- Z.shiftl_mul_pow2, Z.shiftl_spec by lia.
    destruct (Z.ltb_spec n k);
      [rewrite (Z.testbit_neg_r H) by lia; reflexivity|].
    rewrite <- (Z.mod_small L (2 ^ k)) by lia.
    rewrite Z.mod_pow2_bits_high by lia. apply andb_false_r. }
  rewrite Z.add_nocarry_lxor by exact D. rewrite Z.lxor_lor by exact D.
  rewrite Z.lor_spec, <- Z.shiftl_mul_pow2, Z.shiftl_spec by lia.
  destruct (Z.ltb_spec m k).
  - rewrite (Z.testbit_neg_r H) by lia. reflexivity.
  - rewrite <- (Z.mod_small L (2 ^ k)) by lia.
    rewrite Z.mod_pow2_bits_high by lia. apply orb_false_r.
Qed.

Lemma shiftRight128_value (hi lo shift : Z) :
  0 < shift < 64 ->
  shiftRight128 hi lo shift
  = to_i64 ((to_u64 hi * 2 ^ 64 + to_u64 lo) / 2 ^ shift).
Proof.
  intros Hs. unfold shiftRight128.
  destruct (Z.eqb_spec shift 0); [lia|].
  destruct (Z.gtb_spec shift 0); [|lia].
  destruct (Z.ltb_spec shift 64); [|lia]. cbn [andb].
  apply to_i64_congr. apply mod_pow2_bits_eq; [lia|]. intros m Hm.
  assert (HL : 0 <= to_u64 lo < 2 ^ 64) by (apply Z.mod_pos_bound; lia).
  rewrite Z.lor_spec, to_u64_testbit, Z.shiftl_spec, Z.shiftr_spec by lia.
  rewrite <- Z.shiftr_div_pow2, Z.shiftr_spec by lia.
  rewrite add_shiftl_testbit by lia.
  destruct (Z.ltb_spec m 64); [|lia]. cbn [andb].
  destruct (Z.ltb_spec (m + shift) 64).
  - rewrite (Z.testbit_neg_r (to_u64 hi)) by lia. reflexivity.
  - replace (m - (64 - shift)) with (m + shift - 64) by lia.
    rewrite (to_u64_testbit lo) by lia.
    destruct (Z.ltb_spec (m + shift) 64); [lia|].
    cbn [andb]. apply orb_false_r.
Qed.

(** [shiftRight128] returns the low 64 bits of the 128-bit quantity
    [hi:lo] shifted right by [shift], for a shift amount from 1 to 63;
    for every other shift amount, 64 and more included, it returns [lo]
    unchanged. *)
Theorem shiftRight128_spec (hi lo shift : Z) :
  (0 < shift < 64 ->
   shiftRight128 hi lo shift
   = to_i64 ((to_u64 hi * 2 ^ 64 + to_u64 lo) / 2 ^ shift))
  /\ (shift <= 0 \/ 64 <= shift -> shiftRight128 hi lo shift = lo).
Proof.
  split; [apply shiftRight128_value|].
  intros H. unfold shiftRight128.
  destruct (Z.eqb_spec shift 0); [reflexivity|].
  destruct (Z.gtb_spec shift 0); destruct (Z.ltb_spec shift 64);
    try reflexivity; lia.
Qed.

Lemma signed_field_round_trip_witness :
  extractInstrFieldS (depositInstrField 0 9 4 (-3)) 9 4 = -3.
Proof.
  apply (signed_field_round_trip 0 9 4 (-3)); [lia | lia | lia | lia | reflexivity].
Defined.

Lemma instr_field_round_trip_witness :
  extractInstrFieldU (depositInstrField 511 9 4 21) 9 4 = 21 mod 2 ^ 4
  /\ (0 <= 0 -> 0 <= 9 <= 30 -> 0 + 9 <= 32 -> 0 + 9 <= 9 \/ 9 + 4 <= 0 ->
      extractInstrFieldU (depositInstrField 511 9 4 21) 0 9 = extractInstrFieldU 511 0 9).
Proof. apply (instr_field_round_trip 511 9 4 21 0 9); lia. Defined.

Lemma word_field_round_trip_witness :
  extractField64 (depositField 0 32 20 77) 32 20 = 77 mod 2 ^ 20
  /\ (0 <= 0 -> 0 <= 32 <= 62 -> 0 + 32 <= 64 -> 0 + 32 <= 32 \/ 32 + 20 <= 0 ->
      extractField64 (depositField 0 32 20 77) 0 32 = extractField64 0 0 32).
Proof. apply (word_field_round_trip 0 32 20 77 0 32); lia. Defined.

Lemma willSubOverflow_tight_witness :
  (willSubOverflow INT64_MIN 1 = true
   <-> INT64_MIN - 1 < INT64_MIN \/ INT64_MAX < INT64_MIN - 1)
  /\ (willSubOverflow INT64_MIN 1 = false <-> INT64_MIN <= INT64_MIN - 1 <= INT64_MAX).
Proof.
  apply (willSubOverflow_tight INT64_MIN 1); unfold in_i64, INT64_MIN, INT64_MAX; lia.
Defined.

Lemma willDivOverflow_spec_witness :
  (willDivOverflow INT64_MIN (-1) = false <-> -1 <> 0 /\ in_i64 (Z.quot INT64_MIN (-1)))
  /\ (willDivOverflow INT64_MIN (-1) = true
      <-> -1 = 0 \/ (INT64_MIN = INT64_MIN /\ -1 = -1)).
Proof.
  apply (willDivOverflow_spec INT64_MIN (-1)); unfold in_i64, INT64_MIN, INT64_MAX; lia.
Defined.

Lemma willMultOverflow_tight_witness :
  (willMultOverflow (2 ^ 32) (2 ^ 31) = true
   <-> 2 ^ 32 * 2 ^ 31 < INT64_MIN \/ INT64_MAX < 2 ^ 32 * 2 ^ 31)
  /\ (willMultOverflow (2 ^ 32) (2 ^ 31) = false
      <-> INT64_MIN <= 2 ^ 32 * 2 ^ 31 <= INT64_MAX).
Proof.
  apply (willMultOverflow_tight (2 ^ 32) (2 ^ 31)); unfold in_i64, INT64_MIN, INT64_MAX; lia.
Defined.

Lemma willShiftLeftOverflow_spec_witness :
  (3 < 0 \/ 63 <= 3 -> willShiftLeftOverflow (2 ^ 60) 3 = true)
  /\ (0 <= 3 < 63 ->
      (willShiftLeftOverflow (2 ^ 60) 3 = true
       <-> 2 ^ 60 * 2 ^ 3 < INT64_MIN \/ INT64_MAX < 2 ^ 60 * 2 ^ 3)).
Proof.
  apply (willShiftLeftOverflow_spec (2 ^ 60) 3); unfold in_i64, INT64_MIN, INT64_MAX; lia.
Defined.

Lemma addAdrOfs32_offset_arithmetic_witness :
  in_i64 (addAdrOfs32 (2 ^ 33 - 4) 8)
  /\ addAdrOfs32 (2 ^ 33 - 4) 8 / 2 ^ 32 = (2 ^ 33 - 4) / 2 ^ 32
  /\ addAdrOfs32 (2 ^ 33 - 4) 8 mod 2 ^ 32 = (2 ^ 33 - 4 + 8) mod 2 ^ 32
  /\ addAdrOfs32 (addAdrOfs32 (2 ^ 33 - 4) 8) (-8) = addAdrOfs32 (2 ^ 33 - 4) (8 + -8)
  /\ addAdrOfs32 (2 ^ 33 - 4) 0 = 2 ^ 33 - 4.
Proof.
  apply (addAdrOfs32_offset_arithmetic (2 ^ 33 - 4) 8 (-8)).
  unfold in_i64, INT64_MIN, INT64_MAX; lia.
Defined.

Lemma signExtend_spec_witness :
  signExtend 255 7 = signedField 255 (7 + 1)
  /\ - 2 ^ 7 <= signExtend 255 7 < 2 ^ 7
  /\ signExtend 255 7 mod 2 ^ (7 + 1) = 255 mod 2 ^ (7 + 1).
Proof. apply (signExtend_spec 255 7); lia. Defined.

Lemma extractSignedField64_spec_witness :
  extractSignedField64 3840 8 4 = signedField (3840 / 2 ^ 8) 4
  /\ - 2 ^ (4 - 1) <= extractSignedField64 3840 8 4 < 2 ^ (4 - 1)
  /\ extractSignedField64 3840 8 4 mod 2 ^ 4 = (3840 / 2 ^ 8) mod 2 ^ 4.
Proof. apply (extractSignedField64_spec 3840 8 4); lia. Defined.

Lemma rounding_spec_witness :
  roundup 13 0 = 13 /\ rounddown 13 0 = 13
  /\ (0 < 8 -> 0 <= 13 ->
      rounddown 13 8 = 8 * (13 / 8) /\ rounddown 13 8 <= 13 < rounddown 13 8 + 8)
  /\ (0 < 8 -> 0 <= 13 -> 13 + 8 <= INT64_MAX ->
      roundup 13 8 = 8 * ((13 + 8 - 1) / 8) /\ 13 <= roundup 13 8 < 13 + 8)
  /\ (0 < 8 -> 13 < 0 -> 13 <= rounddown 13 8 <= 0).
Proof.
  apply (rounding_spec 13 8). unfold in_i64, INT64_MIN, INT64_MAX; lia.
Defined.

End UtilFacts.

(** * Register files, instruction handlers and memory access of T64-Cpu.cpp *)

Module CpuMore.
Import UtilFacts.
Local Open Scope Z_scope.

Section RegisterFiles.
Context {MS : T64MemSys}.

Lemma general_register_set_get (s : T64Cpu) (i v : Z) :
  wfCpu s -> 1 <= i ->
  exists s', setGeneralReg s i v = Some s'
    /\ wfCpu s'
    /\ getGeneralReg s' i = Some v
    /\ getGeneralReg s' 0 = Some 0
    /\ (forall j, 0 < j -> j mod 16 <> i mod 16 ->
          getGeneralReg s' j = getGeneralReg s j)
    /\ cRegFile s' = cRegFile s /\ psrReg s' = psrReg s
    /\ setGeneralReg s' 0 v = Some s'.
Proof.
  intros [Hg Hc] Hi.
  assert (Hrem : forall k, 0 <= k -> Z.rem k 16 = k mod 16)
    by (intros; apply Z.rem_mod_nonneg; lia).
  assert (Hr : 0 <= i mod 16 < 16) by (apply Z.mod_pos_bound; lia).
  exists (set_gRegFile s (listSet (gRegFile s) (Z.to_nat (i mod 16)) v)).
  unfold getGeneralReg, setGeneralReg, T64_MAX_GREGS.
  destruct (Z.eqb_spec i 0) as [|_]; [lia|]. cbn [negb].
  rewrite Hrem by lia. rewrite arrSet_in by (rewrite Hg; lia).
  cbn [option_map gRegFile set_gRegFile cRegFile psrReg].
  split; [reflexivity|].
  split; [split; cbn; [rewrite listSet_length|]; assumption|].
  split; [unfold arrGet; destruct (Z.ltb_spec (i mod 16) 0); [lia|];
          apply listSet_same; lia|].
  split; [reflexivity|].
  split; [|repeat split].
  intros j Hj Hne.
  assert (Hrj : 0 <= j mod 16 < 16) by (apply Z.mod_pos_bound; lia).
  destruct (Z.eqb_spec j 0) as [|_]; [lia|].
  rewrite Hrem by lia. unfold arrGet.
  destruct (Z.ltb_spec (j mod 16) 0); [lia|].
  apply listSet_other. lia.
Qed.

Lemma control_register_set_get (s : T64Cpu) (i v : Z) :
  wfCpu s -> 0 <= i ->
  exists s', setControlReg s i v = Some s'
    /\ wfCpu s'
    /\ getControlReg s' i = Some v
    /\ (forall j, 0 <= j -> j mod 16 <> i mod 16 ->
          getControlReg s' j = getControlReg s j)
    /\ gRegFile s' = gRegFile s /\ psrReg s' = psrReg s.
Proof.
  intros [Hg Hc] Hi.
  assert (Hrem : forall k, 0 <= k -> Z.rem k 16 = k mod 16)
    by (intros; apply Z.rem_mod_nonneg; lia).
  assert (Hr : 0 <= i mod 16 < 16) by (apply Z.mod_pos_bound; lia).
  exists (set_cRegFile s (listSet (cRegFile s) (Z.to_nat (i mod 16)) v)).
  unfold getControlReg, setControlReg, T64_MAX_CREGS.
  rewrite Hrem by lia. rewrite arrSet_in by (rewrite Hc; lia).
  cbn [option_map gRegFile set_cRegFile cRegFile psrReg].
  split; [reflexivity|].
  split; [split; cbn; [|rewrite listSet_length]; assumption|].
  split; [unfold arrGet; destruct (Z.ltb_spec (i mod 16) 0); [lia|];
          apply listSet_same; lia|].
  split; [|split; reflexivity].
  intros j Hj Hne.
  assert (Hrj : 0 <= j mod 16 < 16) by (apply Z.mod_pos_bound; lia).
  rewrite Hrem by lia. unfold arrGet.
  destruct (Z.ltb_spec (j mod 16) 0); [lia|].
  apply listSet_other. lia.
Qed.

(** [getGeneralReg], [setGeneralReg], [getControlReg], [setControlReg]
    (T64-Cpu.cpp): for every non-negative index a register write succeeds and
    is read back through the same index; registers of another index modulo 16
    keep their value, the other register file and the PSR are untouched, and
    general register 0 reads 0 and ignores writes. *)
Theorem register_files_write_read (s : T64Cpu) (i v : Z) :
  wfCpu s -> 0 <= i ->
  (1 <= i ->
   exists s', setGeneralReg s i v = Some s'
     /\ wfCpu s'
     /\ getGeneralReg s' i = Some v
     /\ getGeneralReg s' 0 = Some 0
     /\ (forall j, 0 < j -> j mod 16 <> i mod 16 ->
           getGeneralReg s' j = getGeneralReg s j)
     /\ cRegFile s' = cRegFile s /\ psrReg s' = psrReg s
     /\ setGeneralReg s' 0 v = Some s')
  /\ (exists s', setControlReg s i v = Some s'
        /\ wfCpu s'
        /\ getControlReg s' i = Some v
        /\ (forall j, 0 <= j -> j mod 16 <> i mod 16 ->
              getControlReg s' j = getControlReg s j)
        /\ gRegFile s' = gRegFile s /\ psrReg s' = psrReg s).
Proof.
  intros Hw Hi. split.
  - intros H1. apply general_register_set_get; assumption.
  - apply control_register_set_get; assumption.
Qed.

End RegisterFiles.

Section PreciseLemmas.
Context {C : T64Common} {MS : T64MemSys}.

Lemma sameRegs_refl (s : T64Cpu) : sameRegs s s.
Proof. repeat split. Qed.













Lemma quiet_lift_some {A} (a : A) : quiet (lift (Some a)).
Proof. intros s _. apply sameRegs_refl. Qed.




















End PreciseLemmas.





Section PreciseTraps.
Context {C : T64Common} {MS : T64MemSys}.




Lemma trapDelivery_state (t : T64Trap) (s : T64Cpu) :
  wfConsts C = true -> wfCpu s ->
  trapDelivery t s
  = Done tt (withCReg (withCReg (withCReg (withCReg s
       CTL_REG_IPSR (instrAdr t)) CTL_REG_IINSTR (arg0 t))
       CTL_REG_IARG_0 (arg0 t)) CTL_REG_IARG_1 (arg1 t)).
Proof.
  intros Hc Hw.
  destruct (creg_consts_wf Hc) as [(R1 & R2 & R3 & R4 & R5 & _) _].
  unfold trapDelivery, bind.
  rewrite (setCReg_run s) by assumption.
  rewrite setCReg_run by (try apply withCReg_wf; assumption).
  rewrite setCReg_run by (repeat apply withCReg_wf; assumption).
  rewrite setCReg_run by (repeat apply withCReg_wf; assumption).
  reflexivity.
Qed.

Lemma high_label k g c :
  0 <= k < 16 -> 0 <= c -> 1 <= g -> (k =? g * 16 + c) = false.
Proof. intros. apply Z.eqb_neq. nia. Qed.

Lemma selectHandler_chain (instr : Z) :
  wfConsts C = true ->
  let k := extractInstrOpCode instr in
  selectHandler instr =
    (if k =? OPC_ADD then AluAddOp else if k =? OPC_SUB then AluSubOp
     else if k =? OPC_AND then AluAndOp else if k =? OPC_OR then AluOrOp
     else if k =? OPC_XOR then AluXorOp else if k =? OPC_CMP_A then AluCmpOp
     else if k =? OPC_CMP_B then AluCmpOp else if k =? OPC_BITOP then AluBitOp
     else if k =? OPC_SHAOP then AluShaOP else if k =? OPC_IMMOP then AluImmOp
     else if k =? OPC_LDO then AluLdoOp else IllegalInstr).
Proof.
  intros H k.
  assert (Hk : 0 <= k < 16) by apply regField_range.
  unfold selectHandler. fold k. clearbody k.
  use_wf H.
  repeat match goal with D : distinctZ _ = true |- _ => clear D end.
  unfold caseLabels, OPC_GRP_ALU, OPC_GRP_MEM, OPC_GRP_BR, OPC_GRP_SYS.
  cbn [switchOn].
  change (0 * 16) with 0. rewrite !Z.add_0_l.
  rewrite !(high_label k 1) by (assumption || lia).
  rewrite !(high_label k 2) by (assumption || lia).
  rewrite !(high_label k 3) by (assumption || lia).
  repeat match goal with |- context [if ?b then _ else _] => destruct b end;
    reflexivity.
Qed.

(** The opcode families of the ALU group, with NOP, are pairwise
    different. *)
Lemma alu_consts_distinct :
  wfConsts C = true ->
  NoDup [ OPC_NOP; OPC_ADD; OPC_SUB; OPC_AND; OPC_OR; OPC_XOR; OPC_CMP_A;
          OPC_CMP_B; OPC_BITOP; OPC_SHAOP; OPC_IMMOP; OPC_LDO ].
Proof.
  intros H. unfold wfConsts in H. rewrite !andb_true_iff in H.
  destruct H as [[[[[_ D] _] _] _] _].
  repeat (apply distinctZ_cons in D; destruct D as [? D];
          apply NoDup_cons; [assumption|]).
  apply NoDup_nil.
Qed.

Lemma NoDup_eqb_false (l : list Z) (x y : Z) (i j : nat) :
  NoDup l -> nth_error l i = Some x -> nth_error l j = Some y -> i <> j ->
  (x =? y) = false.
Proof.
  intros Hn Hi Hj Hij. apply Z.eqb_neq. intros E. subst y.
  apply Hij. apply (proj1 (NoDup_nth_error l) Hn); [|congruence].
  apply nth_error_Some. congruence.
Qed.

Ltac alu_neq Hd i j :=
  rewrite (NoDup_eqb_false _ _ _ i j Hd eq_refl eq_refl) by discriminate.

Lemma selectHandler_of_opcode (instr : Z) :
  wfConsts C = true ->
  let k := extractInstrOpCode instr in
  (k = OPC_ADD -> selectHandler instr = AluAddOp)
  /\ (k = OPC_SUB -> selectHandler instr = AluSubOp)
  /\ (k = OPC_AND -> selectHandler instr = AluAndOp)
  /\ (k = OPC_OR -> selectHandler instr = AluOrOp)
  /\ (k = OPC_XOR -> selectHandler instr = AluXorOp)
  /\ (k = OPC_CMP_A \/ k = OPC_CMP_B -> selectHandler instr = AluCmpOp)
  /\ (k = OPC_BITOP -> selectHandler instr = AluBitOp)
  /\ (k = OPC_SHAOP -> selectHandler instr = AluShaOP)
  /\ (k = OPC_IMMOP -> selectHandler instr = AluImmOp)
  /\ (k = OPC_LDO -> selectHandler instr = AluLdoOp)
  /\ (k = OPC_NOP -> selectHandler instr = IllegalInstr)
  /\ (~ In k [ OPC_ADD; OPC_SUB; OPC_AND; OPC_OR; OPC_XOR; OPC_CMP_A;
               OPC_CMP_B; OPC_BITOP; OPC_SHAOP; OPC_IMMOP; OPC_LDO ] ->
      selectHandler instr = IllegalInstr)
  /\ In (selectHandler instr) aluHandlers.
Proof.
  intros H k.
  pose proof (selectHandler_chain instr H) as Hc. cbv zeta in Hc. fold k in Hc.
  pose proof (alu_consts_distinct H) as Hd.
  pose proof (selectHandler_alu_only instr H) as Hin.
  clearbody k. rewrite Hc. rewrite Hc in Hin. clear Hc H.
  repeat match goal with |- _ /\ _ => split end.
  - intros ->. rewrite Z.eqb_refl. reflexivity.
  - intros ->. alu_neq Hd 2%nat 1%nat. rewrite Z.eqb_refl. reflexivity.
  - intros ->. alu_neq Hd 3%nat 1%nat. alu_neq Hd 3%nat 2%nat.
    rewrite Z.eqb_refl. reflexivity.
  - intros ->. alu_neq Hd 4%nat 1%nat. alu_neq Hd 4%nat 2%nat.
    alu_neq Hd 4%nat 3%nat. rewrite Z.eqb_refl. reflexivity.
  - intros ->. alu_neq Hd 5%nat 1%nat. alu_neq Hd 5%nat 2%nat.
    alu_neq Hd 5%nat 3%nat. alu_neq Hd 5%nat 4%nat.
    rewrite Z.eqb_refl. reflexivity.
  - intros [-> | ->].
    + alu_neq Hd 6%nat 1%nat. alu_neq Hd 6%nat 2%nat. alu_neq Hd 6%nat 3%nat.
      alu_neq Hd 6%nat 4%nat. alu_neq Hd 6%nat 5%nat.
      rewrite Z.eqb_refl. reflexivity.
    + alu_neq Hd 7%nat 1%nat. alu_neq Hd 7%nat 2%nat. alu_neq Hd 7%nat 3%nat.
      alu_neq Hd 7%nat 4%nat. alu_neq Hd 7%nat 5%nat. alu_neq Hd 7%nat 6%nat.
      rewrite Z.eqb_refl. reflexivity.
  - intros ->. alu_neq Hd 8%nat 1%nat. alu_neq Hd 8%nat 2%nat.
    alu_neq Hd 8%nat 3%nat. alu_neq Hd 8%nat 4%nat. alu_neq Hd 8%nat 5%nat.
    alu_neq Hd 8%nat 6%nat. alu_neq Hd 8%nat 7%nat.
    rewrite Z.eqb_refl. reflexivity.
  - intros ->. alu_neq Hd 9%nat 1%nat. alu_neq Hd 9%nat 2%nat.
    alu_neq Hd 9%nat 3%nat. alu_neq Hd 9%nat 4%nat. alu_neq Hd 9%nat 5%nat.
    alu_neq Hd 9%nat 6%nat. alu_neq Hd 9%nat 7%nat. alu_neq Hd 9%nat 8%nat.
    rewrite Z.eqb_refl. reflexivity.
  - intros ->. alu_neq Hd 10%nat 1%nat. alu_neq Hd 10%nat 2%nat.
    alu_neq Hd 10%nat 3%nat. alu_neq Hd 10%nat 4%nat. alu_neq Hd 10%nat 5%nat.
    alu_neq Hd 10%nat 6%nat. alu_neq Hd 10%nat 7%nat. alu_neq Hd 10%nat 8%nat.
    alu_neq Hd 10%nat 9%nat. rewrite Z.eqb_refl. reflexivity.
  - intros ->. alu_neq Hd 11%nat 1%nat. alu_neq Hd 11%nat 2%nat.
    alu_neq Hd 11%nat 3%nat. alu_neq Hd 11%nat 4%nat. alu_neq Hd 11%nat 5%nat.
    alu_neq Hd 11%nat 6%nat. alu_neq Hd 11%nat 7%nat. alu_neq Hd 11%nat 8%nat.
    alu_neq Hd 11%nat 9%nat. alu_neq Hd 11%nat 10%nat.
    rewrite Z.eqb_refl. reflexivity.
  - intros ->. alu_neq Hd 0%nat 1%nat. alu_neq Hd 0%nat 2%nat.
    alu_neq Hd 0%nat 3%nat. alu_neq Hd 0%nat 4%nat. alu_neq Hd 0%nat 5%nat.
    alu_neq Hd 0%nat 6%nat. alu_neq Hd 0%nat 7%nat. alu_neq Hd 0%nat 8%nat.
    alu_neq Hd 0%nat 9%nat. alu_neq Hd 0%nat 10%nat. alu_neq Hd 0%nat 11%nat.
    reflexivity.
  - intros Hn. cbn [In] in Hn.
    repeat match goal with
    | |- context [k =? ?c] =>
        destruct (Z.eqb_spec k c) as [E | _];
          [exfalso; apply Hn; rewrite E;
           solve [repeat (first [left; reflexivity | right])]|]
    end.
    reflexivity.
  - exact Hin.
Qed.


(** The opcode switch of [instrExecute] (T64-Cpu.cpp) as a table: each ALU
    opcode selects its own handler, both compare opcodes select the one
    compare handler, and OPC_NOP as well as every opcode without a case
    selects no handler at all, which the switch answers with the illegal
    instruction trap. *)
Theorem dispatch_table (instr : Z) :
  wfConsts C = true ->
  let k := extractInstrOpCode instr in
  (k = OPC_ADD -> selectHandler instr = AluAddOp)
  /\ (k = OPC_SUB -> selectHandler instr = AluSubOp)
  /\ (k = OPC_AND -> selectHandler instr = AluAndOp)
  /\ (k = OPC_OR -> selectHandler instr = AluOrOp)
  /\ (k = OPC_XOR -> selectHandler instr = AluXorOp)
  /\ (k = OPC_CMP_A \/ k = OPC_CMP_B -> selectHandler instr = AluCmpOp)
  /\ (k = OPC_BITOP -> selectHandler instr = AluBitOp)
  /\ (k = OPC_SHAOP -> selectHandler instr = AluShaOP)
  /\ (k = OPC_IMMOP -> selectHandler instr = AluImmOp)
  /\ (k = OPC_LDO -> selectHandler instr = AluLdoOp)
  /\ (k = OPC_NOP -> selectHandler instr = IllegalInstr)
  /\ (~ In k [ OPC_ADD; OPC_SUB; OPC_AND; OPC_OR; OPC_XOR; OPC_CMP_A;
               OPC_CMP_B; OPC_BITOP; OPC_SHAOP; OPC_IMMOP; OPC_LDO ] ->
      selectHandler instr = IllegalInstr)
  /\ In (selectHandler instr) aluHandlers.
Proof. exact (selectHandler_of_opcode instr). Qed.


End PreciseTraps.

Lemma in_i64_dec z : {in_i64 z} + {~ in_i64 z}.
Proof.
  unfold in_i64.
  destruct (Z_le_dec INT64_MIN z); destruct (Z_le_dec z INT64_MAX);
    (left; lia) || (right; lia).
Qed.

Lemma bool_spec_of (b : bool) (P : Prop) :
  (b = true <-> ~ P) -> P -> b = false.
Proof. intros H HP. destruct b; [exfalso; apply H; [reflexivity | exact HP] | reflexivity]. Qed.

Section AluMore.
Context {C : T64Common} {MS : T64MemSys}.

(** [instrAluSubOp] (T64-Cpu.cpp) subtracts from register R, not from
    register B: with option 0 or 1 it stores [R - source] in register R and
    moves on when that difference is a signed 64-bit number, and throws the
    overflow trap with the CPU object untouched when it is not; every other
    option throws the illegal instruction trap. *)
Theorem alu_sub_uses_RegR (s : T64Cpu) (instr : Z) :
  wfCpu s -> Forall in_i64 (gRegFile s) ->
  let opt := extractInstrFieldU instr 19 3 in
  let valR := greg s (extractInstrRegR instr) in
  let src := addSource s instr in
  (opt = 0 \/ opt = 1 -> in_i64 (valR - src) ->
   instrAluSubOp instr s
   = Done tt (set_psrReg (withGReg s (extractInstrRegR instr) (valR - src))
                         (addAdrOfs32 (psrReg s) 4)))
  /\ (opt = 0 \/ opt = 1 -> ~ in_i64 (valR - src) ->
      instrAluSubOp instr s
      = Throw (newT64Trap OVERFLOW_TRAP (psrReg s) (instrReg s) 0) s)
  /\ (2 <= opt ->
      instrAluSubOp instr s
      = Throw (newT64Trap ILLEGAL_INSTR_TRAP (psrReg s) (instrReg s) 0) s).
Proof.
  intros Hw Hregs opt valR src.
  assert (HR : in_i64 valR) by (apply greg_in_i64; assumption).
  assert (HS : in_i64 src).
  { unfold src, addSource. destruct (_ =? 0);
      [apply greg_in_i64; assumption | apply imm15_in_i64]. }
  pose proof (willSubOverflow_spec valR src HR HS) as Hov.
  assert (Hsrc : opt = 0 \/ opt = 1 ->
                 match opt with
                 | 0 => getRegA instr
                 | 1 => ret (extractInstrSignedImm15 instr)
                 | _ => illegalInstrTrap
                 end s = Done src s).
  { unfold src, addSource. fold opt.
    intros [-> | ->]; cbn [Z.eqb]; [apply getRegA_run; assumption | reflexivity]. }
  repeat split.
  - intros Hopt Hin. unfold instrAluSubOp, bind.
    rewrite getRegR_run by assumption. fold valR opt. rewrite (Hsrc Hopt).
    unfold subUnderFlowCheck. rewrite (bool_spec_of _ _ Hov Hin).
    unfold ret. rewrite setRegR_run by assumption.
    rewrite nextInstr_run, withGReg_psr, to_i64_id by assumption. reflexivity.
  - intros Hopt Hout. unfold instrAluSubOp, bind.
    rewrite getRegR_run by assumption. fold valR opt. rewrite (Hsrc Hopt).
    unfold subUnderFlowCheck.
    replace (willSubOverflow valR src) with true
      by (symmetry; apply Hov; exact Hout).
    reflexivity.
  - intros Hopt. unfold instrAluSubOp, bind.
    rewrite getRegR_run by assumption. fold opt.
    destruct opt as [|p|p]; try lia.
    destruct p as [p|p|]; try lia; reflexivity.
Qed.

(** [instrAluShaOP] (T64-Cpu.cpp): options 0 and 1 compute
    [B * 2^k + source] and trap on overflow of the shift or of the sum,
    options 2 and 3 compute [B / 2^k + source] (arithmetic shift right) and
    trap on overflow of the sum, options 4 and up are illegal; [k] is the
    2-bit field at bit 13 and the result goes to the register that the
    R field of the latched instruction register names. *)
Theorem alu_shift_add (s : T64Cpu) (instr : Z) :
  wfCpu s -> Forall in_i64 (gRegFile s) ->
  let opt := extractInstrFieldU instr 19 3 in
  let k := extractInstrFieldU instr 13 2 in
  let valB := greg s (extractInstrRegB instr) in
  let src := if (opt =? 0) || (opt =? 2)
             then greg s (extractInstrRegA instr)
             else extractInstrSignedImm13 instr in
  let target := extractInstrRegR (instrReg s) in
  let overflow := newT64Trap OVERFLOW_TRAP (psrReg s) (instrReg s) 0 in
  let next v := set_psrReg (withGReg s target v) (addAdrOfs32 (psrReg s) 4) in
  0 <= k <= 3
  /\ (opt = 0 \/ opt = 1 ->
      (in_i64 (valB * 2 ^ k) /\ in_i64 (valB * 2 ^ k + src) ->
       instrAluShaOP instr s = Done tt (next (valB * 2 ^ k + src)))
      /\ (~ (in_i64 (valB * 2 ^ k) /\ in_i64 (valB * 2 ^ k + src)) ->
          instrAluShaOP instr s = Throw overflow s))
  /\ (opt = 2 \/ opt = 3 ->
      (in_i64 (valB / 2 ^ k + src) ->
       instrAluShaOP instr s = Done tt (next (valB / 2 ^ k + src)))
      /\ (~ in_i64 (valB / 2 ^ k + src) ->
          instrAluShaOP instr s = Throw overflow s))
  /\ (4 <= opt ->
      instrAluShaOP instr s
      = Throw (newT64Trap ILLEGAL_INSTR_TRAP (psrReg s) (instrReg s) 0) s).
Proof.
  intros Hw Hregs opt k valB src target overflow next.
  assert (Hk : 0 <= k <= 3).
  { pose proof (extractInstrFieldU_range instr 13 2 ltac:(lia)) as H.
    fold k in H. change (2 ^ 2) with 4 in H. lia. }
  assert (HB : in_i64 valB) by (apply greg_in_i64; assumption).
  assert (HA : in_i64 (greg s (extractInstrRegA instr)))
    by (apply greg_in_i64; assumption).
  assert (HI : in_i64 (extractInstrSignedImm13 instr)).
  { pose proof (extractInstrFieldS_range instr 0 13 ltac:(lia)).
    unfold extractInstrSignedImm13, in_i64, INT64_MIN, INT64_MAX. lia. }
  assert (HS : in_i64 src) by (unfold src; destruct (_ || _); assumption).
  assert (Hshr : in_i64 (valB / 2 ^ k)).
  { assert (0 < 2 ^ k) by (apply Z.pow_pos_nonneg; lia).
    unfold in_i64, INT64_MIN, INT64_MAX in *. split.
    - apply Z.div_le_lower_bound; nia.
    - apply Z.div_le_upper_bound; nia. }
  assert (Hhead : forall o, opt = o -> 0 <= o <= 3 ->
            instrAluShaOP instr s =
            bind (if (o =? 0) || (o =? 1) then
                    bind (when (willShiftLeftOverflow valB k) overFlowTrap)
                         (fun _ => ret (to_i64 (Z.shiftl valB k)))
                  else ret (Z.shiftr valB k))
              (fun res =>
                 bind (addOverFlowCheck res src) (fun _ =>
                 bind get (fun s0 =>
                 bind (setRegR (instrReg s0) (to_i64 (res + src))) (fun _ =>
                 nextInstr)))) s).
  { intros o Eo Ho. unfold instrAluShaOP, bind at 1 2.
    rewrite getRegB_run by assumption. fold valB opt k.
    unfold src. rewrite Eo.
    assert (Ho' : o = 0 \/ o = 1 \/ o = 2 \/ o = 3) by lia.
    destruct Ho' as [-> | [-> | [-> | ->]]]; cbn [Z.eqb orb Pos.eqb];
      rewrite ?getRegA_run by assumption; reflexivity. }
  split; [exact Hk|]. split; [|split].
  - intros Hopt.
    assert (E : instrAluShaOP instr s =
            bind (when (willShiftLeftOverflow valB k) overFlowTrap) (fun _ =>
            bind (addOverFlowCheck (to_i64 (Z.shiftl valB k)) src) (fun _ =>
            bind get (fun s0 =>
            bind (setRegR (instrReg s0)
                          (to_i64 (to_i64 (Z.shiftl valB k) + src))) (fun _ =>
            nextInstr)))) s).
    { destruct Hopt as [E | E]; rewrite (Hhead _ E) by lia; cbn [Z.eqb Pos.eqb orb];
        unfold bind; destruct (when _ _ s); reflexivity. }
    rewrite E. clear E Hhead.
    pose proof (willShiftLeftOverflow_small valB k HB ltac:(lia)) as Hsh.
    rewrite Z.shiftl_mul_pow2 by lia.
    split.
    + intros [H1 H2]. unfold bind, when.
      rewrite (bool_spec_of _ _ Hsh H1). unfold ret.
      rewrite to_i64_id by assumption.
      unfold addOverFlowCheck.
      rewrite (bool_spec_of _ _ (willAddOverflow_spec _ _ H1 HS) H2).
      unfold ret, get. rewrite setRegR_run by assumption.
      rewrite nextInstr_run, withGReg_psr, to_i64_id by assumption.
      reflexivity.
    + intros Hn. unfold bind, when.
      destruct (in_i64_dec (valB * 2 ^ k)) as [H1 | H1].
      * rewrite (bool_spec_of _ _ Hsh H1). unfold ret.
        rewrite to_i64_id by assumption. unfold addOverFlowCheck.
        replace (willAddOverflow (valB * 2 ^ k) src) with true
          by (symmetry; apply (willAddOverflow_spec _ _ H1 HS); tauto).
        reflexivity.
      * replace (willShiftLeftOverflow valB k) with true
          by (symmetry; apply Hsh; exact H1).
        reflexivity.
  - intros Hopt.
    assert (E : instrAluShaOP instr s =
            bind (addOverFlowCheck (Z.shiftr valB k) src) (fun _ =>
            bind get (fun s0 =>
            bind (setRegR (instrReg s0) (to_i64 (Z.shiftr valB k + src))) (fun _ =>
            nextInstr))) s).
    { destruct Hopt as [E | E]; rewrite (Hhead _ E) by lia; reflexivity. }
    rewrite E. clear E Hhead. rewrite Z.shiftr_div_pow2 by lia.
    split.
    + intros H2. unfold bind, addOverFlowCheck.
      rewrite (bool_spec_of _ _ (willAddOverflow_spec _ _ Hshr HS) H2).
      unfold ret, get. rewrite setRegR_run by assumption.
      rewrite nextInstr_run, withGReg_psr, to_i64_id by assumption.
      reflexivity.
    + intros H2. unfold bind, addOverFlowCheck.
      replace (willAddOverflow (valB / 2 ^ k) src) with true
        by (symmetry; apply (willAddOverflow_spec _ _ Hshr HS); exact H2).
      reflexivity.
  - intros Hopt. clear Hhead. unfold instrAluShaOP, bind.
    rewrite getRegB_run by assumption. fold opt.
    destruct opt as [|p|p]; try lia.
    destruct p as [[p|p|]|[p|p|]|]; try lia; reflexivity.
Qed.


(** [instrAluBitOp] (T64-Cpu.cpp) with position and length taken from the
    instruction (bit 13 clear): EXTR stores the unsigned field of register B,
    or 0 when the field would reach beyond bit 63; the signed EXTR stores the
    field as a two's complement number; DSR stores the low 64 bits of the
    register pair B:A shifted right by the length; option 2 and options 4 and
    up throw the illegal instruction trap. *)
Theorem alu_bitop_static (s : T64Cpu) (instr : Z) :
  wfCpu s -> extractInstrBit instr 13 = 0 ->
  let opt := extractInstrFieldU instr 19 3 in
  let valB := greg s (extractInstrRegB instr) in
  let valA := greg s (extractInstrRegA instr) in
  let len := extractInstrFieldU instr 0 6 in
  let pos := extractInstrFieldU instr 6 6 in
  let next v := set_psrReg (withGReg s (extractInstrRegR instr) v)
                           (addAdrOfs32 (psrReg s) 4) in
  (0 <= len < 64 /\ 0 <= pos < 64)
  /\ (opt = 0 -> extractInstrBit instr 12 = 0 ->
      instrAluBitOp instr s
      = Done tt (next (if pos + len <=? 64
                       then (valB / 2 ^ pos) mod 2 ^ len else 0)))
  /\ (opt = 0 -> extractInstrBit instr 12 = 1 -> 0 < len ->
      instrAluBitOp instr s
      = Done tt (next (signedField (valB / 2 ^ pos) len)))
  /\ (opt = 3 -> 0 < len ->
      instrAluBitOp instr s
      = Done tt (next (to_i64 ((to_u64 valB * 2 ^ 64 + to_u64 valA)
                               / 2 ^ len))))
  /\ (opt = 2 \/ 4 <= opt ->
      instrAluBitOp instr s
      = Throw (newT64Trap ILLEGAL_INSTR_TRAP (psrReg s) (instrReg s) 0) s).
Proof.
  intros Hw H13 opt valB valA len pos next.
  assert (Hlen : 0 <= len < 64).
  { pose proof (extractInstrFieldU_range instr 0 6 ltac:(lia)) as H.
    change (2 ^ 6) with 64 in H. exact H. }
  assert (Hpos : 0 <= pos < 64).
  { pose proof (extractInstrFieldU_range instr 6 6 ltac:(lia)) as H.
    change (2 ^ 6) with 64 in H. exact H. }
  assert (Hsh : forall p l, shamtOrField instr 13 p l s
                            = Done (extractInstrFieldU instr p l) s).
  { intros p l. unfold shamtOrField. rewrite H13. reflexivity. }
  split; [split; assumption|]. split; [|split; [|split]].
  - intros Hopt H12. unfold instrAluBitOp. fold opt. rewrite Hopt.
    unfold bind. rewrite getRegB_run by assumption.
    rewrite Hsh. rewrite H12. cbn [z2b Z.eqb negb].
    rewrite setRegR_run by assumption.
    rewrite nextInstr_run, withGReg_psr. fold valB len pos.
    unfold next. do 3 f_equal.
    destruct (Z.leb_spec (pos + len) 64).
    + apply extractField64_value; lia.
    + unfold extractField64. destruct (pos >? 63); [reflexivity|].
      destruct (Z.gtb_spec (pos + len) 64); [reflexivity | lia].
  - intros Hopt H12 Hl. unfold instrAluBitOp. fold opt. rewrite Hopt.
    unfold bind. rewrite getRegB_run by assumption.
    rewrite Hsh. rewrite H12. cbn [z2b Z.eqb negb].
    rewrite setRegR_run by assumption.
    rewrite nextInstr_run, withGReg_psr. fold valB len pos.
    unfold next. do 3 f_equal.
    apply extractSignedField64_value; lia.
  - intros Hopt Hl. unfold instrAluBitOp. fold opt. rewrite Hopt.
    unfold bind. rewrite getRegB_run, getRegA_run by assumption.
    rewrite Hsh.
    rewrite setRegR_run by assumption.
    rewrite nextInstr_run, withGReg_psr. fold valB valA len.
    unfold next. do 3 f_equal.
    apply shiftRight128_value. lia.
  - intros Hopt. unfold instrAluBitOp. fold opt.
    destruct opt as [|p|p]; try lia.
    destruct p as [[p|p|]|[p|p|]|]; try lia; reflexivity.
Qed.

End AluMore.

Section MemAccess.
Context {C : T64Common} {MS : T64MemSys}.

Lemma getCReg_run s i :
  wfCpu s -> 0 <= i < 16 -> getCReg i s = Done (creg s i) s.
Proof.
  intros [_ Hc] Hi. unfold getCReg, bind, get, lift, creg, arrGet.
  destruct (Z.ltb_spec i 0); [lia|].
  rewrite (nth_error_nth' _ 0) by lia. reflexivity.
Qed.

Lemma regionIdCheck_run s rId wMode :
  wfCpu s -> regionIdCheck rId wMode s = Done (regionOk s rId wMode) s.
Proof.
  intros Hw. unfold regionIdCheck, regionOk.
  cbv beta iota zeta delta [bind get ret getPsr].
  destruct (extractBit64 (psrReg s) 0 =? 0); cbn [negb andb]; [reflexivity|].
  cbn [existsb].
  rewrite (getCReg_run s 4) by (assumption || lia).
  destruct (regionIdMatch (creg s 4) (to_u32 rId) wMode); [reflexivity|].
  rewrite (getCReg_run s 5) by (assumption || lia).
  destruct (regionIdMatch (creg s 5) (to_u32 rId) wMode); [reflexivity|].
  rewrite (getCReg_run s 6) by (assumption || lia).
  destruct (regionIdMatch (creg s 6) (to_u32 rId) wMode); [reflexivity|].
  rewrite (getCReg_run s 7) by (assumption || lia).
  destruct (regionIdMatch (creg s 7) (to_u32 rId) wMode); reflexivity.
Qed.

Lemma signExtendRead_run (len : Z) (sExt : bool) (d : Z) (s : T64Cpu) :
  (if sExt then
     match len with
     | 1 => @ret MS Z (extractSignedField64 d 7 8)
     | 2 => ret (extractSignedField64 d 15 16)
     | 4 => ret (extractSignedField64 d 31 32)
     | _ => ret d
     end
   else ret d) s = Done (signExtendRead len sExt d) s.
Proof.
  unfold signExtendRead. destruct sExt; [|reflexivity].
  destruct len as [|p|p]; try reflexivity.
  do 3 (try destruct p as [p|p|]; try reflexivity);
    unfold ret; rewrite extractSignedField64_value by lia; reflexivity.
Qed.

Ltac run_mem :=
  cbv beta iota zeta delta
    [dataRead dataWrite instrRead bind dataAlignmentCheck instrAlignmentCheck
     isPhysMemAdr get ret privModeCheck getPsr lookupTlb
     dataAlignmentTrap instrAlignmentTrap throw privModeOperationTrap
     dataTlbMissTrap instrTlbMissTrap negb].

Lemma dataRegionIdCheck_run s vAdr w :
  wfCpu s ->
  dataRegionIdCheck vAdr w s
  = if regionOk s (vAdrRegionId vAdr) w then Done tt s
    else Throw (newT64Trap INSTR_PROTECTION_TRAP (psrReg s) (instrReg s) vAdr) s.
Proof.
  intros Hw. unfold dataRegionIdCheck, bind.
  rewrite regionIdCheck_run by assumption.
  destruct (regionOk s (vAdrRegionId vAdr) w); reflexivity.
Qed.

Lemma instrRegionIdCheck_run s vAdr :
  wfCpu s ->
  instrRegionIdCheck vAdr s
  = if regionOk s (vAdrRegionId vAdr) false then Done tt s
    else Throw (newT64Trap INSTR_PROTECTION_TRAP (psrReg s) 0 vAdr) s.
Proof.
  intros Hw. unfold instrRegionIdCheck, bind.
  rewrite regionIdCheck_run by assumption.
  destruct (regionOk s (vAdrRegionId vAdr) false); reflexivity.
Qed.

(** [dataRead], [dataWrite] (T64-Cpu.cpp) fault in a fixed order and leave
    the CPU object as it was: first the alignment check, then for a physical
    address the privilege check, for a virtual address the TLB miss and then
    the region check, which reports its failure as an instruction protection
    trap and always fails while PSR bit 0 is clear. *)
Theorem data_access_faults (s : T64Cpu) (vAdr len data : Z) (sExt : bool) :
  wfCpu s ->
  let trap code arg := newT64Trap code (psrReg s) (instrReg s) arg in
  let aligned := isAlignedDataAdr vAdr len in
  let phys := isInRange vAdr (lowerPhysMemAdr s) (upperPhysMemAdr s) in
  let faults t := dataRead vAdr len sExt s = Throw t s
                  /\ dataWrite vAdr data len s = Throw t s in
  (aligned = false -> faults (trap DATA_ALIGNMENT_TRAP vAdr))
  /\ (aligned = true -> phys = true -> extractPsrXbit (psrReg s) = false ->
      faults (trap PRIV_OPERATION_TRAP 0))
  /\ (aligned = true -> phys = false ->
      tlbLookup dTlb (proc s) vAdr = None ->
      faults (trap DATA_TLB_MISS_TRAP vAdr))
  /\ (aligned = true -> phys = false ->
      (exists e, tlbLookup dTlb (proc s) vAdr = Some e) ->
      (regionOk s (vAdrRegionId vAdr) false = false ->
       dataRead vAdr len sExt s = Throw (trap INSTR_PROTECTION_TRAP vAdr) s)
      /\ (regionOk s (vAdrRegionId vAdr) true = false ->
          dataWrite vAdr data len s = Throw (trap INSTR_PROTECTION_TRAP vAdr) s)
      /\ (extractBit64 (psrReg s) 0 = 0 ->
          faults (trap INSTR_PROTECTION_TRAP vAdr))).
Proof.
  intros Hw trap aligned phys faults. unfold faults, trap, aligned, phys.
  clear faults trap aligned phys.
  split; [|split; [|split]].
  - intros Ha. split; run_mem; rewrite Ha; reflexivity.
  - intros Ha Hp Hx. split; run_mem; rewrite Ha, Hp, Hx; reflexivity.
  - intros Ha Hp Ht. split; run_mem; rewrite Ha, Hp, Ht; reflexivity.
  - intros Ha Hp [e Ht].
    assert (Hr : regionOk s (vAdrRegionId vAdr) false = false ->
                 dataRead vAdr len sExt s
                 = Throw (newT64Trap INSTR_PROTECTION_TRAP (psrReg s)
                                     (instrReg s) vAdr) s).
    { intros Hk. run_mem. rewrite Ha, Hp, Ht.
      rewrite dataRegionIdCheck_run, Hk by assumption. reflexivity. }
    assert (Hwr : regionOk s (vAdrRegionId vAdr) true = false ->
                  dataWrite vAdr data len s
                  = Throw (newT64Trap INSTR_PROTECTION_TRAP (psrReg s)
                                      (instrReg s) vAdr) s).
    { intros Hk. run_mem. rewrite Ha, Hp, Ht.
      rewrite dataRegionIdCheck_run, Hk by assumption. reflexivity. }
    split; [exact Hr|]. split; [exact Hwr|].
    intros H0.
    assert (Hk : forall w, regionOk s (vAdrRegionId vAdr) w = false)
      by (intros w; unfold regionOk; rewrite H0; reflexivity).
    split; [apply Hr | apply Hwr]; apply Hk.
Qed.

(** [dataRead] (T64-Cpu.cpp) on an access that passes the checks: a
    physical address is read through the data cache; a translated address is
    read through the instruction cache at the physical address of the TLB
    entry. Without sign extension, and for length 8, the value returned is
    the word the cache filled; with sign extension and length 1, 2 or 4 it is
    the signed field of 8, 16 or 32 bits that starts at bit 7, 15 or 31 of
    that word, as [extractSignedField64] is called with the sign bit's
    position as the field's start. *)
Theorem dataRead_result (s : T64Cpu) (vAdr len : Z) (sExt : bool) :
  wfCpu s -> isAlignedDataAdr vAdr len = true ->
  let phys := isInRange vAdr (lowerPhysMemAdr s) (upperPhysMemAdr s) in
  (phys = true -> extractPsrXbit (psrReg s) = true ->
   let r := cacheRead dCache (proc s) vAdr 0 (8 - len) len false in
   dataRead vAdr len sExt s
   = Done (signExtendRead len sExt (fst r)) (set_proc s (snd r)))
  /\ (forall e, phys = false ->
      tlbLookup dTlb (proc s) vAdr = Some e ->
      regionOk s (vAdrRegionId vAdr) false = true ->
      let r := cacheRead iCache (proc s) (pAdr e) 0 (8 - len) len (uncached e) in
      dataRead vAdr len sExt s
      = Done (signExtendRead len sExt (fst r)) (set_proc s (snd r))).
Proof.
  intros Hw Ha phys. unfold phys. clear phys. split.
  - intros Hp Hx. run_mem. rewrite Ha, Hp, Hx.
    unfold onProc, bind, get. destruct (cacheRead _ _ _ _ _ _ _) as [d m]. unfold put, ret.
    apply signExtendRead_run.
  - intros e Hp Ht Hk. run_mem. rewrite Ha, Hp, Ht.
    rewrite dataRegionIdCheck_run, Hk by assumption.
    unfold onProc, bind, get. destruct (cacheRead _ _ _ _ _ _ _) as [d m]. unfold put, ret.
    apply signExtendRead_run.
Qed.

(** [instrRead] (T64-Cpu.cpp): a fetch address that is not a multiple of 4
    throws the instruction alignment trap; a physical address needs the X bit
    and is then read through the instruction cache; a virtual address throws
    the TLB miss trap, or the protection trap when the region check fails,
    and is otherwise read at the translated address. Every fault leaves the
    CPU object as it was. *)
Theorem instr_fetch_faults (s : T64Cpu) (vAdr : Z) :
  wfCpu s ->
  let trap code arg := newT64Trap code (psrReg s) (instrReg s) arg in
  let aligned := isAlignedDataAdr vAdr 4 in
  let phys := isInPhysMemAdrRange vAdr in
  (aligned = false ->
   instrRead vAdr s = Throw (trap INSTR_ALIGNMENT_TRAP vAdr) s)
  /\ (aligned = true -> phys = true ->
      (extractPsrXbit (psrReg s) = false ->
       instrRead vAdr s = Throw (trap PRIV_OPERATION_TRAP 0) s)
      /\ (extractPsrXbit (psrReg s) = true ->
          let r := cacheRead iCache (proc s) vAdr 0 0 4 false in
          instrRead vAdr s = Done (fst r) (set_proc s (snd r))))
  /\ (aligned = true -> phys = false ->
      (tlbLookup iTlb (proc s) vAdr = None ->
       instrRead vAdr s = Throw (trap INSTR_TLB_MISS_TRAP vAdr) s)
      /\ (forall e, tlbLookup iTlb (proc s) vAdr = Some e ->
          (regionOk s (vAdrRegionId vAdr) false = false ->
           instrRead vAdr s
           = Throw (newT64Trap INSTR_PROTECTION_TRAP (psrReg s) 0 vAdr) s)
          /\ (regionOk s (vAdrRegionId vAdr) false = true ->
              let r := cacheRead iCache (proc s) (pAdr e) 0 0 4 (uncached e) in
              instrRead vAdr s = Done (fst r) (set_proc s (snd r))))).
Proof.
  intros Hw trap aligned phys. unfold trap, aligned, phys.
  clear trap aligned phys.
  split; [|split].
  - intros Ha. run_mem. rewrite Ha. reflexivity.
  - intros Ha Hp. split.
    + intros Hx. run_mem. rewrite Ha, Hp, Hx. reflexivity.
    + intros Hx. run_mem. rewrite Ha, Hp, Hx.
      unfold onProc, bind, get. destruct (cacheRead _ _ _ _ _ _ _) as [d m]. reflexivity.
  - intros Ha Hp. split.
    + intros Ht. run_mem. rewrite Ha, Hp, Ht. reflexivity.
    + intros e Ht. split.
      * intros Hk. run_mem. rewrite Ha, Hp, Ht.
        rewrite instrRegionIdCheck_run, Hk by assumption. reflexivity.
      * intros Hk. run_mem. rewrite Ha, Hp, Ht.
        rewrite instrRegionIdCheck_run, Hk by assumption.
        unfold onProc, bind, get. destruct (cacheRead _ _ _ _ _ _ _) as [d m]. reflexivity.
Qed.



End MemAccess.

(** ** The theorems above at concrete machines *)

Lemma sampleCpu_wf : wfCpu sampleCpu.
Proof. split; reflexivity. Defined.

Lemma overflowCpu_wf : wfCpu overflowCpu.
Proof. split; reflexivity. Defined.

Lemma privCpu_wf : wfCpu privCpu.
Proof. split; reflexivity. Defined.

Lemma register_files_write_read_witness :
  wfCpu sampleCpu /\ 0 <= 3
  /\ exists s', setControlReg sampleCpu 3 7 = Some s'
       /\ getControlReg s' 3 = Some 7.
Proof.
  assert (Hi : 0 <= 3) by lia.
  destruct (register_files_write_read sampleCpu 3 7 sampleCpu_wf Hi)
    as [_ (s' & H1 & _ & H2 & _)].
  split; [exact sampleCpu_wf|]. split; [exact Hi|].
  exists s'. split; assumption.
Defined.

Lemma dispatch_table_witness :
  wfConsts sampleCommon = true
  /\ In (@selectHandler sampleCommon 0) aluHandlers.
Proof.
  split; [exact sampleCommon_wf|].
  apply (@dispatch_table sampleCommon 0 sampleCommon_wf).
Defined.



Lemma alu_sub_uses_RegR_witness :
  wfCpu overflowCpu /\ Forall in_i64 (gRegFile overflowCpu)
  /\ @instrAluSubOp sampleCommon noMemSys 4194304 overflowCpu
     = Done tt (set_psrReg (withGReg overflowCpu 1 INT64_MAX) 260).
Proof.
  split; [exact overflowCpu_wf|]. split; [exact overflowCpu_regs|].
  apply (@alu_sub_uses_RegR sampleCommon noMemSys overflowCpu 4194304
           overflowCpu_wf overflowCpu_regs).
  - left. reflexivity.
  - vm_compute. split; intros X; discriminate X.
Defined.

Lemma alu_shift_add_witness :
  wfCpu overflowCpu /\ Forall in_i64 (gRegFile overflowCpu)
  /\ @instrAluShaOP sampleCommon noMemSys 49152 overflowCpu
     = Throw (@newT64Trap sampleCommon OVERFLOW_TRAP 256 0 0) overflowCpu.
Proof.
  split; [exact overflowCpu_wf|]. split; [exact overflowCpu_regs|].
  pose proof (@alu_shift_add sampleCommon noMemSys overflowCpu 49152
                overflowCpu_wf overflowCpu_regs) as W.
  cbv zeta in W. destruct W as (_ & W & _).
  apply W; [left; reflexivity|].
  intros [[_ X] _]. vm_compute in X. apply X. reflexivity.
Defined.

Lemma alu_bitop_static_witness :
  wfCpu overflowCpu /\ extractInstrBit 8421640 13 = 0
  /\ @instrAluBitOp sampleCommon noMemSys 8421640 overflowCpu
     = Done tt (set_psrReg (withGReg overflowCpu 2 255) 260).
Proof.
  split; [exact overflowCpu_wf|]. split; [reflexivity|].
  pose proof (@alu_bitop_static sampleCommon noMemSys overflowCpu 8421640
                overflowCpu_wf eq_refl) as W.
  cbv zeta in W. destruct W as (_ & W & _).
  apply W; reflexivity.
Defined.

Lemma data_access_faults_witness :
  wfCpu sampleCpu
  /\ @dataRead sampleCommon noMemSys 1 8 false sampleCpu
     = Throw (@newT64Trap sampleCommon DATA_ALIGNMENT_TRAP 256 0 1) sampleCpu
  /\ @dataWrite sampleCommon noMemSys 1 5 8 sampleCpu
     = Throw (@newT64Trap sampleCommon DATA_ALIGNMENT_TRAP 256 0 1) sampleCpu.
Proof.
  split; [exact sampleCpu_wf|].
  apply (@data_access_faults sampleCommon noMemSys sampleCpu 1 8 5 false
           sampleCpu_wf).
  reflexivity.
Defined.

Lemma dataRead_result_witness :
  wfCpu privCpu /\ isAlignedDataAdr 0 8 = true
  /\ @dataRead sampleCommon noMemSys 0 8 false privCpu = Done 0 privCpu.
Proof.
  split; [exact privCpu_wf|]. split; [reflexivity|].
  apply (@dataRead_result sampleCommon noMemSys privCpu 0 8 false
           privCpu_wf eq_refl); reflexivity.
Defined.

Lemma instr_fetch_faults_witness :
  wfCpu sampleCpu
  /\ @instrRead sampleCommon noMemSys 258 sampleCpu
     = Throw (@newT64Trap sampleCommon INSTR_ALIGNMENT_TRAP 256 0 258) sampleCpu.
Proof.
  split; [exact sampleCpu_wf|].
  apply (@instr_fetch_faults sampleCommon noMemSys sampleCpu 258 sampleCpu_wf).
  reflexivity.
Defined.


End CpuMore.

(** * Lengths of the disassembler's texts (T64-InlineDisAsm.cpp) *)

Module DisAsmLengths.
Import Decimal DecimalFacts DecimalPos DecimalString.
Import DisAsm.
Local Open Scope Z_scope.













Local Open Scope string_scope.














Section Lengths.
Context {C : T64Common}.







End Lengths.

End DisAsmLengths.

(** * Error reporting and constant arithmetic of the assembler (T64-InlineAsm.cpp) *)

Module AsmInvariant.
Import Asm AsmTerms AsmVocab.
Import UtilFacts.
Local Open Scope Z_scope.

Section ParserInvariant.
Context {C : T64Common}.

Lemma inv_ret {A} (a : A) : parserInv (ret a).
Proof. intros st. reflexivity. Qed.

Lemma inv_throw {A} e : e <> NO_ERR -> parserInv (@throw A e).
Proof. intros H st. split; [exact H | reflexivity]. Qed.

Lemma inv_get : parserInv get.
Proof. intros st. reflexivity. Qed.

Lemma inv_modify f :
  (forall st, lastErr (f st) = lastErr st) -> parserInv (modify f).
Proof. intros H st. apply H. Qed.

Lemma inv_bind {A B} (m : P A) (f : A -> P B) :
  parserInv m -> (forall a, parserInv (f a)) -> parserInv (bind m f).
Proof.
  intros Hm Hf st. unfold bind. specialize (Hm st).
  destruct (m st) as [a st1 | e st1 | |]; auto.
  specialize (Hf a st1). destruct (f a st1) as [b st2 | e st2 | |]; auto.
  - congruence.
  - destruct Hf. split; congruence.
Qed.

Lemma inv_when b m : parserInv m -> parserInv (when b m).
Proof. intros H. destruct b; [exact H | apply inv_ret]. Qed.

Lemma inv_diverge {A} : parserInv (fun _ => @Diverge A).
Proof. intros st. exact I. Qed.

Lemma inv_undef {A} : parserInv (fun _ => @Undef A).
Proof. intros st. exact I. Qed.

Create HintDb asminv discriminated.

Ltac inv_step :=
  match goal with
  | |- parserInv (ret _) => apply inv_ret
  | |- parserInv (throw _) =>
      apply inv_throw; let H := fresh in intros H; vm_compute in H; discriminate H
  | |- parserInv get => apply inv_get
  | |- parserInv (modify _) =>
      apply inv_modify; let st := fresh in intros st;
      repeat match goal with |- context [if ?b then _ else _] => destruct b end;
      reflexivity
  | |- parserInv (fun _ => Diverge) => apply inv_diverge
  | |- parserInv (fun _ => Undef) => apply inv_undef
  | |- parserInv (when _ _) => apply inv_when
  | |- parserInv (bind _ _) => apply inv_bind; [ | intros ]
  | |- parserInv (if ?b then _ else _) => destruct b
  | |- parserInv (match ?x with _ => _ end) => destruct x
  | |- parserInv _ => solve [auto with asminv]
  end.

Ltac inv := repeat inv_step.

Lemma inv_nextChar : parserInv nextChar.
Proof. intros. unfold nextChar. inv. Qed.
#[local] Hint Resolve inv_nextChar : asminv.

Lemma inv_getChar : parserInv getChar.
Proof. intros. unfold getChar. inv. Qed.
#[local] Hint Resolve inv_getChar : asminv.

Lemma inv_getTok : parserInv getTok.
Proof. intros. unfold getTok. inv. Qed.
#[local] Hint Resolve inv_getTok : asminv.

Lemma inv_setTok : forall a0, parserInv (setTok a0).
Proof. intros. unfold setTok. inv. Qed.
#[local] Hint Resolve inv_setTok : asminv.

Lemma inv_setTokVal : forall a0, parserInv (setTokVal a0).
Proof. intros. unfold setTokVal. inv. Qed.
#[local] Hint Resolve inv_setTokVal : asminv.

Lemma inv_setTokTypTid : forall a0 a1, parserInv (setTokTypTid a0 a1).
Proof. intros. unfold setTokTypTid. inv. Qed.
#[local] Hint Resolve inv_setTokTypTid : asminv.

Lemma inv_setTokTid : forall a0, parserInv (setTokTid a0).
Proof. intros. unfold setTokTid. inv. Qed.
#[local] Hint Resolve inv_setTokTid : asminv.

Lemma inv_numOp : forall a0 a1 a2 a3, parserInv (numOp a0 a1 a2 a3).
Proof. intros. unfold numOp. inv. Qed.
#[local] Hint Resolve inv_numOp : asminv.

Lemma inv_addOp : forall a b, parserInv (addOp a b).
Proof. intros. unfold addOp. apply inv_numOp. Qed.
#[local] Hint Resolve inv_addOp : asminv.

Lemma inv_subOp : forall a b, parserInv (subOp a b).
Proof. intros. unfold subOp. apply inv_numOp. Qed.
#[local] Hint Resolve inv_subOp : asminv.

Lemma inv_multOp : forall a b, parserInv (multOp a b).
Proof. intros. unfold multOp. apply inv_numOp. Qed.
#[local] Hint Resolve inv_multOp : asminv.

Lemma inv_divOp : forall a b, parserInv (divOp a b).
Proof. intros. unfold divOp. apply inv_numOp. Qed.
#[local] Hint Resolve inv_divOp : asminv.

Lemma inv_modOp : forall a b, parserInv (modOp a b).
Proof. intros. unfold modOp. apply inv_numOp. Qed.
#[local] Hint Resolve inv_modOp : asminv.

Lemma inv_parseNumLoop : forall n base maxDigits tmpVal digits,
  parserInv (parseNumLoop n base maxDigits tmpVal digits).
Proof.
  induction n as [|n IH]; intros; cbn [parseNumLoop]; [apply inv_diverge|].
  inv.
Qed.
#[local] Hint Resolve inv_parseNumLoop : asminv.

Lemma inv_parseNum : parserInv parseNum.
Proof. intros. unfold parseNum. inv. Qed.
#[local] Hint Resolve inv_parseNum : asminv.

Lemma inv_qualifiedConst : forall identBuf mask shift rest,
  (forall b, parserInv (rest b)) ->
  parserInv (qualifiedConst identBuf mask shift rest).
Proof. intros. unfold qualifiedConst. inv. Qed.

Lemma inv_identLoop : forall n identBuf, parserInv (identLoop n identBuf).
Proof.
  induction n as [|n IH]; intros; cbn [identLoop]; [apply inv_diverge|].
  inv.
Qed.
#[local] Hint Resolve inv_identLoop : asminv.

Lemma inv_identTail : forall a0, parserInv (identTail a0).
Proof. intros. unfold identTail. inv. Qed.
#[local] Hint Resolve inv_identTail : asminv.

Lemma inv_parseIdent : parserInv parseIdent.
Proof.
  unfold parseIdent.
  repeat first [ apply inv_qualifiedConst; intros | inv_step ].
Qed.
#[local] Hint Resolve inv_parseIdent : asminv.

Lemma inv_skipBlanks : forall n, parserInv (skipBlanks n).
Proof.
  induction n as [|n IH]; intros; cbn [skipBlanks]; [apply inv_diverge|].
  inv.
Qed.
#[local] Hint Resolve inv_skipBlanks : asminv.

Lemma inv_symbol : forall a0 a1, parserInv (symbol a0 a1).
Proof. intros. unfold symbol. inv. Qed.
#[local] Hint Resolve inv_symbol : asminv.

Lemma inv_nextToken : parserInv nextToken.
Proof. intros. unfold nextToken. inv. Qed.
#[local] Hint Resolve inv_nextToken : asminv.

Lemma inv_setupTokenizer : forall a0, parserInv (setupTokenizer a0).
Proof. intros. unfold setupTokenizer. inv. Qed.
#[local] Hint Resolve inv_setupTokenizer : asminv.

Lemma inv_isToken : forall a0, parserInv (isToken a0).
Proof. intros. unfold isToken. inv. Qed.
#[local] Hint Resolve inv_isToken : asminv.

Lemma inv_isTokenTyp : forall a0, parserInv (isTokenTyp a0).
Proof. intros. unfold isTokenTyp. inv. Qed.
#[local] Hint Resolve inv_isTokenTyp : asminv.

Lemma inv_acceptEOS : parserInv acceptEOS.
Proof. intros. unfold acceptEOS. inv. Qed.
#[local] Hint Resolve inv_acceptEOS : asminv.

Lemma inv_acceptComma : parserInv acceptComma.
Proof. intros. unfold acceptComma. inv. Qed.
#[local] Hint Resolve inv_acceptComma : asminv.

Lemma inv_acceptLparen : parserInv acceptLparen.
Proof. intros. unfold acceptLparen. inv. Qed.
#[local] Hint Resolve inv_acceptLparen : asminv.

Lemma inv_acceptRparen : parserInv acceptRparen.
Proof. intros. unfold acceptRparen. inv. Qed.
#[local] Hint Resolve inv_acceptRparen : asminv.

Lemma inv_termLoop : forall pf, parserInv pf ->
  forall n rExpr, parserInv (termLoop pf n rExpr).
Proof.
  intros pf Hpf. induction n as [|n IH]; intros; cbn [termLoop];
    [apply inv_diverge|].
  inv.
Qed.

Lemma inv_exprLoop : forall pt, parserInv pt ->
  forall n rExpr, parserInv (exprLoop pt n rExpr).
Proof.
  intros pt Hpt. induction n as [|n IH]; intros; cbn [exprLoop];
    [apply inv_diverge|].
  inv.
Qed.

Lemma inv_parseExprs : forall fuel,
  parserInv (parseFactor fuel) /\ parserInv (parseTerm fuel)
  /\ parserInv (parseExpr fuel).
Proof.
  induction fuel as [|fuel (IHf & IHt & IHe)].
  - repeat split; apply inv_diverge.
  - assert (Hf : parserInv (parseFactor (S fuel))) by (cbn [parseFactor]; inv).
    assert (Ht : parserInv (parseTerm (S fuel))).
    { cbn [parseTerm].
      repeat first [ apply inv_termLoop; assumption | inv_step ]. }
    split; [exact Hf|]. split; [exact Ht|].
    cbn [parseExpr].
    repeat first [ apply inv_exprLoop; assumption | inv_step ].
Qed.

Lemma inv_parseExpr : forall fuel, parserInv (parseExpr fuel).
Proof. intros. apply inv_parseExprs. Qed.
#[local] Hint Resolve inv_parseExpr : asminv.

Lemma inv_getInstr : parserInv getInstr.
Proof. intros. unfold getInstr. inv. Qed.
#[local] Hint Resolve inv_getInstr : asminv.

Lemma inv_setInstr : forall a0, parserInv (setInstr a0).
Proof. intros. unfold setInstr. inv. Qed.
#[local] Hint Resolve inv_setInstr : asminv.

Lemma inv_onInstr : forall a0, parserInv (onInstr a0).
Proof. intros. unfold onInstr. inv. Qed.
#[local] Hint Resolve inv_onInstr : asminv.

Lemma inv_depositField : forall a0 a1 a2, parserInv (depositField a0 a1 a2).
Proof. intros. unfold depositField. inv. Qed.
#[local] Hint Resolve inv_depositField : asminv.

Lemma inv_depositBit : forall a0 a1, parserInv (depositBit a0 a1).
Proof. intros. unfold depositBit. inv. Qed.
#[local] Hint Resolve inv_depositBit : asminv.

Lemma inv_depositRegR : forall a0, parserInv (depositRegR a0).
Proof. intros. unfold depositRegR. inv. Qed.
#[local] Hint Resolve inv_depositRegR : asminv.

Lemma inv_depositRegB : forall a0, parserInv (depositRegB a0).
Proof. intros. unfold depositRegB. inv. Qed.
#[local] Hint Resolve inv_depositRegB : asminv.

Lemma inv_depositRegA : forall a0, parserInv (depositRegA a0).
Proof. intros. unfold depositRegA. inv. Qed.
#[local] Hint Resolve inv_depositRegA : asminv.

Lemma inv_depositInstrFieldS : forall a0 a1 a2, parserInv (depositInstrFieldS a0 a1 a2).
Proof. intros. unfold depositInstrFieldS. inv. Qed.
#[local] Hint Resolve inv_depositInstrFieldS : asminv.

Lemma inv_depositInstrFieldU : forall a0 a1 a2, parserInv (depositInstrFieldU a0 a1 a2).
Proof. intros. unfold depositInstrFieldU. inv. Qed.
#[local] Hint Resolve inv_depositInstrFieldU : asminv.

Lemma inv_depositInstrImm13 : forall a0, parserInv (depositInstrImm13 a0).
Proof. intros. unfold depositInstrImm13. inv. Qed.
#[local] Hint Resolve inv_depositInstrImm13 : asminv.

Lemma inv_depositInstrScaledImm13 : forall a0, parserInv (depositInstrScaledImm13 a0).
Proof. intros. unfold depositInstrScaledImm13. inv. Qed.
#[local] Hint Resolve inv_depositInstrScaledImm13 : asminv.

Lemma inv_depositInstrImm15 : forall a0, parserInv (depositInstrImm15 a0).
Proof. intros. unfold depositInstrImm15. inv. Qed.
#[local] Hint Resolve inv_depositInstrImm15 : asminv.

Lemma inv_depositInstrImm19 : forall a0, parserInv (depositInstrImm19 a0).
Proof. intros. unfold depositInstrImm19. inv. Qed.
#[local] Hint Resolve inv_depositInstrImm19 : asminv.

Lemma inv_depositInstrImm20U : forall a0, parserInv (depositInstrImm20U a0).
Proof. intros. unfold depositInstrImm20U. inv. Qed.
#[local] Hint Resolve inv_depositInstrImm20U : asminv.

Lemma inv_replaceInstrGroupField : forall a0, parserInv (replaceInstrGroupField a0).
Proof. intros. unfold replaceInstrGroupField. inv. Qed.
#[local] Hint Resolve inv_replaceInstrGroupField : asminv.

Lemma inv_replaceInstrOpCodeField : forall a0, parserInv (replaceInstrOpCodeField a0).
Proof. intros. unfold replaceInstrOpCodeField. inv. Qed.
#[local] Hint Resolve inv_replaceInstrOpCodeField : asminv.

Lemma inv_setInstrCompareCondField : forall a0, parserInv (setInstrCompareCondField a0).
Proof. intros. unfold setInstrCompareCondField. inv. Qed.
#[local] Hint Resolve inv_setInstrCompareCondField : asminv.

Lemma inv_setInstrDwField : forall a0, parserInv (setInstrDwField a0).
Proof. intros. unfold setInstrDwField. inv. Qed.
#[local] Hint Resolve inv_setInstrDwField : asminv.

Lemma inv_checkOfsAlignment : forall a0 a1, parserInv (checkOfsAlignment a0 a1).
Proof. intros. unfold checkOfsAlignment. inv. Qed.
#[local] Hint Resolve inv_checkOfsAlignment : asminv.

Lemma inv_optionChars : forall optBuf instrMask,
  parserInv (optionChars optBuf instrMask).
Proof.
  induction optBuf as [|c r IH]; intros; cbn [optionChars]; inv.
Qed.
#[local] Hint Resolve inv_optionChars : asminv.

Lemma inv_optionLoop : forall n instrMask, parserInv (optionLoop n instrMask).
Proof.
  induction n as [|n IH]; intros; cbn [optionLoop]; [apply inv_diverge|].
  inv.
Qed.
#[local] Hint Resolve inv_optionLoop : asminv.

Lemma inv_parseInstrOptions : forall a0, parserInv (parseInstrOptions a0).
Proof. intros. unfold parseInstrOptions. inv. Qed.
#[local] Hint Resolve inv_parseInstrOptions : asminv.

Lemma inv_acceptReg : forall deposit fuel,
  (forall r, parserInv (deposit r)) -> parserInv (acceptReg deposit fuel).
Proof. intros. unfold acceptReg. inv. Qed.

Lemma inv_acceptRegR : forall fuel, parserInv (acceptRegR fuel).
Proof. intros. apply inv_acceptReg. auto with asminv. Qed.
Lemma inv_acceptRegA : forall fuel, parserInv (acceptRegA fuel).
Proof. intros. apply inv_acceptReg. auto with asminv. Qed.
Lemma inv_acceptRegB : forall fuel, parserInv (acceptRegB fuel).
Proof. intros. apply inv_acceptReg. auto with asminv. Qed.
#[local] Hint Resolve inv_acceptRegR inv_acceptRegA inv_acceptRegB : asminv.

Lemma inv_optionalRegR : forall a0, parserInv (optionalRegR a0).
Proof. intros. unfold optionalRegR. inv. Qed.
#[local] Hint Resolve inv_optionalRegR : asminv.

Lemma inv_parseNopInstr : forall a0 a1, parserInv (parseNopInstr a0 a1).
Proof. intros. unfold parseNopInstr. inv. Qed.
#[local] Hint Resolve inv_parseNopInstr : asminv.

Lemma inv_parseModeTypeInstr : forall a0 a1, parserInv (parseModeTypeInstr a0 a1).
Proof. intros. unfold parseModeTypeInstr. inv. Qed.
#[local] Hint Resolve inv_parseModeTypeInstr : asminv.

Lemma inv_parseInstrEXTR : forall a0 a1, parserInv (parseInstrEXTR a0 a1).
Proof. intros. unfold parseInstrEXTR. inv. Qed.
#[local] Hint Resolve inv_parseInstrEXTR : asminv.

Lemma inv_parseInstrDEP : forall a0 a1, parserInv (parseInstrDEP a0 a1).
Proof. intros. unfold parseInstrDEP. inv. Qed.
#[local] Hint Resolve inv_parseInstrDEP : asminv.

Lemma inv_parseInstrDSR : forall a0 a1, parserInv (parseInstrDSR a0 a1).
Proof. intros. unfold parseInstrDSR. inv. Qed.
#[local] Hint Resolve inv_parseInstrDSR : asminv.

Lemma inv_parseShiftAdd : forall a0 a1 a2 a3 a4 a5 a6, parserInv (parseShiftAdd a0 a1 a2 a3 a4 a5 a6).
Proof. intros. unfold parseShiftAdd. inv. Qed.
#[local] Hint Resolve inv_parseShiftAdd : asminv.

Lemma inv_parseInstrSHLxA : forall fuel t, parserInv (parseInstrSHLxA fuel t).
Proof. intros. unfold parseInstrSHLxA. apply inv_parseShiftAdd. Qed.
#[local] Hint Resolve inv_parseInstrSHLxA : asminv.

Lemma inv_parseInstrSHRxA : forall fuel t, parserInv (parseInstrSHRxA fuel t).
Proof. intros. unfold parseInstrSHRxA. apply inv_parseShiftAdd. Qed.
#[local] Hint Resolve inv_parseInstrSHRxA : asminv.

Lemma inv_parseInstrImmOp : forall a0 a1, parserInv (parseInstrImmOp a0 a1).
Proof. intros. unfold parseInstrImmOp. inv. Qed.
#[local] Hint Resolve inv_parseInstrImmOp : asminv.

Lemma inv_parseInstrLDO : forall a0 a1, parserInv (parseInstrLDO a0 a1).
Proof. intros. unfold parseInstrLDO. inv. Qed.
#[local] Hint Resolve inv_parseInstrLDO : asminv.

Lemma inv_parseMemOp : forall a0 a1, parserInv (parseMemOp a0 a1).
Proof. intros. unfold parseMemOp. inv. Qed.
#[local] Hint Resolve inv_parseMemOp : asminv.

Lemma inv_parseInstrB : forall a0 a1, parserInv (parseInstrB a0 a1).
Proof. intros. unfold parseInstrB. inv. Qed.
#[local] Hint Resolve inv_parseInstrB : asminv.

Lemma inv_parseInstrBE : forall a0 a1, parserInv (parseInstrBE a0 a1).
Proof. intros. unfold parseInstrBE. inv. Qed.
#[local] Hint Resolve inv_parseInstrBE : asminv.

Lemma inv_branchWidth : forall a0, parserInv (branchWidth a0).
Proof. intros. unfold branchWidth. inv. Qed.
#[local] Hint Resolve inv_branchWidth : asminv.

Lemma inv_parseInstrBR : forall a0 a1, parserInv (parseInstrBR a0 a1).
Proof. intros. unfold parseInstrBR. inv. Qed.
#[local] Hint Resolve inv_parseInstrBR : asminv.

Lemma inv_indexedOperand : forall a0, parserInv (indexedOperand a0).
Proof. intros. unfold indexedOperand. inv. Qed.
#[local] Hint Resolve inv_indexedOperand : asminv.

Lemma inv_parseInstrBV : forall a0 a1, parserInv (parseInstrBV a0 a1).
Proof. intros. unfold parseInstrBV. inv. Qed.
#[local] Hint Resolve inv_parseInstrBV : asminv.

Lemma inv_parseInstrBB : forall a0 a1, parserInv (parseInstrBB a0 a1).
Proof. intros. unfold parseInstrBB. inv. Qed.
#[local] Hint Resolve inv_parseInstrBB : asminv.

Lemma inv_parseInstrXBR : forall a0 a1, parserInv (parseInstrXBR a0 a1).
Proof. intros. unfold parseInstrXBR. inv. Qed.
#[local] Hint Resolve inv_parseInstrXBR : asminv.

Lemma inv_parseInstrMFCR : forall a0 a1, parserInv (parseInstrMFCR a0 a1).
Proof. intros. unfold parseInstrMFCR. inv. Qed.
#[local] Hint Resolve inv_parseInstrMFCR : asminv.

Lemma inv_parseInstrMTCR : forall a0 a1, parserInv (parseInstrMTCR a0 a1).
Proof. intros. unfold parseInstrMTCR. inv. Qed.
#[local] Hint Resolve inv_parseInstrMTCR : asminv.

Lemma inv_parseInstrMFIA : forall a0 a1, parserInv (parseInstrMFIA a0 a1).
Proof. intros. unfold parseInstrMFIA. inv. Qed.
#[local] Hint Resolve inv_parseInstrMFIA : asminv.

Lemma inv_parseInstrLPA : forall a0 a1, parserInv (parseInstrLPA a0 a1).
Proof. intros. unfold parseInstrLPA. inv. Qed.
#[local] Hint Resolve inv_parseInstrLPA : asminv.

Lemma inv_parseInstrPRB : forall a0 a1, parserInv (parseInstrPRB a0 a1).
Proof. intros. unfold parseInstrPRB. inv. Qed.
#[local] Hint Resolve inv_parseInstrPRB : asminv.

Lemma inv_parseInstrInsertTlb : forall a0 a1, parserInv (parseInstrInsertTlb a0 a1).
Proof. intros. unfold parseInstrInsertTlb. inv. Qed.
#[local] Hint Resolve inv_parseInstrInsertTlb : asminv.

Lemma inv_parseInstrPurgeTlb : forall fuel t, parserInv (parseInstrPurgeTlb fuel t).
Proof. intros. unfold parseInstrPurgeTlb. apply inv_parseInstrLPA. Qed.
#[local] Hint Resolve inv_parseInstrPurgeTlb : asminv.

Lemma inv_parseInstrFlushCache : forall fuel t, parserInv (parseInstrFlushCache fuel t).
Proof. intros. unfold parseInstrFlushCache. apply inv_parseInstrLPA. Qed.
#[local] Hint Resolve inv_parseInstrFlushCache : asminv.

Lemma inv_parseInstrPurgeCache : forall fuel t, parserInv (parseInstrPurgeCache fuel t).
Proof. intros. unfold parseInstrPurgeCache. apply inv_parseInstrLPA. Qed.
#[local] Hint Resolve inv_parseInstrPurgeCache : asminv.

Lemma inv_parseInstrSregOp : forall a0 a1, parserInv (parseInstrSregOp a0 a1).
Proof. intros. unfold parseInstrSregOp. inv. Qed.
#[local] Hint Resolve inv_parseInstrSregOp : asminv.

Lemma inv_parseInstrRFI : forall a0 a1, parserInv (parseInstrRFI a0 a1).
Proof. intros. unfold parseInstrRFI. inv. Qed.
#[local] Hint Resolve inv_parseInstrRFI : asminv.

Lemma inv_parseInstrDIAG : forall a0 a1, parserInv (parseInstrDIAG a0 a1).
Proof. intros. unfold parseInstrDIAG. inv. Qed.
#[local] Hint Resolve inv_parseInstrDIAG : asminv.

Lemma inv_parseInstrTrapOp : forall a0 a1, parserInv (parseInstrTrapOp a0 a1).
Proof. intros. unfold parseInstrTrapOp. inv. Qed.
#[local] Hint Resolve inv_parseInstrTrapOp : asminv.

Lemma inv_parserFor tok parse :
  parserFor tok = Some parse -> forall fuel t, parserInv (parse fuel t).
Proof.
  unfold parserFor. intros H fuel t.
  repeat match type of H with
  | (if ?b then _ else _) = _ => destruct b
  end;
  first [ discriminate H | injection H as <-; auto with asminv ].
Qed.

Lemma inv_parseLine : forall fuel inputStr, parserInv (parseLine fuel inputStr).
Proof.
  intros. unfold parseLine.
  repeat match goal with
  | |- parserInv (match parserFor ?t with _ => _ end) =>
      destruct (parserFor t) eqn:Hp; [eapply inv_parserFor; exact Hp|]
  | _ => inv_step
  end.
Qed.


(** [assembleInstr], [getErrId], [getErrPos] (T64-InlineAsm.cpp): the
    assembler returns NO_ERR exactly when parsing the line completed, and then
    the stored error id is the one from before the call; when the parser
    throws, the error code is never NO_ERR, it is what [assembleInstr]
    returns and what [getErrId] reports afterwards, the instruction word is
    set to 0 and [getErrPos] is the position of the token being read. *)
Theorem assembleInstr_error_contract (fuel : nat) (inputStr : string)
        (st : AsmState) :
  (forall st', parseLine fuel inputStr st = Ok tt st' ->
     assembleInstr fuel inputStr st = Returns NO_ERR st'
     /\ getErrId st' = getErrId st)
  /\ (forall e st', parseLine fuel inputStr st = Err e st' ->
        e <> NO_ERR
        /\ exists st'', assembleInstr fuel inputStr st = Returns e st''
             /\ instrCell st'' = 0 /\ getErrId st'' = e
             /\ getErrPos st'' = getErrPos st')
  /\ (forall e st', assembleInstr fuel inputStr st = Returns e st' ->
        (e = NO_ERR <-> isOk (parseLine fuel inputStr st) = true)).
Proof.
  pose proof (inv_parseLine fuel inputStr st) as H.
  unfold assembleInstr, getErrId, getErrPos.
  destruct (parseLine fuel inputStr st) as [[] st1 | e st1 | |].
  - split; [|split].
    + intros st' E. injection E as <-. split; [reflexivity | exact H].
    + intros e st' E. discriminate E.
    + intros e st' E. injection E as <- <-. cbn. tauto.
  - destruct H as [Hne _]. split; [|split].
    + intros st' E. discriminate E.
    + intros e' st' E. injection E as <- <-. split; [exact Hne|].
      eexists. split; [reflexivity|]. repeat split.
    + intros e' st' E. injection E as <- <-. cbn.
      split; [intros E0; contradiction | discriminate].
  - repeat split; intros; discriminate.
  - repeat split; intros; discriminate.
Qed.

(** [addOp], [subOp], [multOp], [divOp], [modOp] (T64-InlineAsm.cpp) on two
    numeric operands: each returns the exact mathematical result when that is
    a signed 64-bit number and the numeric overflow error otherwise; division
    and remainder truncate towards zero and report the overflow error for a
    zero divisor and for INT64_MIN by -1. *)
Theorem asm_arithmetic_exact (a b : Expr) (st : AsmState) :
  e_typ a = TYP_NUM -> e_typ b = TYP_NUM ->
  in_i64 (e_val a) -> in_i64 (e_val b) ->
  let x := e_val a in
  let y := e_val b in
  let overflow := Err ERR_NUMERIC_OVERFLOW st in
  (in_i64 (x + y) -> addOp a b st = Ok (x + y) st)
  /\ (~ in_i64 (x + y) -> addOp a b st = overflow)
  /\ (in_i64 (x - y) -> subOp a b st = Ok (x - y) st)
  /\ (~ in_i64 (x - y) -> subOp a b st = overflow)
  /\ (in_i64 (x * y) -> multOp a b st = Ok (x * y) st)
  /\ (~ in_i64 (x * y) -> multOp a b st = overflow)
  /\ (y <> 0 -> ~ (x = INT64_MIN /\ y = -1) ->
      divOp a b st = Ok (Z.quot x y) st /\ modOp a b st = Ok (Z.rem x y) st)
  /\ (y = 0 \/ (x = INT64_MIN /\ y = -1) ->
      divOp a b st = overflow /\ modOp a b st = overflow).
Proof.
  intros Ta Tb Ha Hb x y overflow.
  assert (Hnum : forall chk op,
            numOp chk op a b st
            = if chk x y then overflow else Ok (to_i64 (op x y)) st).
  { intros chk op. unfold numOp. rewrite Ta, Tb. cbn [typEqb negb].
    fold x y. destruct (chk x y); reflexivity. }
  unfold addOp, subOp, multOp, divOp, modOp. rewrite !Hnum.
  pose proof (willAddOverflow_spec x y Ha Hb) as SA.
  pose proof (willSubOverflow_spec x y Ha Hb) as SS.
  pose proof (willMultOverflow_spec x y Ha Hb) as SM.
  destruct (willDivOverflow_cases x y Ha Hb) as [SD0 SD1].
  repeat split.
  - intros Hin. destruct (willAddOverflow x y);
      [exfalso; apply SA; [reflexivity | exact Hin]|].
    rewrite to_i64_id by assumption. reflexivity.
  - intros Hout. replace (willAddOverflow x y) with true
      by (symmetry; apply SA; exact Hout). reflexivity.
  - intros Hin. destruct (willSubOverflow x y);
      [exfalso; apply SS; [reflexivity | exact Hin]|].
    rewrite to_i64_id by assumption. reflexivity.
  - intros Hout. replace (willSubOverflow x y) with true
      by (symmetry; apply SS; exact Hout). reflexivity.
  - intros Hin. destruct (willMultOverflow x y);
      [exfalso; apply SM; [reflexivity | exact Hin]|].
    rewrite to_i64_id by assumption. reflexivity.
  - intros Hout. replace (willMultOverflow x y) with true
      by (symmetry; apply SM; exact Hout). reflexivity.
  - assert (E : willDivOverflow x y = false).
    { destruct (willDivOverflow x y); [|reflexivity].
      exfalso. assert (X : y = 0 \/ x = INT64_MIN /\ y = -1)
        by (apply SD1; reflexivity). tauto. }
    rewrite E. rewrite to_i64_id by (apply SD0; exact E). reflexivity.
  - assert (E : willDivOverflow x y = false).
    { destruct (willDivOverflow x y); [|reflexivity].
      exfalso. assert (X : y = 0 \/ x = INT64_MIN /\ y = -1)
        by (apply SD1; reflexivity). tauto. }
    rewrite E. rewrite to_i64_id; [reflexivity|].
    pose proof (Z.rem_bound_abs x y ltac:(assumption)) as R.
    unfold in_i64, INT64_MIN, INT64_MAX in *. lia.
  - replace (willDivOverflow x y) with true
      by (symmetry; apply SD1; assumption). reflexivity.
  - replace (willDivOverflow x y) with true
      by (symmetry; apply SD1; assumption). reflexivity.
Qed.

End ParserInvariant.

Lemma asm_arithmetic_exact_witness :
  in_i64 INT64_MAX /\ in_i64 1
  /\ addOp (mkExpr TYP_NUM INT64_MAX) (mkExpr TYP_NUM 1) initialAsmState
     = Err ERR_NUMERIC_OVERFLOW initialAsmState.
Proof.
  assert (Ha : in_i64 INT64_MAX) by (unfold in_i64, INT64_MIN, INT64_MAX; lia).
  assert (Hb : in_i64 1) by (unfold in_i64, INT64_MIN, INT64_MAX; lia).
  split; [exact Ha|]. split; [exact Hb|].
  pose proof (asm_arithmetic_exact (mkExpr TYP_NUM INT64_MAX) (mkExpr TYP_NUM 1)
                initialAsmState eq_refl eq_refl Ha Hb) as W.
  cbv zeta in W. destruct W as (_ & W & _).
  apply W. unfold in_i64, INT64_MIN, INT64_MAX. cbn [e_val]. lia.
Defined.

End AsmInvariant.

(** * Assembled lines executed on the CPU *)

Module AsmOnCpu.
Import UtilFacts CpuMore.
Local Open Scope Z_scope.

Module Words.
Import Asm AsmTerms AsmVocab AsmFacts.
Local Open Scope string_scope.
Section WithCommon.
Context {C : T64Common}.

Lemma asm_AND_reg_ok : isOk (parseLine 50 "AND R1, R2, R3" initialAsmState) = true.
Proof. reflexivity. Qed.

Lemma asm_AND_reg_word :
  instrCell (stateOf (parseLine 50 "AND R1, R2, R3" initialAsmState))
  = regFormWord OPC_AND.
Proof. reflexivity. Qed.

Lemma asm_AND_imm_ok : isOk (parseLine 50 "AND R1, R2, 5" initialAsmState) = true.
Proof. reflexivity. Qed.

Lemma asm_AND_imm_word :
  instrCell (stateOf (parseLine 50 "AND R1, R2, 5" initialAsmState))
  = immFormWord OPC_AND.
Proof. reflexivity. Qed.

Lemma asm_DSR_ok : isOk (parseLine 50 "DSR R1, R2, R3, 4" initialAsmState) = true.
Proof. reflexivity. Qed.

Lemma asm_DSR_word :
  instrCell (stateOf (parseLine 50 "DSR R1, R2, R3, 4" initialAsmState))
  = dsrWord OPC_BITOP.
Proof. reflexivity. Qed.

End WithCommon.

Lemma regFormWord_fields opc :
  0 <= opc < 16 ->
  extractInstrOpCode (regFormWord opc) = opc
  /\ extractInstrBit (regFormWord opc) 19 = 0
  /\ extractInstrBit (regFormWord opc) 20 = 0
  /\ extractInstrBit (regFormWord opc) 21 = 0
  /\ extractInstrRegR (regFormWord opc) = 1
  /\ extractInstrRegB (regFormWord opc) = 2
  /\ extractInstrRegA (regFormWord opc) = 3
  /\ extractInstrSignedImm15 (regFormWord opc) = 1536.
Proof. intros H. each4 H; vm_compute; repeat split; reflexivity. Qed.

Lemma immFormWord_fields opc :
  0 <= opc < 16 ->
  extractInstrOpCode (immFormWord opc) = opc
  /\ extractInstrBit (immFormWord opc) 19 = 1
  /\ extractInstrBit (immFormWord opc) 20 = 0
  /\ extractInstrBit (immFormWord opc) 21 = 0
  /\ extractInstrRegR (immFormWord opc) = 1
  /\ extractInstrRegB (immFormWord opc) = 2
  /\ extractInstrRegA (immFormWord opc) = 0
  /\ extractInstrSignedImm15 (immFormWord opc) = 5.
Proof. intros H. each4 H; vm_compute; repeat split; reflexivity. Qed.

Lemma dsrWord_fields opc :
  0 <= opc < 16 ->
  extractInstrOpCode (dsrWord opc) = opc
  /\ extractInstrFieldU (dsrWord opc) 19 3 = 2
  /\ extractInstrRegR (dsrWord opc) = 1
  /\ extractInstrRegB (dsrWord opc) = 2
  /\ extractInstrRegA (dsrWord opc) = 3
  /\ extractInstrFieldU (dsrWord opc) 0 6 = 4.
Proof. intros H. each4 H; vm_compute; repeat split; reflexivity. Qed.

End Words.

Section Scenarios.
Context {C : T64Common} {MS : T64MemSys}.
Import AsmTerms AsmVocab AsmFacts Words.
Local Open Scope string_scope.

Lemma instrAluAndOp_run (s : T64Cpu) (instr : Z) :
  wfCpu s ->
  extractInstrBit instr 20 = 0 -> extractInstrBit instr 21 = 0 ->
  instrAluAndOp instr s
  = Done tt (set_psrReg
               (withGReg s (extractInstrRegR instr)
                  (Z.land (greg s (extractInstrRegB instr))
                          (if z2b (extractInstrBit instr 19)
                           then greg s (extractInstrRegA instr)
                           else extractInstrSignedImm15 instr)))
               (addAdrOfs32 (psrReg s) 4)).
Proof.
  intros Hw H20 H21. unfold instrAluAndOp, logicTail, bind.
  rewrite getRegB_run by assumption.
  rewrite H20, H21. cbn [z2b Z.eqb negb].
  destruct (z2b (extractInstrBit instr 19)).
  - rewrite getRegA_run by assumption.
    rewrite setRegR_run by assumption.
    rewrite nextInstr_run, withGReg_psr. reflexivity.
  - unfold ret. rewrite setRegR_run by assumption.
    rewrite nextInstr_run, withGReg_psr. reflexivity.
Qed.

Lemma instrExecute_of_handler (instr : Z) (h : Handler) (s s' : T64Cpu) :
  selectHandler instr = h -> runHandler h instr s = Done tt s' ->
  instrExecute instr s = Done tt s'.
Proof.
  intros Hs Hr. unfold instrExecute, try_catch, instrExecuteBody.
  rewrite Hs, Hr. reflexivity.
Qed.

(** The assembler and the CPU read option bit 19 of the logical
    instructions the other way round (T64-InlineAsm.cpp [parseModeTypeInstr],
    T64-Cpu.cpp [instrAluAndOp]). The line AND R1, R2, R3 is assembled with
    bit 19 clear, and the CPU then takes the low 15 bits, 1536, as an
    immediate: R1 := R2 & 1536. The line AND R1, R2, 5 is assembled with bit
    19 set, and the CPU then reads register field A, which is 0, so R1 := 0. *)
Theorem asm_and_forms_swapped (s : T64Cpu) :
  wfConsts C = true -> wfCpu s ->
  let next v := set_psrReg (withGReg s 1 v) (addAdrOfs32 (psrReg s) 4) in
  exists st1 st2 : Asm.AsmState,
    Asm.assembleInstr 50 "AND R1, R2, R3" Asm.initialAsmState
    = Asm.Returns Asm.NO_ERR st1
    /\ Asm.assembleInstr 50 "AND R1, R2, 5" Asm.initialAsmState
       = Asm.Returns Asm.NO_ERR st2
    /\ extractInstrBit (Asm.instrCell st1) 19 = 0
    /\ extractInstrBit (Asm.instrCell st2) 19 = 1
    /\ extractInstrSignedImm15 (Asm.instrCell st1) = 1536
    /\ extractInstrRegA (Asm.instrCell st2) = 0
    /\ instrExecute (Asm.instrCell st1) s
       = Done tt (next (Z.land (greg s 2) 1536))
    /\ instrExecute (Asm.instrCell st2) s = Done tt (next 0).
Proof.
  intros Hc Hw next.
  assert (Hk : 0 <= OPC_AND < 16) by (pose proof Hc as H'; use_wf H'; assumption).
  destruct (regFormWord_fields OPC_AND Hk)
    as (Fo & F19 & F20 & F21 & FR & FB & FA & Fi).
  destruct (immFormWord_fields OPC_AND Hk)
    as (Go & G19 & G20 & G21 & GR & GB & GA & Gi).
  exists (stateOf (Asm.parseLine 50 "AND R1, R2, R3" Asm.initialAsmState)),
         (stateOf (Asm.parseLine 50 "AND R1, R2, 5" Asm.initialAsmState)).
  rewrite asm_AND_reg_word, asm_AND_imm_word.
  split; [apply assembleInstr_ok, asm_AND_reg_ok|].
  split; [apply assembleInstr_ok, asm_AND_imm_ok|].
  split; [exact F19|]. split; [exact G19|]. split; [exact Fi|].
  split; [exact GA|].
  split.
  - apply instrExecute_of_handler with (h := AluAndOp).
    + apply (selectHandler_of_opcode (regFormWord OPC_AND) Hc). exact Fo.
    + cbn [runHandler]. rewrite instrAluAndOp_run by assumption.
      rewrite F19, FR, FB, Fi. reflexivity.
  - apply instrExecute_of_handler with (h := AluAndOp).
    + apply (selectHandler_of_opcode (immFormWord OPC_AND) Hc). exact Go.
    + cbn [runHandler]. rewrite instrAluAndOp_run by assumption.
      rewrite G19, GR, GB, GA. cbn [z2b Z.eqb negb].
      change (greg s 0) with 0. rewrite Z.land_0_r. reflexivity.
Qed.

(** The assembler accepts DSR R1, R2, R3, 4 and encodes it in the BITOP
    family with option field 2 (T64-InlineAsm.cpp, token table and
    [parseInstrDSR]); [instrAluBitOp] (T64-Cpu.cpp) has the double shift under
    option 3 and no case for option 2, so executing the assembled word raises
    the illegal instruction trap and changes no general register. *)
Theorem asm_dsr_is_illegal_on_cpu (s : T64Cpu) :
  wfConsts C = true -> wfCpu s ->
  let t := newT64Trap ILLEGAL_INSTR_TRAP (psrReg s) (instrReg s) 0 in
  exists st : Asm.AsmState,
    Asm.assembleInstr 50 "DSR R1, R2, R3, 4" Asm.initialAsmState
    = Asm.Returns Asm.NO_ERR st
    /\ extractInstrOpCode (Asm.instrCell st) = OPC_BITOP
    /\ extractInstrFieldU (Asm.instrCell st) 19 3 = 2
    /\ instrExecuteBody (Asm.instrCell st) s = Throw t s
    /\ instrExecute (Asm.instrCell st) s
       = Done tt (withTrap s t).
Proof.
  intros Hc Hw t.
  assert (Hk : 0 <= OPC_BITOP < 16) by (pose proof Hc as H'; use_wf H'; assumption).
  destruct (dsrWord_fields OPC_BITOP Hk) as (Fo & Fopt & _).
  exists (stateOf (Asm.parseLine 50 "DSR R1, R2, R3, 4" Asm.initialAsmState)).
  rewrite asm_DSR_word.
  split; [apply assembleInstr_ok, asm_DSR_ok|].
  split; [exact Fo|]. split; [exact Fopt|].
  assert (Hb : instrExecuteBody (dsrWord OPC_BITOP) s = Throw t s).
  { unfold instrExecuteBody.
    replace (selectHandler (dsrWord OPC_BITOP)) with AluBitOp
      by (symmetry; apply (selectHandler_of_opcode (dsrWord OPC_BITOP) Hc); exact Fo).
    cbn [runHandler]. unfold instrAluBitOp. rewrite Fopt. reflexivity. }
  split; [exact Hb|].
  unfold instrExecute, try_catch. rewrite Hb.
  apply trapDelivery_state; assumption.
Qed.

End Scenarios.

Lemma asm_and_forms_swapped_witness :
  wfConsts sampleCommon = true /\ wfCpu sampleCpu
  /\ exists st1 : Asm.AsmState,
       @Asm.assembleInstr sampleCommon 50 "AND R1, R2, R3" Asm.initialAsmState
       = Asm.Returns Asm.NO_ERR st1
       /\ @instrExecute sampleCommon noMemSys (Asm.instrCell st1) sampleCpu
          = Done tt (set_psrReg (withGReg sampleCpu 1 (Z.land (greg sampleCpu 2) 1536))
                                (addAdrOfs32 (psrReg sampleCpu) 4)).
Proof.
  destruct (@asm_and_forms_swapped sampleCommon noMemSys sampleCpu
              sampleCommon_wf sampleCpu_wf)
    as (st1 & st2 & H1 & _ & _ & _ & _ & _ & H2 & _).
  split; [exact sampleCommon_wf|]. split; [exact sampleCpu_wf|].
  exists st1. split; assumption.
Defined.

Lemma asm_dsr_is_illegal_on_cpu_witness :
  wfConsts sampleCommon = true /\ wfCpu sampleCpu
  /\ exists st : Asm.AsmState,
       @Asm.assembleInstr sampleCommon 50 "DSR R1, R2, R3, 4" Asm.initialAsmState
       = Asm.Returns Asm.NO_ERR st
       /\ @instrExecuteBody sampleCommon noMemSys (Asm.instrCell st) sampleCpu
          = Throw (@newT64Trap sampleCommon ILLEGAL_INSTR_TRAP
                     (psrReg sampleCpu) (instrReg sampleCpu) 0) sampleCpu.
Proof.
  destruct (@asm_dsr_is_illegal_on_cpu sampleCommon noMemSys sampleCpu
              sampleCommon_wf sampleCpu_wf)
    as (st & H1 & _ & _ & H2 & _).
  split; [exact sampleCommon_wf|]. split; [exact sampleCpu_wf|].
  exists st. split; assumption.
Defined.

End AsmOnCpu.
